(** * skdata: binary record decoder, alias resolver and key classifier

    A shallow embedding of [skdata.py]: the text helpers, the I2 language
    table decoder ([parse_i2_asset_file]), the alias resolver
    ([load_language_map]) and the two classification passes
    ([build_dictionaries], [export_needed_data_from_langmap]).

    Python values are modelled as follows.
    - [str] is a sequence of Unicode code points, [list N].
    - [bytes] is [list byte].
    - [int] is [N] (every integer of the modelled code is non-negative).
    - [dict] is a [gmap]; where the iteration order of a dict matters it is
      passed next to the map as a list.
    - An exception is an explicit [Raised] outcome; a loop whose bound is not
      structural runs on fuel and answers [OutOfFuel] when it is exhausted.
    - The recursive closure [resolve] nests one frame of the interpreter per
      call.  The room that the interpreter has for such frames is an
      argument of the model, and a call beyond it is the RecursionError of
      the interpreter. *)

From Stdlib Require Import NArith List Bool Lia String Sorted.
From Stdlib Require Import Init.Byte.
From stdpp Require Import gmap list relations.

#[local] Set Warnings "-clear-no-such-hyp".

Local Open Scope N_scope.

(** ** Text *)

Abbreviation str := (list N) (only parsing).

(** A literal of the source, written as a Rocq string of ASCII characters. *)
Definition lit (s : string) : str :=
  map (fun b => Byte.to_N b) (list_byte_of_string s).

Definition CR : N := 13.
Definition LF : N := 10.

(** [s.startswith(p)] *)
Fixpoint startswith (p s : str) : bool :=
  match p, s with
  | [], _ => true
  | _ :: _, [] => false
  | a :: p', b :: s' => (a =? b) && startswith p' s'
  end.

(** [s.endswith(p)] *)
Definition endswith (p s : str) : bool :=
  startswith (rev p) (rev s).

(** [p in s] *)
Fixpoint contains (p s : str) : bool :=
  startswith p s ||
  match s with
  | [] => false
  | _ :: s' => contains p s'
  end.

(** [s.replace(old, new)]: occurrences of [old] are replaced from left to
    right and do not overlap.  [skip] counts the characters of an occurrence
    that is being skipped. *)
Fixpoint replace_from (old new : str) (skip : nat) (s : str) : str :=
  match s with
  | [] => []
  | c :: s' =>
      match skip with
      | S k => replace_from old new k s'
      | O =>
          if startswith old s
          then new ++ replace_from old new (Nat.pred (length old)) s'
          else c :: replace_from old new O s'
      end
  end.

Definition replace (old new s : str) : str :=
  match old with
  | [] => new ++ flat_map (fun c => c :: new) s
  | _ :: _ => replace_from old new O s
  end.

(** [str.isspace] on one code point: the characters whose bidirectional
    class is WS, B or S or whose category is Zs. *)
Definition isspace (c : N) : bool :=
  ((9 <=? c) && (c <=? 13)) || ((28 <=? c) && (c <=? 32))
  || (c =? 133) || (c =? 160) || (c =? 5760)
  || ((8192 <=? c) && (c <=? 8202))
  || (c =? 8232) || (c =? 8233) || (c =? 8239) || (c =? 8287) || (c =? 12288).

Fixpoint lstrip (s : str) : str :=
  match s with
  | [] => []
  | c :: s' => if isspace c then lstrip s' else s
  end.

Definition rstrip (s : str) : str := rev (lstrip (rev s)).

(** [s.strip()] *)
Definition strip (s : str) : str := rstrip (lstrip s).

(** [s[1:-1]] *)
Definition slice_1_m1 (s : str) : str :=
  take (length s - 2)%nat (drop 1%nat s).

(** The escape written for a line break: a backslash and the letter n. *)
Definition escaped_newline : str := lit "\n".

(** [sanitize_text] *)
Definition sanitize_text (text : str) : str :=
  strip
    (replace [LF] escaped_newline
       (replace [CR] escaped_newline
          (replace [CR; LF] escaped_newline text))).

(** The sanitization in the words of the specification, in one pass: a CRLF
    pair, a lone CR and a lone LF each become one escape.  [after_cr] tells
    that the previous character was a CR, whose escape covers a following
    LF. *)
Fixpoint escape_line_breaks (after_cr : bool) (s : str) : str :=
  match s with
  | [] => []
  | c :: s' =>
      if c =? CR then escaped_newline ++ escape_line_breaks true s'
      else if c =? LF then
        (if after_cr then [] else escaped_newline) ++ escape_line_breaks false s'
      else c :: escape_line_breaks false s'
  end.

Definition sanitize_spec (text : str) : str :=
  strip (escape_line_breaks false text).

(** Replacing a one-character text acts on every character on its own. *)
Definition subst_char (a : N) (new : list N) (c : N) : list N :=
  if c =? a then new else [c].

(** The two one-character replacements of [sanitize_text], composed. *)
Definition escape_cr_lf (s : list N) : list N :=
  replace [LF] escaped_newline (replace [CR] escaped_newline s).

(** The text of the sanitization example: a, CR, LF, b, CR, c, LF, space. *)
Definition sanitize_example : list N :=
  lit "a" ++ [CR; LF] ++ lit "b" ++ [CR] ++ lit "c" ++ [LF] ++ lit " ".

(** ** Bytes *)

Abbreviation bytes := (list byte) (only parsing).

(** [len(x)] *)
Definition len {A : Type} (l : list A) : N := N.of_nat (length l).

(** [l[lo:hi]] for non-negative bounds: the elements at the indices from
    [lo] up to [hi], clipped to the list; empty when [hi <= lo]. *)
Fixpoint slice {A : Type} (l : list A) (lo hi : N) : list A :=
  match l with
  | [] => []
  | x :: l' =>
      if hi =? 0 then []
      else if lo =? 0 then x :: slice l' 0 (N.pred hi)
      else slice l' (N.pred lo) (N.pred hi)
  end.

(** [int.from_bytes(b, "little")] *)
Fixpoint int_from_bytes_little (b : bytes) : N :=
  match b with
  | [] => 0
  | x :: b' => Byte.to_N x + 256 * int_from_bytes_little b'
  end.

(** [int.from_bytes(data[pos : pos + 4], "little")] *)
Definition word_at (data : bytes) (pos : N) : N :=
  int_from_bytes_little (slice data pos (pos + 4)).

(** *** Codecs

    The UTF-8 decoder of the interpreter, one byte at a time.  Between
    sequences it is in [Start]; inside a sequence it waits for [more]
    continuation bytes, the next of which must lie in [[lo, hi]] (the range
    is narrower after E0, ED, F0 and F4, which rules out overlong forms,
    surrogates and values above U+10FFFF). *)
Inductive utf8_state : Type :=
| Start
| Need (more : nat) (acc lo hi : N).

Inductive utf8_lead : Type :=
| LeadAscii (c : N)
| LeadMulti (more : nat) (acc lo hi : N)
| LeadInvalid.

Definition classify_lead (x : N) : utf8_lead :=
  if x <? 128 then LeadAscii x
  else if x <? 194 then LeadInvalid
  else if x <? 224 then LeadMulti 1 (x - 192) 128 191
  else if x =? 224 then LeadMulti 2 0 160 191
  else if x =? 237 then LeadMulti 2 13 128 159
  else if x <? 240 then LeadMulti 2 (x - 224) 128 191
  else if x =? 240 then LeadMulti 3 0 144 191
  else if x <? 244 then LeadMulti 3 (x - 240) 128 191
  else if x =? 244 then LeadMulti 3 4 128 143
  else LeadInvalid.

(** The error handlers used by the source: [errors="strict"] (the default)
    raises [UnicodeDecodeError], [errors="ignore"] drops the ill-formed bytes
    and resumes behind them. *)
Inductive error_handler : Type := Strict | Ignore.

(** [b.decode("utf-8", errors=h)]; [None] is [UnicodeDecodeError]. *)
Fixpoint utf8_run (h : error_handler) (st : utf8_state) (b : bytes) : option str :=
  match b with
  | [] =>
      match st, h with
      | Start, _ => Some []
      | Need _ _ _ _, Ignore => Some []
      | Need _ _ _ _, Strict => None
      end
  | x :: b' =>
      let from_start :=
        match classify_lead (Byte.to_N x) with
        | LeadAscii c => cons c <$> utf8_run h Start b'
        | LeadMulti more acc lo hi => utf8_run h (Need more acc lo hi) b'
        | LeadInvalid =>
            match h with
            | Ignore => utf8_run h Start b'
            | Strict => None
            end
        end in
      match st with
      | Start => from_start
      | Need more acc lo hi =>
          if (lo <=? Byte.to_N x) && (Byte.to_N x <=? hi) then
            let acc' := acc * 64 + (Byte.to_N x - 128) in
            match more with
            | S (S m) => utf8_run h (Need (S m) acc' 128 191) b'
            | _ => cons acc' <$> utf8_run h Start b'
            end
          else
            match h with
            | Ignore => from_start
            | Strict => None
            end
      end
  end.

Definition utf8_decode (h : error_handler) (b : bytes) : option str :=
  utf8_run h Start b.

(** [b.decode("latin-1", errors="ignore")]: every byte is a code point, so
    the handler is never called. *)
Definition latin1_decode (b : bytes) : str := map Byte.to_N b.

(** ** Regular expressions

    The fragment of [re] that the source uses, as a backtracking matcher in
    continuation-passing style: alternatives are tried from left to right
    and repetitions are greedy; a pass of a repetition has to consume
    text, so a repetition makes at most as many passes as there are
    characters left.  A match state is the offset into the subject and the
    text that is left. *)
Inductive regex : Type :=
| Eps
| Chr (c : N)
| Cls (p : N -> bool)
| Cat (a b : regex)
| Alt (a b : regex)
| Star (a : regex)
| Grp (i : nat) (a : regex)
| NotAhead (a : regex)
| Bol.

Definition Plus (a : regex) : regex := Cat a (Star a).
Definition Opt (a : regex) : regex := Alt a Eps.

Fixpoint Lit (w : str) : regex :=
  match w with
  | [] => Eps
  | c :: w' => Cat (Chr c) (Lit w')
  end.

(** The text of the groups that took part in the match, latest first. *)
Abbreviation captures := (list (nat * list N)) (only parsing).

Fixpoint rx (r : regex) {R : Type} (off : nat) (s : str) (env : captures)
    (k : nat -> str -> captures -> option R) {struct r} : option R :=
  match r with
  | Eps => k off s env
  | Chr c =>
      match s with
      | x :: s' => if x =? c then k (S off) s' env else None
      | [] => None
      end
  | Cls p =>
      match s with
      | x :: s' => if p x then k (S off) s' env else None
      | [] => None
      end
  | Cat a b => rx a off s env (fun off' s' env' => rx b off' s' env' k)
  | Alt a b =>
      match rx a off s env k with
      | Some x => Some x
      | None => rx b off s env k
      end
  | Star a =>
      (fix loop (n : nat) (off : nat) (s : str) (env : captures) : option R :=
         match n with
         | O => k off s env
         | S n' =>
             match rx a off s env
                     (fun off' s' env' =>
                        if (off <? off')%nat then loop n' off' s' env' else None) with
             | Some x => Some x
             | None => k off s env
             end
         end) (length s) off s env
  | Grp i a =>
      rx a off s env
        (fun off' s' env' => k off' s' ((i, take (off' - off)%nat s) :: env'))
  | NotAhead a =>
      match rx a off s env (fun _ _ _ => Some tt) with
      | Some _ => None
      | None => k off s env
      end
  | Bol => if (off =? 0)%nat then k off s env else None
  end.

(** [re.match(r, s)]: the pattern has to match at the start of [s]; the
    match may end anywhere. *)
Definition re_match (r : regex) (s : str) : option (list (nat * list N)) :=
  rx r O s [] (fun _ _ env => Some env).

(** [re.fullmatch(r, s)]: the match has to end at the end of [s]. *)
Definition re_fullmatch (r : regex) (s : str) : option (list (nat * list N)) :=
  rx r O s [] (fun _ s' env => match s' with [] => Some env | _ => None end).

(** [m.group(i)]; [None] for a group that did not take part. *)
Fixpoint group (i : nat) (env : list (nat * list N)) : option str :=
  match env with
  | [] => None
  | (j, w) :: env' => if (i =? j)%nat then Some w else group i env'
  end.

(** The loop of a repetition, as [rx] runs it. *)
Section StarLoop.
Context (a : regex) {R : Type}
  (k : nat -> list N -> list (nat * list N) -> option R).
Fixpoint star_loop (n : nat) (off : nat) (s : list N)
    (env : list (nat * list N)) : option R :=
  match n with
  | O => k off s env
  | S n' =>
      match rx a off s env
              (fun off' s' env' =>
                 if (off <? off')%nat then star_loop n' off' s' env' else None) with
      | Some x => Some x
      | None => k off s env
      end
  end.
End StarLoop.

(** The continuation tried behind ever shorter prefixes of a run [ds] that
    is followed by [r]: the greedy order of a repeated character class. *)
Fixpoint backtrack {R : Type} (k : nat -> list N -> list (nat * list N) -> option R)
    (off : nat) (ds r : list N) (env : list (nat * list N)) : option R :=
  match ds with
  | [] => k off r env
  | d :: ds' =>
      match backtrack k (S off) ds' r env with
      | Some x => Some x
      | None => k off (ds ++ r) env
      end
  end.

(** [r] does not go on with a character of the class [p]. *)
Definition stops (p : N -> bool) (r : list N) : Prop :=
  match r with
  | [] => True
  | c :: _ => p c = false
  end.

(** ** The record decoder *)

Definition LANGUAGES : list (list N) :=
  map lit
    ["English"; "Chinese (Traditional)"; "Chinese (Simplified)"; "Japanese";
     "Korean"; "Spanish"; "German"; "Portuguese"; "French"; "Russian";
     "Polish"; "Persian"; "Arabic"; "Thai"; "Vietnamese"]%string.

(** The exceptions that the functions let through to their callers. *)
Inductive exn : Type :=
| FileNotFoundError
| IsADirectoryError
| PermissionError
| OSError
| RecursionError
| AttributeError.

Inductive outcome (A : Type) : Type :=
| Returned (a : A)
| Raised (e : exn)
| OutOfFuel.
Arguments Returned {A} a.
Arguments Raised {A} e.
Arguments OutOfFuel {A}.

(** How one pass through the body of a [while] loop ends. *)
Inductive step (A : Type) : Type :=
| Break (a : A)
| Continue (a : A).
Arguments Break {A} a.
Arguments Continue {A} a.

(** A record: the key and its fields. *)
Abbreviation record := (list N * list (list N))%type (only parsing).

(** [if pos % 4: pos += 4 - (pos % 4)] *)
Definition align4 (pos : N) : N :=
  if pos mod 4 =? 0 then pos else pos + (4 - pos mod 4).

(** The key of a record: [key_bytes.decode("utf-8", errors="ignore").strip()]
    with the Latin-1 handler of the [except] clause. *)
Definition decode_key (key_bytes : bytes) : str :=
  match utf8_decode Ignore key_bytes with
  | Some t => strip t
  | None => strip (latin1_decode key_bytes)
  end.

(** The text of a field: [raw.decode("utf-8")] with the Latin-1 handler of
    the [except] clause. *)
Definition decode_field (raw : bytes) : str :=
  match utf8_decode Strict raw with
  | Some t => t
  | None => latin1_decode raw
  end.

(** The padding loop:
    [while pos < len(data) and int.from_bytes(data[pos:pos+4]) == 0: pos += 4] *)
Fixpoint skip_zero_words (fuel : nat) (data : bytes) (pos : N) : option N :=
  match fuel with
  | O => None
  | S f =>
      if (pos <? len data) && (word_at data pos =? 0)
      then skip_zero_words f data (pos + 4)
      else Some pos
  end.

(** The field loop, [for _ in range(fields_count)], with [count] passes
    left. *)
Fixpoint read_fields (fuel : nat) (data : bytes) (count pos : N)
    (fields : list (list N)) : option (N * list (list N)) :=
  match fuel with
  | O => None
  | S f =>
      if count =? 0 then Some (pos, fields)
      else if len data <? pos + 4 then Some (pos, fields)
      else
        let field_len := word_at data pos in
        let pos := pos + 4 in
        let text :=
          if 0 <? field_len then decode_field (slice data pos (pos + field_len))
          else [] in
        let fields := fields ++ [sanitize_text text] in
        let pos := align4 (pos + field_len) in
        read_fields f data (N.pred count) pos fields
  end.

(** [not filter_patterns or not any(p.match(key) for p in filter_patterns)];
    [None] is the default argument. *)
Definition truthy {A : Type} (l : option (list A)) : bool :=
  match l with
  | None | Some [] => false
  | Some (_ :: _) => true
  end.

Definition any_match (ps : list regex) (key : str) : bool :=
  existsb (fun p => bool_decide (is_Some (re_match p key))) ps.

Definition kept (filter_patterns : option (list regex)) (key : str) : bool :=
  negb (truthy filter_patterns)
  || negb (any_match (default [] filter_patterns) key).

(** The fuel handed to the two inner loops. *)
Definition inner_fuel (data : bytes) : nat := S (length data).

(** The key length of the next record, behind a run of zero words. *)
Definition read_key_len (data : bytes) (pos : N) : option (N + N * N) :=
  let key_len := word_at data pos in
  let pos := pos + 4 in
  if key_len =? 0 then
    pos ← skip_zero_words (inner_fuel data) data pos;
    (* [pos >= len(data) - 4], on integers *)
    if len data <=? pos + 4 then Some (inl pos)
    else
      let key_len := word_at data pos in
      let pos := pos + 4 in
      if key_len =? 0 then Some (inl pos) else Some (inr (key_len, pos))
  else Some (inr (key_len, pos)).

(** The number of fields: the count word, or the word behind it when the
    count word is zero. *)
Definition read_fields_count (data : bytes) (pos : N) : N + N * N :=
  let start_count := word_at data pos in
  let pos := pos + 4 in
  if start_count =? 0 then
    if len data <? pos + 4 then inl pos
    else inr (word_at data pos, pos + 4)
  else inr (start_count, pos).

(** One pass through the body of [while pos < len(data)]. *)
Definition loop_body (data : bytes) (filter_patterns : option (list regex))
    (st : N * list (list N * list (list N)))
    : option (step (N * list (list N * list (list N)))) :=
  let '(pos, records) := st in
  let pos := align4 pos in
  if len data <? pos + 4 then Some (Break (pos, records))
  else
    kl ← read_key_len data pos;
    match kl with
    | inl pos => Some (Break (pos, records))
    | inr (key_len, pos) =>
        let key := decode_key (slice data pos (pos + key_len)) in
        let pos := align4 (pos + key_len) in
        if len data <? pos + 4 then Some (Break (pos, records))
        else
          match read_fields_count data pos with
          | inl pos => Some (Break (pos, records))
          | inr (fields_count, pos) =>
              '(pos, fields) ← read_fields (inner_fuel data) data fields_count pos [];
              let pos := if pos + 4 <=? len data then pos + 4 else pos in
              let records :=
                if kept filter_patterns key then records ++ [(key, fields)]
                else records in
              Some (Continue (pos, records))
          end
    end.

Fixpoint parse_loop (fuel : nat) (data : bytes)
    (filter_patterns : option (list regex))
    (st : N * list (list N * list (list N)))
    : option (N * list (list N * list (list N))) :=
  match fuel with
  | O => None
  | S f =>
      if st.1 <? len data then
        match loop_body data filter_patterns st with
        | None => None
        | Some (Break st') => Some st'
        | Some (Continue st') => parse_loop f data filter_patterns st'
        end
      else Some st
  end.

(** [a <= b] on [str]: by code points, lexicographically. *)
Fixpoint str_leb (a b : str) : bool :=
  match a, b with
  | [], _ => true
  | _ :: _, [] => false
  | x :: a', y :: b' =>
      if x <? y then true else if y <? x then false else str_leb a' b'
  end.

(** [records.sort(key=lambda r: r[0])]: a stable sort by key. *)
Fixpoint insert_by_key (r : list N * list (list N))
    (l : list (list N * list (list N))) : list (list N * list (list N)) :=
  match l with
  | [] => [r]
  | r' :: l' =>
      if str_leb r.1 r'.1 then r :: l else r' :: insert_by_key r l'
  end.

Definition sort_by_key (l : list (list N * list (list N)))
    : list (list N * list (list N)) :=
  foldr insert_by_key [] l.

(** The records in the order in which the loop appended them. *)
Definition decode_records (data : bytes) (filter_patterns : option (list regex))
    : option (list (list N * list (list N))) :=
  snd <$> parse_loop (S (length data)) data filter_patterns (60, []).

(** [parse_i2_asset_file]; the file is [None] when the path does not
    exist, and [Some data] when [data] are the bytes read from it. *)
Definition parse_i2_asset_file (file : option (list byte))
    (filter_patterns : option (list regex))
    : outcome (list (list N * list (list N)) * list (list N)) :=
  match file with
  | None => Raised FileNotFoundError
  | Some data =>
      match decode_records data filter_patterns with
      | None => OutOfFuel
      | Some records => Returned (sort_by_key records, LANGUAGES)
      end
  end.

(** What the decoder meets at [file_path].  [file_path.exists()] answers
    or, for a path that may not be examined, raises on some versions of the
    interpreter; [file_path.read_bytes()] raises an error (of a directory,
    of a file that may not be read, of a file that is gone by then) or
    returns the bytes. *)
Record path : Type := {
  path_exists : exn + bool;
  read_bytes : exn + list byte
}.

(** [parse_i2_asset_file] from its first line on: the guard on
    [file_path.exists()], the read, and the decoding of the bytes.  Nothing
    catches an error of [exists] or of the read. *)
Definition parse_i2_asset_file_at (file_path : path)
    (filter_patterns : option (list regex))
    : outcome (list (list N * list (list N)) * list (list N)) :=
  match path_exists file_path with
  | inl e => Raised e
  | inr false => parse_i2_asset_file None filter_patterns
  | inr true =>
      match read_bytes file_path with
      | inl e => Raised e
      | inr data => parse_i2_asset_file (Some data) filter_patterns
      end
  end.

(** Helpers to write test buffers: a little-endian 32-bit word, the bytes
    of an ASCII string, zero padding. *)
Definition byte_of (n : N) : byte := default x00 (Byte.of_N n).

Definition le32 (n : N) : list byte :=
  [byte_of (n mod 256); byte_of (n / 256 mod 256);
   byte_of (n / 65536 mod 256); byte_of (n / 16777216 mod 256)].

Definition zeros (n : nat) : list byte := repeat x00 n.

Definition ascii_bytes (s : string) : list byte := list_byte_of_string s.

(** A buffer with the records foo = [A; B] and bar = [C]. *)
Definition two_records : list byte :=
  zeros 60
  ++ le32 3 ++ ascii_bytes "foo" ++ zeros 1 ++ le32 2
  ++ le32 1 ++ ascii_bytes "A" ++ zeros 3
  ++ le32 1 ++ ascii_bytes "B" ++ zeros 3
  ++ le32 0
  ++ le32 3 ++ ascii_bytes "bar" ++ zeros 1 ++ le32 1
  ++ le32 1 ++ ascii_bytes "C" ++ zeros 3
  ++ le32 0.

(** Fuel that lets a loop run to its end: every pass but the last starts
    below [len data] and moves the offset by four or more. *)
Definition enough_fuel (data : list byte) (fuel : nat) (pos : N) : Prop :=
  (0 < fuel)%nat /\ len data + 3 < pos + 4 * N.of_nat fuel.

Definition keeps (fp : option (list regex)) (r : list N * list (list N)) : bool :=
  kept fp r.1.

Definition filter_state (fp : option (list regex))
    (st : N * list (list N * list (list N))) : N * list (list N * list (list N)) :=
  (st.1, List.filter (keeps fp) st.2).

Definition filter_step (fp : option (list regex))
    (out : step (N * list (list N * list (list N))))
    : step (N * list (list N * list (list N))) :=
  match out with
  | Break st => Break (filter_state fp st)
  | Continue st => Continue (filter_state fp st)
  end.

(** A buffer with one record whose key is the single byte E9 (the letter
    e with an acute accent in Latin-1, ill-formed as UTF-8) and whose only
    field is A. *)
Definition latin1_key_buffer : list byte :=
  zeros 60 ++ le32 1 ++ [xe9] ++ zeros 3 ++ le32 1
  ++ le32 1 ++ ascii_bytes "A" ++ zeros 3 ++ le32 0.

(** A buffer with the records foobar = [A] and zed = [B]. *)
Definition prefix_buffer : list byte :=
  zeros 60
  ++ le32 6 ++ ascii_bytes "foobar" ++ zeros 2 ++ le32 1
  ++ le32 1 ++ ascii_bytes "A" ++ zeros 3
  ++ le32 0
  ++ le32 3 ++ ascii_bytes "zed" ++ zeros 1 ++ le32 1
  ++ le32 1 ++ ascii_bytes "B" ++ zeros 3
  ++ le32 0.

(** ** The alias resolver *)

(** [f"[Cyclic alias: {key}]"] *)
Definition cyclic_alias (key : str) : str :=
  lit "[Cyclic alias: " ++ key ++ lit "]".

(** [val.startswith("{") and val.endswith("}")], and then [val[1:-1]]. *)
Definition alias_of (val : str) : option str :=
  if startswith (lit "{") val && endswith (lit "}") val
  then Some (slice_1_m1 val)
  else None.

(** [raw_map.get(key, default)] with the empty string as default. *)
Definition raw_get (raw_map : gmap (list N) (list N)) (key : str) : str :=
  default [] (raw_map !! key).

(** The closure [resolve] of [load_language_map].  [raw_map] is read only;
    [resolved_map] is the dict that the closure updates, threaded through;
    [visited] is the set shared by the calls of one chain.  The result is
    the updated [resolved_map] and the returned string.

    The calls nest, each in a frame of the interpreter, and the source
    leaves the recursion limit of the interpreter as it is.  [depth] is the
    number of nested calls of [resolve] for which the interpreter has room
    (its limit less the frames in use at the first call); a call beyond it
    raises RecursionError.  Nothing catches that error, so it ends the
    pass and the function around it: the answer is [None]. *)
Fixpoint resolve (depth : nat) (raw_map resolved_map : gmap (list N) (list N))
    (visited : gset (list N)) (key : str)
    : option (gmap (list N) (list N) * list N) :=
  match depth with
  | O => None
  | S f =>
      match resolved_map !! key with
      | Some v => Some (resolved_map, v)
      | None =>
          if decide (key ∈ visited) then Some (resolved_map, cyclic_alias key)
          else
            let visited := {[key]} ∪ visited in
            let val := raw_get raw_map key in
            match alias_of val with
            | Some ref =>
                '(resolved_map, resolved) ← resolve f raw_map resolved_map visited ref;
                Some (<[key := resolved]> resolved_map, resolved)
            | None => Some (<[key := val]> resolved_map, val)
            end
      end
  end.

(** [for k in raw_map: resolve(k)], the keys visited in the order [ks];
    every call starts with a fresh [visited] set, and with room for
    [depth] nested calls. *)
Fixpoint resolve_keys (depth : nat) (raw_map resolved_map : gmap (list N) (list N))
    (ks : list (list N)) : option (gmap (list N) (list N)) :=
  match ks with
  | [] => Some resolved_map
  | k :: ks' =>
      '(resolved_map, _) ← resolve depth raw_map resolved_map ∅ k;
      resolve_keys depth raw_map resolved_map ks'
  end.

(** The eager pass over a raw map whose keys are visited in the order
    [ks], with room for [limit] nested calls of [resolve]; [None] when the
    pass raises RecursionError. *)
Definition resolve_all (limit : nat) (raw_map : gmap (list N) (list N))
    (ks : list (list N)) : option (gmap (list N) (list N)) :=
  resolve_keys limit raw_map ∅ ks.

(** The rows that [csv.DictReader] yields, as the cells of the columns [id]
    and [English] of a file with the header that [write_i2_csv] writes.
    The reader gives [None] for a cell that a short row lacks: the English
    cell of a row that holds an id alone, as it is written for a record
    without fields.

    [read_rows] is the loop that fills [raw_map]: both cells are stripped,
    and a later row with the same id replaces the earlier one.  On a
    missing English cell [.strip()] raises AttributeError, which nothing
    catches: the answer is [None]. *)
Fixpoint read_rows (raw_map : gmap (list N) (list N))
    (rows : list (list N * option (list N))) : option (gmap (list N) (list N)) :=
  match rows with
  | [] => Some raw_map
  | (rid, None) :: _ => None
  | (rid, Some eng) :: rows' =>
      read_rows (<[strip rid := strip eng]> raw_map) rows'
  end.

(** The raw map of rows that have both cells. *)
Definition raw_map_of_rows (rows : list (list N * list N)) : gmap (list N) (list N) :=
  foldl (fun m row => <[strip row.1 := strip row.2]> m) ∅ rows.

(** Rows with both cells, as the reader yields them. *)
Definition full_rows (rows : list (list N * list N))
    : list (list N * option (list N)) :=
  map (fun row => (row.1, Some row.2)) rows.

(** The iteration order of that dict: the keys in the order of their first
    insertion. *)
Fixpoint first_occurrences (seen : gset (list N)) (ks : list (list N)) : list (list N) :=
  match ks with
  | [] => []
  | k :: ks' =>
      if decide (k ∈ seen) then first_occurrences seen ks'
      else k :: first_occurrences ({[k]} ∪ seen) ks'
  end.

Definition key_order {A : Type} (rows : list (list N * A)) : list (list N) :=
  first_occurrences ∅ (map (fun row => strip row.1) rows).

(** [load_language_map], from the rows that the CSV reader yields, with
    room for [limit] nested calls of [resolve]. *)
Definition load_language_map (limit : nat) (rows : list (list N * option (list N)))
    : outcome (gmap (list N) (list N)) :=
  match read_rows ∅ rows with
  | None => Raised AttributeError
  | Some raw_map =>
      match resolve_all limit raw_map (key_order rows) with
      | None => Raised RecursionError
      | Some resolved_map => Returned resolved_map
      end
  end.

(** The alias chain of a key, followed for at most [n] steps: the value at
    which it ends, if it ends. *)
Fixpoint chase (raw_map : gmap (list N) (list N)) (n : nat) (key : str) : option str :=
  match n with
  | O => None
  | S n' =>
      match alias_of (raw_get raw_map key) with
      | Some ref => chase raw_map n' ref
      | None => Some (raw_get raw_map key)
      end
  end.

(** The id that a key refers to, when its raw value is an alias. *)
Definition alias_ref (raw_map : gmap (list N) (list N)) (key : list N)
    : option (list N) :=
  alias_of (raw_get raw_map key).

(** One step of an alias chain. *)
Definition link (raw_map : gmap (list N) (list N)) (k k' : list N) : Prop :=
  alias_ref raw_map k = Some k'.

(** The chain of [k] ends, at the value [v]. *)
Definition ends_at (raw_map : gmap (list N) (list N)) (k v : list N) : Prop :=
  exists n, chase raw_map n k = Some v.

(** The chain of [k] runs into a cycle through [c]. *)
Definition runs_into (raw_map : gmap (list N) (list N)) (k c : list N) : Prop :=
  rtc (link raw_map) k c /\ tc (link raw_map) c c.

(** What [resolve] may answer for [k]: the end of its chain, or the
    sentinel of an id on the cycle that the chain runs into. *)
Definition settled (raw_map : gmap (list N) (list N)) (k v : list N) : Prop :=
  ends_at raw_map k v
  \/ exists c, runs_into raw_map k c /\ v = cyclic_alias c.

(** Every entry of the resolved map is settled. *)
Definition sound (raw_map resolved_map : gmap (list N) (list N)) : Prop :=
  forall k v, resolved_map !! k = Some v -> settled raw_map k v.

(** The resolved map holds, for each of its aliases, the id referred to,
    unless that id is still being resolved. *)
Definition closed (raw_map resolved_map : gmap (list N) (list N))
    (visited : gset (list N)) : Prop :=
  forall k ref,
    k ∈ dom resolved_map -> link raw_map k ref ->
    ref ∈ dom resolved_map \/ ref ∈ visited.

(** The ids x and y alias each other. *)
Definition cyclic_raw : gmap (list N) (list N) :=
  <[lit "x" := lit "{y}"]> (<[lit "y" := lit "{x}"]> ∅).

(** The chain a, b, c of the specification. *)
Definition chain_raw : gmap (list N) (list N) :=
  <[lit "a" := lit "{b}"]> (<[lit "b" := lit "{c}"]> (<[lit "c" := lit "hello"]> ∅)).

(** The map in which a refers to the missing id zzz. *)
Definition missing_raw : gmap (list N) (list N) :=
  <[lit "a" := lit "{zzz}"]> ∅.

(** ** The key classifier

    [\d] in a [str] pattern matches every decimal digit of the Unicode
    database of the interpreter; the database is not part of the source, so
    the patterns take the predicate [digit] as an argument.  On ASCII it is
    the digits 0 to 9. *)
Definition ascii_digit (c : N) : bool := (48 <=? c) && (c <=? 57).

Definition digit_on_ascii (digit : N -> bool) : Prop :=
  forall c, c < 128 -> digit c = ascii_digit c.

(** [.]: any character but a line feed. *)
Definition any_char : regex := Cls (fun c => negb (c =? LF)).

(** [r"task/([^_]+)(_title|_desc)?"] *)
Definition task_pattern : regex :=
  Cat (Lit (lit "task/"))
    (Cat (Grp 1 (Plus (Cls (fun c => negb (c =? 95)))))
       (Opt (Grp 2 (Alt (Lit (lit "_title")) (Lit (lit "_desc")))))).

(** [r"Character(\d+)_name_skin(\d+)"] *)
Definition skin_pattern (digit : N -> bool) : regex :=
  Cat (Lit (lit "Character"))
    (Cat (Grp 1 (Plus (Cls digit)))
       (Cat (Lit (lit "_name_skin")) (Grp 2 (Plus (Cls digit))))).

(** [r"Pet_name_(\d+)"] *)
Definition pet_pattern (digit : N -> bool) : regex :=
  Cat (Lit (lit "Pet_name_")) (Grp 1 (Plus (Cls digit))).

(** The material pattern of the export: one group around [^material_], a
    negative lookahead for any characters followed by one of activity, book,
    fragment, tape, skill, new, money, multi, box, and then any characters. *)
Definition material_pattern : regex :=
  Grp 1
    (Cat Bol
       (Cat (Lit (lit "material_"))
          (Cat
             (NotAhead
                (Cat (Star any_char)
                   (Alt (Lit (lit "activity"))
                   (Alt (Lit (lit "book"))
                   (Alt (Lit (lit "fragment"))
                   (Alt (Lit (lit "tape"))
                   (Alt (Lit (lit "skill"))
                   (Alt (Lit (lit "new"))
                   (Alt (Lit (lit "money"))
                   (Alt (Lit (lit "multi")) (Lit (lit "box"))))))))))))
             (Star any_char)))).

(** [r"(Character\d+_skill_\d+_name)"] *)
Definition skill_pattern (digit : N -> bool) : regex :=
  Grp 1
    (Cat (Lit (lit "Character"))
       (Cat (Plus (Cls digit))
          (Cat (Lit (lit "_skill_"))
             (Cat (Plus (Cls digit)) (Lit (lit "_name")))))).

(** The dictionaries that [build_dictionaries] returns. *)
Record dictionaries : Type := {
  weapons : gmap (list N) (list N);
  buff_names : gmap (list N) (list N);
  buff_infos : gmap (list N) (list N);
  challenge_names : gmap (list N) (list N);
  challenge_titles : gmap (list N) (list N);
  challenge_descs : gmap (list N) (list N);
  materials : gmap (list N) (list N);
  plants : gmap (list N) (list N);
  pets : gmap (list N) (list N);
  characters : gmap (list N) (gmap (list N) (list N))
}.

Definition no_dictionaries : dictionaries :=
  {| weapons := ∅; buff_names := ∅; buff_infos := ∅; challenge_names := ∅;
     challenge_titles := ∅; challenge_descs := ∅; materials := ∅;
     plants := ∅; pets := ∅; characters := ∅ |}.

(** [d.setdefault(k1, {})[k2] = v] *)
Definition set_nested (k1 k2 v : list N)
    (d : gmap (list N) (gmap (list N) (list N)))
    : gmap (list N) (gmap (list N) (list N)) :=
  <[k1 := <[k2 := v]> (default ∅ (d !! k1))]> d.

(** Assignments to one dictionary: the others are kept. *)
Definition set_weapons (v : gmap (list N) (list N)) (d : dictionaries)
    : dictionaries :=
  {| weapons := v; buff_names := buff_names d; buff_infos := buff_infos d;
     challenge_names := challenge_names d;
     challenge_titles := challenge_titles d;
     challenge_descs := challenge_descs d; materials := materials d;
     plants := plants d; pets := pets d; characters := characters d |}.

Definition set_buff_names (v : gmap (list N) (list N)) (d : dictionaries)
    : dictionaries :=
  {| weapons := weapons d; buff_names := v; buff_infos := buff_infos d;
     challenge_names := challenge_names d;
     challenge_titles := challenge_titles d;
     challenge_descs := challenge_descs d; materials := materials d;
     plants := plants d; pets := pets d; characters := characters d |}.

Definition set_buff_infos (v : gmap (list N) (list N)) (d : dictionaries)
    : dictionaries :=
  {| weapons := weapons d; buff_names := buff_names d; buff_infos := v;
     challenge_names := challenge_names d;
     challenge_titles := challenge_titles d;
     challenge_descs := challenge_descs d; materials := materials d;
     plants := plants d; pets := pets d; characters := characters d |}.

Definition set_challenge_names (v : gmap (list N) (list N)) (d : dictionaries)
    : dictionaries :=
  {| weapons := weapons d; buff_names := buff_names d;
     buff_infos := buff_infos d; challenge_names := v;
     challenge_titles := challenge_titles d;
     challenge_descs := challenge_descs d; materials := materials d;
     plants := plants d; pets := pets d; characters := characters d |}.

Definition set_challenge_titles (v : gmap (list N) (list N)) (d : dictionaries)
    : dictionaries :=
  {| weapons := weapons d; buff_names := buff_names d;
     buff_infos := buff_infos d; challenge_names := challenge_names d;
     challenge_titles := v; challenge_descs := challenge_descs d;
     materials := materials d; plants := plants d; pets := pets d;
     characters := characters d |}.

Definition set_challenge_descs (v : gmap (list N) (list N)) (d : dictionaries)
    : dictionaries :=
  {| weapons := weapons d; buff_names := buff_names d;
     buff_infos := buff_infos d; challenge_names := challenge_names d;
     challenge_titles := challenge_titles d; challenge_descs := v;
     materials := materials d; plants := plants d; pets := pets d;
     characters := characters d |}.

Definition set_materials (v : gmap (list N) (list N)) (d : dictionaries)
    : dictionaries :=
  {| weapons := weapons d; buff_names := buff_names d;
     buff_infos := buff_infos d; challenge_names := challenge_names d;
     challenge_titles := challenge_titles d;
     challenge_descs := challenge_descs d; materials := v;
     plants := plants d; pets := pets d; characters := characters d |}.

Definition set_plants (v : gmap (list N) (list N)) (d : dictionaries)
    : dictionaries :=
  {| weapons := weapons d; buff_names := buff_names d;
     buff_infos := buff_infos d; challenge_names := challenge_names d;
     challenge_titles := challenge_titles d;
     challenge_descs := challenge_descs d; materials := materials d;
     plants := v; pets := pets d; characters := characters d |}.

Definition set_pets (v : gmap (list N) (list N)) (d : dictionaries)
    : dictionaries :=
  {| weapons := weapons d; buff_names := buff_names d;
     buff_infos := buff_infos d; challenge_names := challenge_names d;
     challenge_titles := challenge_titles d;
     challenge_descs := challenge_descs d; materials := materials d;
     plants := plants d; pets := v; characters := characters d |}.

Definition set_characters (v : gmap (list N) (gmap (list N) (list N))) (d : dictionaries)
    : dictionaries :=
  {| weapons := weapons d; buff_names := buff_names d;
     buff_infos := buff_infos d; challenge_names := challenge_names d;
     challenge_titles := challenge_titles d;
     challenge_descs := challenge_descs d; materials := materials d;
     plants := plants d; pets := pets d; characters := v |}.

(** The body of the loop of [build_dictionaries], for one item of
    [lang_map]. *)
Definition classify (digit : N -> bool) (d : dictionaries) (item : list N * list N)
    : dictionaries :=
  let '(rid, eng) := item in
  if startswith (lit "weapon/") rid then
    set_weapons (<[replace (lit "weapon/") [] rid := eng]> (weapons d)) d
  else if startswith (lit "Buff_name_") rid then
    set_buff_names (<[rid := eng]> (buff_names d)) d
  else if startswith (lit "Buff_info_") rid then
    set_buff_infos (<[rid := eng]> (buff_infos d)) d
  else if startswith (lit "task/") rid then
    match re_match task_pattern rid with
    | None => d
    | Some m =>
        let cid := default [] (group 1 m) in
        let suffix := group 2 m in
        if bool_decide (suffix = Some (lit "_title")) then
          set_challenge_titles (<[cid := eng]> (challenge_titles d)) d
        else if bool_decide (suffix = Some (lit "_desc")) then
          set_challenge_descs (<[cid := eng]> (challenge_descs d)) d
        else
          set_challenge_names (<[cid := eng]> (challenge_names d)) d
    end
  else if startswith (lit "material_") rid then
    set_materials (<[rid := eng]> (materials d)) d
  else if startswith (lit "plant_") rid && negb (contains (lit "/") rid) then
    set_plants (<[rid := eng]> (plants d)) d
  else if startswith (lit "Pet_name_") rid
          && negb (endswith (lit "_des") rid)
          && negb (endswith (lit "_lock") rid) then
    set_pets (<[rid := eng]> (pets d)) d
  else
    match re_match (skin_pattern digit) rid with
    | Some m =>
        let char_index := default [] (group 1 m) in
        let skin_index := default [] (group 2 m) in
        set_characters (set_nested char_index skin_index eng (characters d)) d
    | None => d
    end.

(** [build_dictionaries], on the items of the resolved language map in
    their iteration order. *)
Definition build_dictionaries (digit : N -> bool) (items : list (list N * list N))
    : dictionaries :=
  foldl (classify digit) no_dictionaries items.

(** The [result] of [export_needed_data_from_langmap]. *)
Record needed_data : Type := {
  skin : gmap (list N) (gmap (list N) (list N));
  pet : gmap (list N) (list N);
  material : gmap (list N) (list N);
  character_skill : gmap (list N) (list N)
}.

Definition no_needed_data : needed_data :=
  {| skin := ∅; pet := ∅; material := ∅; character_skill := ∅ |}.

(** The body of the loop of [export_needed_data_from_langmap]. *)
Definition export_item (digit : N -> bool) (r : needed_data) (item : list N * list N)
    : needed_data :=
  let '(key, value) := item in
  match re_fullmatch (skin_pattern digit) key with
  | Some m =>
      let char_index := default [] (group 1 m) in
      let skin_index := default [] (group 2 m) in
      {| skin :=
           set_nested (lit "c" ++ char_index)
             (lit "c" ++ char_index ++ lit "_skin" ++ skin_index) value (skin r);
         pet := pet r; material := material r;
         character_skill := character_skill r |}
  | None =>
      match re_fullmatch (pet_pattern digit) key with
      | Some m =>
          {| skin := skin r; pet := <[default [] (group 1 m) := value]> (pet r);
             material := material r; character_skill := character_skill r |}
      | None =>
          match re_fullmatch material_pattern key with
          | Some m =>
              {| skin := skin r; pet := pet r;
                 material := <[default [] (group 1 m) := value]> (material r);
                 character_skill := character_skill r |}
          | None =>
              match re_fullmatch (skill_pattern digit) key with
              | Some m =>
                  {| skin := skin r; pet := pet r; material := material r;
                     character_skill :=
                       <[default [] (group 1 m) := value]> (character_skill r) |}
              | None => r
              end
          end
      end
  end.

(** The [result] that [export_needed_data_from_langmap] writes out. *)
Definition export_needed_data (digit : N -> bool) (items : list (list N * list N))
    : needed_data :=
  foldl (export_item digit) no_needed_data items.

(** ** Definitions for the further properties *)

(** A text on which [sanitize_text] has nothing to do: no line break in it,
    no whitespace at either end. *)
Definition clean (s : list N) : Prop :=
  Forall (fun c => c <> CR /\ c <> LF) s
  /\ (forall c t, s = c :: t -> isspace c = false)
  /\ (forall c t, s = t ++ [c] -> isspace c = false).

(** A text without whitespace at either end, as [strip] leaves it. *)
Definition trimmed (s : list N) : Prop :=
  (forall c t, s = c :: t -> isspace c = false)
  /\ (forall c t, s = t ++ [c] -> isspace c = false).

(** The order of the sort: the key of [r1] is at most the key of [r2]. *)
Definition key_le (r1 r2 : list N * list (list N)) : Prop :=
  str_leb r1.1 r2.1 = true.

(** The records with the key [k], in the order of the list. *)
Definition with_key (k : list N) (l : list (list N * list (list N)))
    : list (list N * list (list N)) :=
  List.filter (fun r => bool_decide (r.1 = k)) l.

(** A record as the decoder builds it: a stripped key and sanitized
    fields. *)
Definition tidy (r : list N * list (list N)) : Prop :=
  trimmed r.1 /\ Forall clean r.2.

(** The shortest buffer that holds a record: the header, a key length, one
    key byte with its padding, and the count word. *)
Definition shortest_buffer : list byte :=
  zeros 60 ++ le32 1 ++ ascii_bytes "k" ++ zeros 3 ++ le32 1.

(** Two buffers of the same length that agree from the offset [n] on. *)
Definition same_from (n : N) (d1 d2 : list byte) : Prop :=
  length d1 = length d2
  /\ forall lo hi, n <= lo -> slice d1 lo hi = slice d2 lo hi.

(** *** The layout that the decoder reads

    The padding behind [n] bytes up to the next multiple of four. *)
Definition padding (n : N) : list byte := zeros (N.to_nat (align4 n - n)).

(** A field in the buffer: its length, its bytes, the padding. *)
Definition encode_field (f : list byte) : list byte :=
  le32 (len f) ++ f ++ padding (len f).

(** A record in the buffer: the key with its length and padding, the
    number of fields, the fields, and the terminator word. *)
Definition encode_record (r : list byte * list (list byte)) : list byte :=
  le32 (len r.1) ++ r.1 ++ padding (len r.1)
  ++ le32 (len r.2) ++ concat (map encode_field r.2) ++ le32 0.

(** The buffer of a table: a header and the records. *)
Definition encode_table (header : list byte)
    (rs : list (list byte * list (list byte))) : list byte :=
  header ++ concat (map encode_record rs).

(** What the decoder makes of the bytes of a record. *)
Definition decoded (r : list byte * list (list byte)) : list N * list (list N) :=
  (decode_key r.1, map (fun f => sanitize_text (decode_field f)) r.2).

(** A record that the layout can hold: a key and a list of fields that are
    not empty, with lengths and a count that fit into 32 bits. *)
Definition encodable (r : list byte * list (list byte)) : Prop :=
  r.1 <> [] /\ len r.1 < 4294967296
  /\ r.2 <> [] /\ len r.2 < 4294967296
  /\ Forall (fun f => len f < 4294967296) r.2.

(** The records foo = [A; B] and bar = [C], as bytes. *)
Definition two_byte_records : list (list byte * list (list byte)) :=
  [(ascii_bytes "foo", [ascii_bytes "A"; ascii_bytes "B"]);
   (ascii_bytes "bar", [ascii_bytes "C"])].

(** Every alias in the resolved map has the value of the id it refers to;
    an id in [pending] is still being resolved and will get the value [r]. *)
Definition consistent (raw_map resolved_map : gmap (list N) (list N))
    (pending : gset (list N)) (r : list N) : Prop :=
  forall k ref v,
    resolved_map !! k = Some v -> link raw_map k ref ->
    resolved_map !! ref = Some v \/ (ref ∈ pending /\ v = r).

(** The dict that holds the items, assigned in their order: a later item
    with the same id replaces an earlier one. *)
Definition dict_of_items (items : list (list N * list N)) : gmap (list N) (list N) :=
  foldl (fun m item => <[item.1 := item.2]> m) ∅ items.

(** The tests of the rules that keep the whole id as key. *)
Definition plant_test (rid : list N) : bool :=
  startswith (lit "plant_") rid && negb (contains (lit "/") rid).

Definition pet_test (rid : list N) : bool :=
  startswith (lit "Pet_name_") rid
  && negb (endswith (lit "_des") rid)
  && negb (endswith (lit "_lock") rid).

(** The entry of a map at an id that passes a test. *)
Definition restrict (test : list N -> bool) (m : gmap (list N) (list N))
    (k : list N) : option (list N) :=
  if test k then m !! k else None.

(** [[^_]]: any character but the underscore. *)
Definition not_underscore (c : N) : bool := negb (c =? 95).

(** The words that keep a material out of the narrow export. *)
Definition material_exclusions : list (list N) :=
  map lit ["activity"; "book"; "fragment"; "tape"; "skill"; "new"; "money";
           "multi"; "box"]%string.

(** One of the words occurs in [rest]. *)
Definition has_exclusion (rest : list N) : bool :=
  existsb (fun w => contains w rest) material_exclusions.

(** [rest] starts with one of the words. *)
Definition starts_with_exclusion (rest : list N) : bool :=
  existsb (fun w => startswith w rest) material_exclusions.

(** ** The weapon exports

    [$] is not a constructor of [regex]; it is written with the lookaheads
    that define it: the end of the text is where no character follows, and
    [$] holds at the end of the text and before a line feed that ends it. *)
Definition End : regex := NotAhead (Cls (fun _ => true)).

Definition Dollar : regex :=
  Alt End (NotAhead (NotAhead (Cat (Chr LF) End))).

(** [r"^(weapon_\d+)_s_\d+$"] *)
Definition weapon_skin_pattern (digit : N -> bool) : regex :=
  Cat Bol
    (Cat (Grp 1 (Cat (Lit (lit "weapon_")) (Plus (Cls digit))))
       (Cat (Lit (lit "_s_")) (Cat (Plus (Cls digit)) Dollar))).

(** [sorted(v)] on a list of [str]: a stable sort by code points. *)
Fixpoint insert_sorted (x : list N) (l : list (list N)) : list (list N) :=
  match l with
  | [] => [x]
  | y :: l' => if str_leb x y then x :: l else y :: insert_sorted x l'
  end.

Definition sorted (l : list (list N)) : list (list N) :=
  foldr insert_sorted [] l.

(** The body of the loop of [export_weapon_skin_map_from_langmap];
    [skin_map] is a defaultdict of lists. *)
Definition skin_map_step (digit : N -> bool)
    (skin_map : gmap (list N) (list (list N))) (full_id : list N)
    : gmap (list N) (list (list N)) :=
  if contains (lit "/") full_id then skin_map
  else
    match re_match (weapon_skin_pattern digit) full_id with
    | Some m =>
        let base := default [] (group 1 m) in
        <[base := default [] (skin_map !! base) ++ [full_id]]> skin_map
    | None => skin_map
    end.

(** The [skin_map] that [export_weapon_skin_map_from_langmap] writes out,
    from the ids of the language map in their iteration order. *)
Definition export_weapon_skin_map (digit : N -> bool) (lang_map : list (list N))
    : gmap (list N) (list (list N)) :=
  sorted <$> foldl (skin_map_step digit) ∅ lang_map.

(** [exclude_patterns] of [export_filtered_weapons_from_info]:
    [r"^weapon_000.*xx\d*$"], [r"^weapon_init.*xx\d*$"] and
    [r"^transform_weapon_.*"]. *)
Definition exclude_patterns (digit : N -> bool) : list regex :=
  [ Cat Bol
      (Cat (Lit (lit "weapon_000"))
         (Cat (Star any_char)
            (Cat (Lit (lit "xx")) (Cat (Star (Cls digit)) Dollar))));
    Cat Bol
      (Cat (Lit (lit "weapon_init"))
         (Cat (Star any_char)
            (Cat (Lit (lit "xx")) (Cat (Star (Cls digit)) Dollar))));
    Cat Bol (Cat (Lit (lit "transform_weapon_")) (Star any_char)) ].

(** What follows the prefix in the first two of them: any characters, xx,
    digits and the end. *)
Definition xx_digits_end (digit : N -> bool) : regex :=
  Cat (Star any_char) (Cat (Lit (lit "xx")) (Cat (Star (Cls digit)) Dollar)).

(** The body of the filter loop of [export_filtered_weapons_from_info]. *)
Definition filter_weapon (digit : N -> bool) (weapons_map : gmap (list N) (list N))
    (filtered : gmap (list N) (list N)) (wid : list N) : gmap (list N) (list N) :=
  if any_match (exclude_patterns digit) wid then filtered
  else
    match weapons_map !! wid with
    | Some (c :: english_name) => <[wid := c :: english_name]> filtered
    | _ => filtered
    end.

(** The [filtered] dict that [export_filtered_weapons_from_info] writes
    out.  [ids_from_info] is the set of the names (strings) read from the
    weapon file, given by the list of its members in the order in which
    the loop meets them. *)
Definition export_filtered_weapons (digit : N -> bool) (ids_from_info : list (list N))
    (weapons_map : gmap (list N) (list N)) : gmap (list N) (list N) :=
  foldl (filter_weapon digit weapons_map) ∅ ids_from_info.

(** Where [$] holds. *)
Definition at_end (s : list N) : bool :=
  match s with
  | [] => true
  | [c] => c =? LF
  | _ => false
  end.

(** The key under which [skin_map_step] files an id, if it files it. *)
Definition skin_base (digit : N -> bool) (full_id : list N) : option (list N) :=
  if contains (lit "/") full_id then None
  else m ← re_match (weapon_skin_pattern digit) full_id; Some (default [] (group 1 m)).

(** The ids of a list that are filed under [base], in their order. *)
Definition filed_under (digit : N -> bool) (base : list N) (ids : list (list N))
    : list (list N) :=
  List.filter (fun full_id => bool_decide (skin_base digit full_id = Some base)) ids.

(** A text that goes on without a line feed up to xx and digits, behind
    which it ends, but for a line feed at most. *)
Definition xx_tail (digit : N -> bool) (s : list N) : Prop :=
  exists u ds t,
    s = u ++ lit "xx" ++ ds ++ t
    /\ Forall (fun c => c <> LF) u
    /\ Forall (fun c => digit c = true) ds
    /\ at_end t = true.

(** The weapon ids that the exclusion patterns describe. *)
Definition excluded (digit : N -> bool) (wid : list N) : Prop :=
  (exists rest, wid = lit "weapon_000" ++ rest /\ xx_tail digit rest)
  \/ (exists rest, wid = lit "weapon_init" ++ rest /\ xx_tail digit rest)
  \/ startswith (lit "transform_weapon_") wid = true.

(** The name that the filter keeps for a weapon id. *)
Definition kept_name (digit : N -> bool) (ids_from_info : list (list N))
    (weapons_map : gmap (list N) (list N)) (wid : list N) : option (list N) :=
  if bool_decide (wid ∈ ids_from_info)
     && negb (any_match (exclude_patterns digit) wid)
  then match weapons_map !! wid with
       | Some (c :: english_name) => Some (c :: english_name)
       | _ => None
       end
  else None.

(** *** Where the classifier files an id

    The slot of a dictionary in which [classify] files an id, if it files
    it there.  The prefixes of the rules exclude each other, so each slot
    is read off the rule of its dictionary alone. *)
Definition weapon_slot (rid : list N) : option (list N) :=
  if startswith (lit "weapon/") rid
  then Some (replace (lit "weapon/") [] rid)
  else None.

Definition title_slot (rid : list N) : option (list N) :=
  m ← re_match task_pattern rid;
  if bool_decide (group 2 m = Some (lit "_title"))
  then Some (default [] (group 1 m))
  else None.

Definition pet_slot (rid : list N) : option (list N) :=
  if pet_test rid then Some rid else None.

Definition character_slot (digit : N -> bool) (rid : list N)
    : option (list N * list N) :=
  m ← re_match (skin_pattern digit) rid;
  Some (default [] (group 1 m), default [] (group 2 m)).

(** The string of the last of the items that is filed in the slot [k]. *)
Definition last_filed {K : Type} `{EqDecision K} (slot : list N -> option K)
    (items : list (list N * list N)) (k : K) : option (list N) :=
  snd <$> last (List.filter (fun item => bool_decide (slot item.1 = Some k)) items).

(** A chain of aliases: each id of the list refers to the next one. *)
Fixpoint linked (raw_map : gmap (list N) (list N)) (ks : list (list N)) : Prop :=
  match ks with
  | k :: ((k' :: _) as ks') => link raw_map k k' /\ linked raw_map ks'
  | _ => True
  end.

(** An order of the pass in which an alias is visited behind the id that
    it refers to, unless that id is no alias itself. *)
Definition targets_first (raw_map : gmap (list N) (list N)) (ks : list (list N))
    : Prop :=
  forall before k after ref,
    ks = before ++ k :: after -> link raw_map k ref ->
    ref ∈ before \/ alias_ref raw_map ref = None.

(** * Properties *)

(** ** Tactics *)

(** Evaluate a closed test of the classifier. *)
Ltac decide_test :=
  match goal with
  | |- context [if ?c then _ else _] =>
      let v := eval vm_compute in c in
      match v with
      | true => change c with true
      | false => change c with false
      end; cbv match
  end.

Ltac split_classify :=
  repeat first
    [ match goal with
      | |- context [if ?c then _ else _] => destruct c eqn:?
      end
    | match goal with
      | |- context [match ?o with Some _ => _ | None => _ end] => destruct o eqn:?
      end ].

(** ** Text *)

Lemma startswith_app (p s : list N) : startswith p (p ++ s) = true.
Proof.
  induction p as [|a p IH]; simpl; [done|].
  by rewrite N.eqb_refl, IH.
Qed.

Lemma startswith_spec (p s : list N) :
  startswith p s = true <-> exists t, s = p ++ t.
Proof.
  split.
  - revert s. induction p as [|a p IH]; intros s H; simpl in *.
    + by exists s.
    + destruct s as [|b s]; [done|].
      apply andb_true_iff in H as [Hab H].
      apply N.eqb_eq in Hab as ->.
      destruct (IH _ H) as [t ->]. by exists t.
  - intros [t ->]. apply startswith_app.
Qed.

Lemma replace_single (a : N) (new s : list N) :
  replace [a] new s = flat_map (subst_char a new) s.
Proof.
  unfold replace. induction s as [|c s IH]; simpl; [done|].
  unfold subst_char at 1. rewrite andb_true_r, (N.eqb_sym a c).
  destruct (c =? a); simpl; by rewrite IH.
Qed.

Lemma flat_map_subst_app (a : N) (new s t : list N) :
  flat_map (subst_char a new) (s ++ t)
  = flat_map (subst_char a new) s ++ flat_map (subst_char a new) t.
Proof. apply flat_map_app. Qed.

Lemma escape_cr_lf_app (s t : list N) :
  escape_cr_lf (s ++ t) = escape_cr_lf s ++ escape_cr_lf t.
Proof.
  unfold escape_cr_lf. rewrite !replace_single.
  by rewrite !flat_map_app.
Qed.

Lemma escape_cr_lf_cons (c : N) (s : list N) :
  escape_cr_lf (c :: s) = escape_cr_lf [c] ++ escape_cr_lf s.
Proof. apply (escape_cr_lf_app [c] s). Qed.

Lemma escape_cr_lf_one (c : N) :
  escape_cr_lf [c]
  = if c =? CR then escaped_newline
    else if c =? LF then escaped_newline else [c].
Proof.
  unfold escape_cr_lf. rewrite !replace_single. simpl.
  unfold subst_char at 2.
  destruct (N.eqb_spec c CR) as [->|Hcr]; [reflexivity|].
  simpl. unfold subst_char. by destruct (c =? LF).
Qed.

Lemma escape_line_breaks_after_cr (c : N) (s : list N) :
  c <> LF -> escape_line_breaks true (c :: s) = escape_line_breaks false (c :: s).
Proof.
  intros Hc. simpl. destruct (c =? CR); [done|].
  by destruct (N.eqb_spec c LF).
Qed.

Lemma replace_from_cons (old new : list N) (c : N) (s : list N) :
  replace_from old new O (c :: s)
  = if startswith old (c :: s)
    then new ++ replace_from old new (Nat.pred (length old)) s
    else c :: replace_from old new O s.
Proof. reflexivity. Qed.

Lemma replace_from_skip (old new : list N) (k : nat) (c : N) (s : list N) :
  replace_from old new (S k) (c :: s) = replace_from old new k s.
Proof. reflexivity. Qed.

Lemma replace_crlf_escapes (s : list N) :
  escape_cr_lf (replace_from [CR; LF] escaped_newline O s)
  = escape_line_breaks false s
  /\ forall x,
      escape_cr_lf (replace_from [CR; LF] escaped_newline O (x :: s))
      = escape_line_breaks false (x :: s).
Proof.
  induction s as [|c s [IH1 IH2]].
  - split; [done|]. intros x.
    rewrite replace_from_cons. cbn [startswith]. rewrite andb_false_r.
    rewrite escape_cr_lf_cons, escape_cr_lf_one. simpl.
    destruct (x =? CR); [by rewrite app_nil_r|].
    destruct (x =? LF); [by rewrite app_nil_r|done].
  - split; [apply IH2|]. intros x.
    rewrite replace_from_cons. cbn [startswith length Nat.pred].
    rewrite andb_true_r.
    destruct (N.eqb_spec CR x) as [<-|Hx].
    + destruct (N.eqb_spec LF c) as [<-|Hc]; cbn [andb].
      * rewrite replace_from_skip, escape_cr_lf_app, IH1. reflexivity.
      * rewrite escape_cr_lf_cons, escape_cr_lf_one, IH2.
        rewrite <- escape_line_breaks_after_cr by congruence. reflexivity.
    + cbn [andb].
      rewrite escape_cr_lf_cons, escape_cr_lf_one, IH2.
      cbn [escape_line_breaks].
      destruct (N.eqb_spec x CR) as [->|_]; [done|].
      destruct (x =? LF); reflexivity.
Qed.

Lemma sanitize_text_one_pass (text : list N) :
  sanitize_text text = sanitize_spec text.
Proof.
  unfold sanitize_text, sanitize_spec. f_equal.
  apply (replace_crlf_escapes text).
Qed.

Lemma escaped_newline_no_break :
  Forall (fun c => c <> CR /\ c <> LF) escaped_newline.
Proof. repeat constructor; done. Qed.

Lemma escape_line_breaks_no_break (b : bool) (s : list N) :
  Forall (fun c => c <> CR /\ c <> LF) (escape_line_breaks b s).
Proof.
  revert b. induction s as [|c s IH]; intros b; cbn [escape_line_breaks];
    [constructor|].
  destruct (N.eqb_spec c CR) as [->|Hcr].
  - apply Forall_app; split; [apply escaped_newline_no_break | apply IH].
  - destruct (N.eqb_spec c LF) as [->|Hlf].
    + apply Forall_app; split; [|apply IH].
      destruct b; [constructor | apply escaped_newline_no_break].
    + constructor; [done | apply IH].
Qed.

Lemma lstrip_suffix (s : list N) :
  exists pre, s = pre ++ lstrip s.
Proof.
  induction s as [|c s [pre IH]]; [by exists []|]. simpl.
  destruct (isspace c).
  - exists (c :: pre). simpl. by rewrite <- IH.
  - by exists [].
Qed.

Lemma lstrip_head (s : list N) (c : N) (t : list N) :
  lstrip s = c :: t -> isspace c = false.
Proof.
  induction s as [|x s IH]; simpl; [done|].
  destruct (isspace x) eqn:Hx; [done|].
  intros [= <- _]. done.
Qed.

Lemma rstrip_prefix (s : list N) :
  exists post, s = rstrip s ++ post.
Proof.
  unfold rstrip. destruct (lstrip_suffix (rev s)) as [pre H].
  exists (rev pre). rewrite <- rev_app_distr, <- H. by rewrite rev_involutive.
Qed.

Lemma strip_Forall (P : N -> Prop) (s : list N) :
  Forall P s -> Forall P (strip s).
Proof.
  intros H. unfold strip.
  destruct (lstrip_suffix s) as [pre Hs].
  destruct (rstrip_prefix (lstrip s)) as [post Hr].
  rewrite Hs, Hr in H.
  apply Forall_app in H as [_ H]. by apply Forall_app in H as [H _].
Qed.

Lemma strip_first (s : list N) (c : N) (t : list N) :
  strip s = c :: t -> isspace c = false.
Proof.
  unfold strip. intros H.
  destruct (rstrip_prefix (lstrip s)) as [post Hr].
  rewrite H in Hr. simpl in Hr. by apply lstrip_head in Hr.
Qed.

Lemma strip_last (s : list N) (c : N) (t : list N) :
  strip s = t ++ [c] -> isspace c = false.
Proof.
  unfold strip, rstrip. intros H.
  apply (f_equal (@rev N)) in H.
  rewrite rev_involutive, rev_app_distr in H. simpl in H.
  by apply lstrip_head in H.
Qed.

(** C2, as the claim states it, fails: on the example [sanitize_text] does
    not return the seven characters of a\nb\nc, because the final line feed
    is escaped before the text is stripped. *)
Lemma sanitize_example_not_seven :
  sanitize_text sanitize_example <> lit "a\nb\nc".
Proof. vm_compute. discriminate. Qed.

(** C2 (amended): [sanitize_text] is the one-pass sanitization of the
    specification (every CRLF, lone CR and lone LF becomes the escape
    backslash n, then surrounding whitespace is trimmed): its result holds
    no CR and no LF and neither starts nor ends with whitespace; on the
    example it returns the nine characters a\nb\nc\n, the escape of the
    final line feed included. *)
Theorem sanitize_text_escapes_then_trims :
  (forall text : list N,
      sanitize_text text = strip (escape_line_breaks false text)
      /\ Forall (fun c => c <> CR /\ c <> LF) (sanitize_text text)
      /\ (forall c t, sanitize_text text = c :: t -> isspace c = false)
      /\ (forall c t, sanitize_text text = t ++ [c] -> isspace c = false))
  /\ sanitize_text sanitize_example = lit "a\nb\nc\n"
  /\ length (sanitize_text sanitize_example) = 9%nat.
Proof.
  split; [|split; reflexivity].
  intros text. rewrite sanitize_text_one_pass. unfold sanitize_spec.
  split; [reflexivity|]. split; [|split].
  - apply strip_Forall, escape_line_breaks_no_break.
  - apply strip_first.
  - apply strip_last.
Qed.

(** ** The record decoder *)

Lemma align4_ge (pos : N) : pos <= align4 pos.
Proof. unfold align4. destruct (pos mod 4 =? 0); lia. Qed.

Lemma align4_aligned (pos : N) : align4 pos mod 4 = 0.
Proof.
  unfold align4. destruct (N.eqb_spec (pos mod 4) 0) as [H|H]; [done|].
  pose proof (N.mod_upper_bound pos 4 ltac:(done)).
  pose proof (N.div_mod pos 4 ltac:(done)) as Hd.
  replace (pos + (4 - pos mod 4)) with ((pos / 4 + 1) * 4) by lia.
  apply N.Div0.mod_mul.
Qed.

Lemma inner_fuel_enough (data : list byte) (pos : N) :
  enough_fuel data (inner_fuel data) pos.
Proof. unfold enough_fuel, inner_fuel, len. lia. Qed.

Lemma skip_zero_words_total (data : list byte) (fuel : nat) (pos : N) :
  enough_fuel data fuel pos ->
  exists pos', skip_zero_words fuel data pos = Some pos' /\ pos <= pos'.
Proof.
  revert pos. induction fuel as [|f IH]; intros pos [Hf Hlen]; [lia|].
  simpl. destruct (N.ltb_spec pos (len data)) as [Hlt|Hge]; simpl.
  - destruct (word_at data pos =? 0).
    + destruct (IH (pos + 4)) as (pos' & -> & Hle).
      { unfold enough_fuel. lia. }
      exists pos'. split; [done|lia].
    + exists pos. split; [done|lia].
  - exists pos. split; [done|lia].
Qed.

Lemma read_fields_total (data : list byte) (fuel : nat) (count pos : N)
    (fields : list (list N)) :
  enough_fuel data fuel pos ->
  exists pos' more,
    read_fields fuel data count pos fields = Some (pos', fields ++ more)
    /\ pos <= pos'.
Proof.
  revert count pos fields.
  induction fuel as [|f IH]; intros count pos fields [Hf Hlen]; [lia|].
  simpl. destruct (count =? 0).
  { exists pos, []. rewrite app_nil_r. split; [done|lia]. }
  destruct (N.ltb_spec (len data) (pos + 4)) as [Hlt|Hge].
  { exists pos, []. rewrite app_nil_r. split; [done|lia]. }
  set (field_len := word_at data pos).
  set (text := if 0 <? field_len then _ else _).
  pose proof (align4_ge (pos + 4 + field_len)) as Ha.
  destruct (IH (N.pred count) (align4 (pos + 4 + field_len))
              (fields ++ [sanitize_text text])) as (pos' & more & -> & Hle).
  { unfold enough_fuel. lia. }
  exists pos', (sanitize_text text :: more).
  rewrite <- app_assoc. split; [done|lia].
Qed.

Lemma read_key_len_total (data : list byte) (pos : N) :
  exists kl, read_key_len data pos = Some kl
    /\ pos + 4 <= match kl with inl p => p | inr (_, p) => p end.
Proof.
  unfold read_key_len. destruct (word_at data pos =? 0).
  - destruct (skip_zero_words_total data (inner_fuel data) (pos + 4))
      as (pos' & -> & Hle); [apply inner_fuel_enough|].
    simpl. destruct (len data <=? pos' + 4).
    + exists (inl pos'). split; [done|lia].
    + destruct (word_at data pos' =? 0); eexists; (split; [done|simpl; lia]).
  - eexists. split; [done|simpl; lia].
Qed.

Lemma read_fields_count_ge (data : list byte) (pos : N) :
  pos + 4 <= match read_fields_count data pos with
             | inl p => p
             | inr (_, p) => p
             end.
Proof.
  unfold read_fields_count. destruct (word_at data pos =? 0); [|simpl; lia].
  destruct (len data <? pos + 4 + 4); simpl; lia.
Qed.

(** One pass of the loop always ends; a pass that breaks leaves the records
    as they are, a pass that continues has moved the offset by four or more
    and has appended at most one record. *)
Lemma loop_body_total (data : list byte) (fp : option (list regex))
    (pos : N) (records : list (list N * list (list N))) :
  exists out, loop_body data fp (pos, records) = Some out
    /\ match out with
       | Break (pos', records') => pos <= pos' /\ records' = records
       | Continue (pos', records') =>
           pos + 4 <= pos'
           /\ exists more, records' = records ++ more /\ (length more <= 1)%nat
       end.
Proof.
  unfold loop_body.
  pose proof (align4_ge pos) as Ha.
  destruct (len data <? align4 pos + 4).
  { eexists. split; [done|]. simpl. done. }
  destruct (read_key_len_total data (align4 pos)) as (kl & -> & Hkl).
  cbn -[read_fields inner_fuel]. destruct kl as [p|[key_len p]].
  { eexists. split; [done|]. simpl. split; [lia|done]. }
  pose proof (align4_ge (p + key_len)) as Hb.
  destruct (len data <? align4 (p + key_len) + 4).
  { eexists. split; [done|]. simpl. split; [lia|done]. }
  pose proof (read_fields_count_ge data (align4 (p + key_len))) as Hc.
  destruct (read_fields_count data (align4 (p + key_len))) as [q|[cnt q]].
  { eexists. split; [done|]. simpl. split; [lia|done]. }
  destruct (read_fields_total data (inner_fuel data) cnt q [])
    as (q' & more & -> & Hq); [apply inner_fuel_enough|].
  simpl. eexists. split; [done|]. simpl. split.
  - destruct (q' + 4 <=? len data); lia.
  - destruct (kept fp _).
    + eexists. split; [done|]. simpl. lia.
    + exists []. rewrite app_nil_r. split; [done|]. simpl. lia.
Qed.

Lemma parse_loop_total (data : list byte) (fp : option (list regex))
    (fuel : nat) (st : N * list (list N * list (list N))) :
  enough_fuel data fuel st.1 ->
  exists st', parse_loop fuel data fp st = Some st'
    /\ st.1 <= st'.1 /\ exists more, st'.2 = st.2 ++ more.
Proof.
  revert st. induction fuel as [|f IH]; intros [pos records] [Hf Hlen]; [lia|].
  cbn [parse_loop fst snd] in *.
  destruct (N.ltb_spec pos (len data)) as [Hlt|Hge].
  - destruct (loop_body_total data fp pos records) as (out & -> & Hout).
    destruct out as [[pos' records']|[pos' records']].
    + destruct Hout as [Hle ->]. eexists. split; [done|]. simpl.
      split; [done|]. exists []. by rewrite app_nil_r.
    + destruct Hout as (Hle & more & -> & _).
      destruct (IH (pos', records ++ more)) as (st' & -> & Hle' & more' & Hm).
      { unfold enough_fuel. simpl. lia. }
      exists st'. split; [done|]. simpl in *. split; [lia|].
      exists (more ++ more'). by rewrite Hm, app_assoc.
  - eexists. split; [done|]. simpl. split; [lia|].
    exists []. by rewrite app_nil_r.
Qed.

Lemma decode_records_total (data : list byte) (fp : option (list regex)) :
  exists records, decode_records data fp = Some records.
Proof.
  unfold decode_records.
  destruct (parse_loop_total data fp (S (length data)) (60, []))
    as (st' & -> & _).
  { unfold enough_fuel, len. simpl. lia. }
  by eexists.
Qed.

(** The records only grow along the loop, for any fuel. *)
Lemma parse_loop_grows (data : list byte) (fp : option (list regex))
    (fuel : nat) (st st' : N * list (list N * list (list N))) :
  parse_loop fuel data fp st = Some st' ->
  st.1 <= st'.1 /\ exists more, st'.2 = st.2 ++ more.
Proof.
  revert st. induction fuel as [|f IH]; intros [pos records]; [done|].
  cbn [parse_loop fst snd]. destruct (pos <? len data).
  - destruct (loop_body_total data fp pos records) as (out & -> & Hout).
    destruct out as [[pos' records']|[pos' records']].
    + destruct Hout as [Hle ->]. intros [= <-]. simpl.
      split; [done|]. exists []. by rewrite app_nil_r.
    + destruct Hout as (Hle & more & -> & _). intros H.
      apply IH in H as [Hle' [more' Hm]]. simpl in *. split; [lia|].
      exists (more ++ more'). by rewrite Hm, app_assoc.
  - intros [= <-]. simpl. split; [lia|]. exists []. by rewrite app_nil_r.
Qed.

Lemma insert_by_key_perm (r : list N * list (list N))
    (l : list (list N * list (list N))) :
  insert_by_key r l ≡ₚ r :: l.
Proof.
  induction l as [|r' l IH]; simpl; [done|].
  destruct (str_leb r.1 r'.1); [done|].
  rewrite IH. apply Permutation_swap.
Qed.

Lemma sort_by_key_perm (l : list (list N * list (list N))) :
  sort_by_key l ≡ₚ l.
Proof.
  induction l as [|r l IH]; simpl; [done|].
  by rewrite insert_by_key_perm, IH.
Qed.

Example decode_two_records :
  parse_i2_asset_file (Some two_records) None
  = Returned ([(lit "bar", [lit "C"]); (lit "foo", [lit "A"; lit "B"])], LANGUAGES).
Proof. vm_compute. reflexivity. Qed.

(** A buffer cut inside the second record: the first record is returned. *)
Example decode_truncated :
  parse_i2_asset_file (Some (take 100 two_records)) None
  = Returned ([(lit "foo", [lit "A"; lit "B"])], LANGUAGES).
Proof. vm_compute. reflexivity. Qed.

Example decode_all_zero :
  parse_i2_asset_file (Some (zeros 200)) None = Returned ([], LANGUAGES).
Proof. vm_compute. reflexivity. Qed.

Example decode_all_ones :
  parse_i2_asset_file (Some (repeat xff 200)) None = Returned ([], LANGUAGES).
Proof. vm_compute. reflexivity. Qed.

(** C4: for every buffer the decoder returns (it neither raises nor runs out
    of fuel), and what it returns is the sorted list of the records that the
    loop had appended when it stopped; every step leaves the offset where it
    is or moves it forward (the alignment, the padding loop, the reading of
    the key length and of the field count, the field loop, a whole pass,
    which moves it by four or more when the loop goes on); a
    pass that breaks keeps the records parsed so far, and along the loop
    records are only appended. *)
Theorem decoder_terminates (data : list byte) (fp : option (list regex)) :
  (exists records,
      decode_records data fp = Some records
      /\ parse_i2_asset_file (Some data) fp
         = Returned (sort_by_key records, LANGUAGES)
      /\ sort_by_key records ≡ₚ records)
  /\ (forall pos, pos <= align4 pos)
  /\ (forall pos,
        exists pos',
          skip_zero_words (inner_fuel data) data pos = Some pos' /\ pos <= pos')
  /\ (forall pos,
        exists kl,
          read_key_len data pos = Some kl
          /\ pos + 4 <= match kl with inl p => p | inr (_, p) => p end)
  /\ (forall pos,
        pos + 4 <= match read_fields_count data pos with
                   | inl p => p
                   | inr (_, p) => p
                   end)
  /\ (forall count pos fields,
        exists pos' more,
          read_fields (inner_fuel data) data count pos fields
          = Some (pos', fields ++ more)
          /\ pos <= pos')
  /\ (forall pos records,
        exists out,
          loop_body data fp (pos, records) = Some out
          /\ match out with
             | Break (pos', records') => pos <= pos' /\ records' = records
             | Continue (pos', records') =>
                 pos + 4 <= pos'
                 /\ exists more,
                     records' = records ++ more /\ (length more <= 1)%nat
             end)
  /\ (forall fuel st st',
        parse_loop fuel data fp st = Some st' ->
        st.1 <= st'.1 /\ exists more, st'.2 = st.2 ++ more).
Proof.
  split; [|split; [|split; [|split; [|split; [|split; [|split]]]]]].
  - destruct (decode_records_total data fp) as [records H].
    exists records. split; [done|]. split; [|apply sort_by_key_perm].
    unfold parse_i2_asset_file. by rewrite H.
  - apply align4_ge.
  - intros pos. apply skip_zero_words_total, inner_fuel_enough.
  - apply read_key_len_total.
  - apply read_fields_count_ge.
  - intros count pos fields. apply read_fields_total, inner_fuel_enough.
  - intros pos records. apply loop_body_total.
  - intros fuel st st'. apply parse_loop_grows.
Qed.

(** C5, as the claim states it, fails: the empty buffer is decoded to the
    empty list of records, no exception is raised. *)
Lemma empty_buffer_is_not_an_error :
  parse_i2_asset_file (Some []) None = Returned ([], LANGUAGES)
  /\ ~ exists e, parse_i2_asset_file (Some []) None = Raised e.
Proof. split; [reflexivity|]. intros [e H]. discriminate H. Qed.

(** C5 (amended): the decoder surfaces no buffer as a failure.  Every
    buffer that is read, the empty one included, gives a list of records,
    which may be partial or empty; the empty buffer gives the empty list.
    The decoder fails before it decodes, and only there: with
    FileNotFoundError when the path does not exist, and with the error of
    looking up or reading the file when that fails.  So it returns exactly
    when the path exists and the read returns. *)
Theorem decoder_fails_only_before_decoding (file_path : path)
    (fp : option (list regex)) :
  (path_exists file_path = inr false ->
   parse_i2_asset_file_at file_path fp = Raised FileNotFoundError)
  /\ (forall e,
        path_exists file_path = inl e
        \/ (path_exists file_path = inr true /\ read_bytes file_path = inl e) ->
        parse_i2_asset_file_at file_path fp = Raised e)
  /\ (forall data,
        path_exists file_path = inr true -> read_bytes file_path = inr data ->
        exists records,
          decode_records data fp = Some records
          /\ parse_i2_asset_file_at file_path fp
             = Returned (sort_by_key records, LANGUAGES))
  /\ ((exists r, parse_i2_asset_file_at file_path fp = Returned r)
      <-> path_exists file_path = inr true
          /\ exists data, read_bytes file_path = inr data)
  /\ (forall data,
        exists records,
          parse_i2_asset_file (Some data) fp
          = Returned (sort_by_key records, LANGUAGES))
  /\ parse_i2_asset_file (Some []) fp = Returned ([], LANGUAGES).
Proof.
  assert (forall data,
             exists records,
               decode_records data fp = Some records
               /\ parse_i2_asset_file (Some data) fp
                  = Returned (sort_by_key records, LANGUAGES)) as Hreturns.
  { intros data. destruct (decode_records_total data fp) as [records H].
    exists records. split; [done|]. unfold parse_i2_asset_file. by rewrite H. }
  unfold parse_i2_asset_file_at.
  split; [|split; [|split; [|split; [|split]]]].
  - by intros ->.
  - intros e [-> | [-> ->]]; reflexivity.
  - intros data -> ->. apply Hreturns.
  - destruct (path_exists file_path) as [e|[|]].
    + split; [by intros [r H]|by intros [H _]].
    + destruct (read_bytes file_path) as [e|data].
      * split; [by intros [r H]|by intros [_ [data H]]].
      * split; [intros _; split; [done|by exists data]|].
        intros _. destruct (Hreturns data) as (records & _ & ->).
        by eexists.
    + split; [by intros [r H]|by intros [H _]].
  - intros data. destruct (Hreturns data) as (records & _ & H).
    by exists records.
  - reflexivity.
Qed.

Lemma utf8_ignore_total (st : utf8_state) (b : list byte) :
  is_Some (utf8_run Ignore st b).
Proof.
  revert st. induction b as [|x b IH]; intros st.
  - destruct st; simpl; eauto.
  - cbn [utf8_run].
    assert (is_Some
              match classify_lead (Byte.to_N x) with
              | LeadAscii c => cons c <$> utf8_run Ignore Start b
              | LeadMulti more acc lo hi => utf8_run Ignore (Need more acc lo hi) b
              | LeadInvalid => utf8_run Ignore Start b
              end) as Hstart.
    { destruct (classify_lead (Byte.to_N x)); [|apply IH..].
      destruct (IH Start) as [t ->]. by eexists. }
    destruct st as [|more acc lo hi]; [done|].
    destruct ((lo <=? Byte.to_N x) && (Byte.to_N x <=? hi)); [|done].
    destruct more as [|[|m]]; [| |apply IH];
      destruct (IH Start) as [t ->]; by eexists.
Qed.

(** C6: the key decoder never reaches its Latin-1 handler, because the
    UTF-8 decoding that it tries first drops ill-formed bytes and cannot
    fail.  On the key byte E9 the decoder answers the empty key, where the
    Latin-1 decoding of the claim gives the one-character key U+00E9, as
    the field decoder does on the same byte. *)
Theorem key_decoder_skips_latin1 :
  (forall key_bytes,
      exists t, utf8_decode Ignore key_bytes = Some t
                /\ decode_key key_bytes = strip t)
  /\ decode_key [xe9] = []
  /\ strip (latin1_decode [xe9]) = [233]
  /\ decode_field [xe9] = [233]
  /\ parse_i2_asset_file (Some latin1_key_buffer) None
     = Returned ([([], [lit "A"])], LANGUAGES).
Proof.
  split; [|repeat split; vm_compute; reflexivity].
  intros key_bytes. unfold decode_key.
  destruct (utf8_ignore_total Start key_bytes) as [t Ht].
  exists t. unfold utf8_decode. by rewrite Ht.
Qed.

(** *** Exclusion *)

(** A pass with exclusion patterns reads the buffer exactly as a pass
    without them; it differs only in the records that it appends. *)
Lemma loop_body_filter (data : list byte) (fp : option (list regex))
    (pos : N) (records : list (list N * list (list N))) :
  loop_body data fp (pos, List.filter (keeps fp) records)
  = filter_step fp <$> loop_body data None (pos, records).
Proof.
  unfold loop_body.
  destruct (len data <? align4 pos + 4); [done|].
  destruct (read_key_len data (align4 pos)) as [[p|[key_len p]]|];
    cbn -[read_fields inner_fuel]; [done| |done].
  destruct (len data <? align4 (p + key_len) + 4); [done|].
  destruct (read_fields_count data (align4 (p + key_len))) as [q|[cnt q]];
    [done|].
  destruct (read_fields (inner_fuel data) data cnt q []) as [[q' fields]|];
    cbn -[read_fields inner_fuel]; [|done].
  unfold filter_state. cbn [fst snd]. do 3 f_equal.
  rewrite List.filter_app. cbn [List.filter]. unfold keeps. cbn [fst].
  destruct (kept fp _); [done|by rewrite app_nil_r].
Qed.

Lemma parse_loop_filter (data : list byte) (fp : option (list regex))
    (fuel : nat) (pos : N) (records : list (list N * list (list N))) :
  parse_loop fuel data fp (pos, List.filter (keeps fp) records)
  = filter_state fp <$> parse_loop fuel data None (pos, records).
Proof.
  revert pos records. induction fuel as [|f IH]; intros pos records; [done|].
  cbn [parse_loop fst]. destruct (pos <? len data); [|done].
  rewrite loop_body_filter.
  destruct (loop_body data None (pos, records)) as [[st|[pos' records']]|];
    [done| |done].
  cbn [fmap option_fmap option_map filter_step filter_state fst snd].
  apply IH.
Qed.

Lemma decode_records_filter (data : list byte) (fp : option (list regex)) :
  decode_records data fp
  = List.filter (keeps fp) <$> decode_records data None.
Proof.
  unfold decode_records.
  change (@nil (list N * list (list N))) with (List.filter (keeps fp) []) at 1.
  rewrite parse_loop_filter.
  by destruct (parse_loop _ data None _).
Qed.

Lemma kept_false_iff (fp : option (list regex)) (key : list N) :
  kept fp key = false
  <-> exists ps p, fp = Some ps /\ p ∈ ps /\ is_Some (re_match p key).
Proof.
  unfold kept, any_match. split.
  - intros H. apply orb_false_iff in H as [Ht Hany].
    apply negb_false_iff in Ht, Hany.
    destruct fp as [ps|]; [|done]. simpl in Hany.
    apply existsb_exists in Hany as (p & Hin & Hp).
    exists ps, p. split; [done|]. split; [by apply list_elem_of_In|].
    by apply bool_decide_eq_true in Hp.
  - intros (ps & p & -> & Hin & Hp). simpl.
    assert (existsb (fun p => bool_decide (is_Some (re_match p key))) ps = true)
      as ->.
    { apply existsb_exists. exists p. split; [by apply list_elem_of_In|].
      by apply bool_decide_eq_true. }
    destruct ps; [by apply elem_of_nil in Hin|done].
Qed.

(** C3, as the claim states it, fails: the pattern foo matches only the
    proper prefix foo of the key foobar, not the whole key, and yet the
    record is dropped. *)
Lemma prefix_match_excludes :
  is_Some (re_match (Lit (lit "foo")) (lit "foobar"))
  /\ re_fullmatch (Lit (lit "foo")) (lit "foobar") = None
  /\ parse_i2_asset_file (Some prefix_buffer) None
     = Returned ([(lit "foobar", [lit "A"]); (lit "zed", [lit "B"])], LANGUAGES)
  /\ parse_i2_asset_file (Some prefix_buffer) (Some [Lit (lit "foo")])
     = Returned ([(lit "zed", [lit "B"])], LANGUAGES).
Proof. repeat split; vm_compute; eauto. Qed.

(** C3 (amended): decoding with exclusion patterns gives the records of the
    decoding without patterns, in the same order, less those whose key some
    pattern matches at its start ([re.match]: the match may end before the
    end of the key), so the records behind an excluded one are still
    decoded; a record is dropped exactly when a pattern of the set matches
    a prefix of its key, which includes a pattern that matches only a
    proper prefix. *)
Theorem exclusion_drops_prefix_matches (data : list byte)
    (fp : option (list regex)) :
  (exists every,
      decode_records data None = Some every
      /\ decode_records data fp = Some (List.filter (keeps fp) every)
      /\ parse_i2_asset_file (Some data) fp
         = Returned (sort_by_key (List.filter (keeps fp) every), LANGUAGES)
      /\ forall r,
          r ∈ sort_by_key (List.filter (keeps fp) every)
          <-> r ∈ every
              /\ ~ exists ps p, fp = Some ps /\ p ∈ ps /\ is_Some (re_match p r.1))
  /\ parse_i2_asset_file (Some prefix_buffer) (Some [Lit (lit "foo")])
     = Returned ([(lit "zed", [lit "B"])], LANGUAGES).
Proof.
  split; [|vm_compute; reflexivity].
  destruct (decode_records_total data None) as [every Hall].
  exists every. split; [done|].
  assert (decode_records data fp = Some (List.filter (keeps fp) every)) as Hfp.
  { by rewrite decode_records_filter, Hall. }
  split; [done|]. split.
  { unfold parse_i2_asset_file. by rewrite Hfp. }
  intros r. rewrite sort_by_key_perm.
  rewrite list_elem_of_In, filter_In, <- list_elem_of_In.
  unfold keeps. rewrite <- kept_false_iff.
  by destruct (kept fp r.1); split; intros [? ?].
Qed.

(** ** The alias resolver *)

Section Resolver.
Variable raw : gmap (list N) (list N).

Lemma alias_of_empty : alias_of [] = None.
Proof. reflexivity. Qed.

Lemma link_in_dom (k k' : list N) : link raw k k' -> k ∈ dom raw.
Proof.
  unfold link, alias_ref, raw_get. intros H. apply elem_of_dom.
  destruct (raw !! k); [done|]. simpl in H. by rewrite alias_of_empty in H.
Qed.

Lemma link_functional (k a b : list N) : link raw k a -> link raw k b -> a = b.
Proof. unfold link. congruence. Qed.

Lemma chase_link (n : nat) (k k' : list N) :
  link raw k k' -> chase raw (S n) k = chase raw n k'.
Proof. unfold link, alias_ref. simpl. by intros ->. Qed.

Lemma chase_end (n : nat) (k : list N) :
  alias_ref raw k = None -> chase raw (S n) k = Some (raw_get raw k).
Proof. unfold alias_ref. simpl. by intros ->. Qed.

Lemma chase_mono (n n' : nat) (k v : list N) :
  chase raw n k = Some v -> (n <= n')%nat -> chase raw n' k = Some v.
Proof.
  revert n' k. induction n as [|n IH]; intros n' k H Hle; [done|].
  destruct n' as [|n']; [lia|]. simpl in *.
  destruct (alias_of (raw_get raw k)); [|done].
  apply IH; [done|lia].
Qed.

Lemma ends_at_functional (k v v' : list N) :
  ends_at raw k v -> ends_at raw k v' -> v = v'.
Proof.
  intros [n Hn] [n' Hn'].
  apply (chase_mono _ (n `max` n')%nat) in Hn; [|lia].
  apply (chase_mono _ (n `max` n')%nat) in Hn'; [|lia].
  congruence.
Qed.

Lemma ends_at_link (k k' v : list N) :
  link raw k k' -> ends_at raw k v <-> ends_at raw k' v.
Proof.
  intros Hl. split; intros [n Hn].
  - destruct n as [|n]; [done|]. exists n. by rewrite <- (chase_link _ _ _ Hl).
  - exists (S n). by rewrite (chase_link _ _ _ Hl).
Qed.

Lemma ends_at_rtc (k k' v : list N) :
  rtc (link raw) k k' -> ends_at raw k v <-> ends_at raw k' v.
Proof.
  induction 1 as [|a b c Hab _ IH]; [done|].
  by rewrite (ends_at_link _ _ _ Hab).
Qed.

Lemma chase_along (k d v : list N) (n : nat) :
  tc (link raw) k d -> chase raw n k = Some v ->
  exists n', (n' < n)%nat /\ chase raw n' d = Some v.
Proof.
  intros Htc. revert n. induction Htc as [a b Hab|a b c Hab _ IH]; intros n H.
  - destruct n as [|n]; [done|]. exists n. split; [lia|].
    by rewrite <- (chase_link _ _ _ Hab).
  - destruct n as [|n]; [done|]. rewrite (chase_link _ _ _ Hab) in H.
    destruct (IH _ H) as (n' & Hlt & Hn'). exists n'. split; [lia|done].
Qed.

Lemma cycle_never_ends (c v : list N) :
  tc (link raw) c c -> ~ ends_at raw c v.
Proof.
  intros Htc [n Hn]. revert Hn.
  induction (lt_wf n) as [n _ IH]. intros Hn.
  destruct (chase_along _ _ _ _ Htc Hn) as (n' & Hlt & Hn').
  by apply (IH n').
Qed.

Lemma runs_into_never_ends (k c v : list N) :
  runs_into raw k c -> ~ ends_at raw k v.
Proof.
  intros [Hrtc Htc] H. apply (ends_at_rtc _ _ _ Hrtc) in H.
  by apply (cycle_never_ends _ _ Htc) in H.
Qed.

(** An id whose chain ends can only be settled with the end of its
    chain. *)
Lemma settled_ends (k v v' : list N) :
  ends_at raw k v -> settled raw k v' -> v' = v.
Proof.
  intros He [He'|(c & Hc & _)].
  - by apply (ends_at_functional k).
  - by apply (runs_into_never_ends _ _ v) in Hc.
Qed.

Lemma settled_link (k k' v : list N) :
  link raw k k' -> settled raw k' v -> settled raw k v.
Proof.
  intros Hl [He|(c & [Hrtc Htc] & ->)].
  - left. by apply (ends_at_link _ _ _ Hl).
  - right. exists c. split; [|done]. split; [|done]. by eapply rtc_l.
Qed.
End Resolver.

(** The nested calls that a call needs are bounded by the ids of the raw
    map that are not yet on the chain. *)
Lemma resolve_total (raw : gmap (list N) (list N)) (fuel : nat) (m : gmap (list N) (list N))
    (visited : gset (list N)) (key : list N) :
  (size (dom raw ∖ visited) < fuel)%nat ->
  is_Some (resolve fuel raw m visited key).
Proof.
  revert m visited key.
  induction fuel as [|f IH]; intros m visited key Hf; [lia|].
  cbn [resolve]. destruct (m !! key); [by eexists|].
  destruct (decide (key ∈ visited)); [by eexists|].
  destruct (alias_of (raw_get raw key)) as [ref|] eqn:Href; [|by eexists].
  assert (key ∈ dom raw) as Hdom by (by eapply link_in_dom).
  destruct (IH m ({[key]} ∪ visited) ref) as [[m1 r1] ->]; [|by eexists].
  assert (dom raw ∖ visited = {[key]} ∪ dom raw ∖ ({[key]} ∪ visited)) as Heq.
  { apply set_eq. intros k. set_unfold.
    destruct (decide (k = key)); naive_solver. }
  rewrite Heq, size_union, size_singleton in Hf; [lia|set_solver].
Qed.

(** What one call of [resolve] does to the resolved map. *)
Lemma resolve_sound (raw : gmap (list N) (list N)) (fuel : nat) :
  forall (m : gmap (list N) (list N)) (visited : gset (list N))
         (key : list N) (m' : gmap (list N) (list N)) (r : list N),
    resolve fuel raw m visited key = Some (m', r) ->
    sound raw m ->
    (forall u, u ∈ visited -> tc (link raw) u key) ->
    sound raw m'
    /\ settled raw key r
    /\ m ⊆ m'
    /\ (key ∈ dom m' \/ key ∈ visited)
    /\ (forall k, k ∈ dom m' -> k ∈ dom m \/ rtc (link raw) key k)
    /\ (closed raw m visited -> closed raw m' visited).
Proof.
  induction fuel as [|f IH]; intros m visited key m' r Hres Hsound Hvis;
    [done|].
  cbn [resolve] in Hres. destruct (m !! key) as [v|] eqn:Hm.
  { injection Hres as <- <-. repeat split; try done.
    - by apply (Hsound key).
    - left. apply elem_of_dom. by eexists.
    - by left. }
  destruct (decide (key ∈ visited)) as [Hin|Hnin].
  { injection Hres as <- <-. repeat split; try done.
    - right. exists key. split; [|done]. split; [done|by apply Hvis].
    - by right.
    - by left. }
  destruct (alias_of (raw_get raw key)) as [ref|] eqn:Href.
  - destruct (resolve f raw m ({[key]} ∪ visited) ref) as [[m1 r1]|] eqn:Hrec;
      [|done].
    cbn in Hres. injection Hres as <- <-.
    assert (link raw key ref) as Hlink by done.
    destruct (IH _ _ _ _ _ Hrec Hsound)
      as (Hsound1 & Hset & Hsub & Hin1 & Hdom1 & Hclosed1).
    { intros u Hu. apply elem_of_union in Hu as [Hu|Hu].
      - apply elem_of_singleton in Hu as ->. by apply tc_once.
      - eapply tc_r; [by apply Hvis|done]. }
    assert (settled raw key r1) as Hkey by (by eapply settled_link).
    repeat split.
    + intros k v. rewrite lookup_insert. case_decide as Hk.
      * intros [= <-]. by subst.
      * apply Hsound1.
    + done.
    + by apply insert_subseteq_r.
    + left. rewrite dom_insert_L. set_solver.
    + intros k. rewrite dom_insert_L, elem_of_union, elem_of_singleton.
      intros [->|Hk]; [by right|].
      destruct (Hdom1 k Hk) as [?|Hr]; [by left|].
      right. by eapply rtc_l.
    + intros Hclosed k ref'. rewrite dom_insert_L.
      rewrite !elem_of_union, !elem_of_singleton. intros Hk Hl.
      assert (closed raw m ({[key]} ∪ visited)) as Hc.
      { intros k0 ref0 Hk0 Hl0.
        destruct (Hclosed k0 ref0 Hk0 Hl0); [by left|right; set_solver]. }
      specialize (Hclosed1 Hc).
      assert (ref' ∈ dom m1 \/ ref' ∈ {[key]} ∪ visited) as Href'.
      { destruct Hk as [->|Hk].
        - rewrite (link_functional raw _ _ _ Hl Hlink). done.
        - by apply (Hclosed1 k). }
      set_solver.
  - injection Hres as <- <-.
    assert (alias_ref raw key = None) as Hnone by done.
    repeat split.
    + intros k v. rewrite lookup_insert. case_decide as Hk.
      * intros [= <-]. subst. left. exists 1%nat. by apply chase_end.
      * apply Hsound.
    + left. exists 1%nat. by apply chase_end.
    + by apply insert_subseteq.
    + left. rewrite dom_insert_L. set_solver.
    + intros k. rewrite dom_insert_L, elem_of_union, elem_of_singleton.
      intros [->|Hk]; [by right|by left].
    + intros Hclosed k ref'. rewrite dom_insert_L.
      rewrite !elem_of_union, !elem_of_singleton. intros [->|Hk] Hl.
      * unfold link in Hl. congruence.
      * destruct (Hclosed k ref' Hk Hl); [left; by right|by right].
Qed.

Lemma resolve_keys_total (raw : gmap (list N) (list N)) (fuel : nat)
    (ks : list (list N)) (m : gmap (list N) (list N)) :
  (size raw < fuel)%nat -> is_Some (resolve_keys fuel raw m ks).
Proof.
  intros Hf. revert m. induction ks as [|k ks IH]; intros m; [by eexists|].
  cbn [resolve_keys].
  destruct (resolve_total raw fuel m ∅ k) as [[m1 r1] ->].
  { rewrite difference_empty_L, size_dom. done. }
  apply IH.
Qed.

Lemma resolve_keys_sound (raw : gmap (list N) (list N)) (fuel : nat)
    (ks : list (list N)) :
  forall m m' : gmap (list N) (list N),
    resolve_keys fuel raw m ks = Some m' ->
    sound raw m -> closed raw m ∅ ->
    sound raw m' /\ closed raw m' ∅ /\ m ⊆ m'
    /\ (forall k, k ∈ ks -> k ∈ dom m')
    /\ (forall k, k ∈ dom m' ->
          k ∈ dom m \/ exists k0, k0 ∈ ks /\ rtc (link raw) k0 k).
Proof.
  induction ks as [|k ks IH]; intros m m' Hres Hsound Hclosed.
  { injection Hres as <-. repeat split; try done.
    - intros k Hk. by apply elem_of_nil in Hk.
    - intros k Hk. by left. }
  cbn [resolve_keys] in Hres.
  destruct (resolve fuel raw m ∅ k) as [[m1 r1]|] eqn:Hk; [|done].
  cbn in Hres.
  destruct (resolve_sound raw fuel _ _ _ _ _ Hk Hsound)
    as (Hsound1 & _ & Hsub1 & Hin1 & Hdom1 & Hclosed1).
  { intros u Hu. by apply not_elem_of_empty in Hu. }
  destruct (IH _ _ Hres Hsound1 (Hclosed1 Hclosed))
    as (Hsound' & Hclosed' & Hsub' & Hin' & Hdom').
  repeat split; try done.
  - by transitivity m1.
  - intros k' Hk'. apply elem_of_cons in Hk' as [->|Hk']; [|by apply Hin'].
    destruct Hin1 as [Hin1|Hin1]; [|by apply not_elem_of_empty in Hin1].
    by apply (subseteq_dom _ _ Hsub').
  - intros k' Hk'. destruct (Hdom' k' Hk') as [H1|(k0 & Hk0 & Hr)].
    + destruct (Hdom1 k' H1) as [?|Hr]; [by left|].
      right. exists k. split; [apply elem_of_cons; by left|done].
    + right. exists k0. split; [apply elem_of_cons; by right|done].
Qed.

(** The pass returns when the interpreter has room for more nested calls
    than the raw map has ids. *)
Lemma resolve_all_returns (limit : nat) (raw : gmap (list N) (list N))
    (ks : list (list N)) :
  (size raw < limit)%nat -> is_Some (resolve_all limit raw ks).
Proof. apply resolve_keys_total. Qed.

(** What the pass returns is described by the chains of the raw map
    alone: an id is resolved exactly when the chain of a visited id reaches
    it, and every value is settled. *)
Lemma resolve_all_spec (limit : nat) (raw : gmap (list N) (list N))
    (ks : list (list N)) (resolved : gmap (list N) (list N)) :
  resolve_all limit raw ks = Some resolved ->
  sound raw resolved
  /\ forall k, k ∈ dom resolved <-> exists k0, k0 ∈ ks /\ rtc (link raw) k0 k.
Proof.
  unfold resolve_all. intros H.
  destruct (resolve_keys_sound raw _ _ _ _ H)
    as (Hsound & Hclosed & _ & Hin & Hdom).
  { intros k v Hk. by rewrite lookup_empty in Hk. }
  { intros k ref Hk. rewrite dom_empty_L in Hk.
    by apply not_elem_of_empty in Hk. }
  split; [done|]. intros k. split.
  - intros Hk. destruct (Hdom k Hk) as [Hk'|?]; [|done].
    rewrite dom_empty_L in Hk'. by apply not_elem_of_empty in Hk'.
  - intros (k0 & Hk0 & Hr). apply Hin in Hk0.
    induction Hr as [|a b c Hab _ IH]; [done|].
    apply IH. destruct (Hclosed a b Hk0 Hab) as [?|Hb]; [done|].
    by apply not_elem_of_empty in Hb.
Qed.

Lemma resolved_value (raw resolved : gmap (list N) (list N)) (k v : list N) :
  sound raw resolved -> k ∈ dom resolved -> ends_at raw k v ->
  resolved !! k = Some v.
Proof.
  intros Hsound Hk He. apply elem_of_dom in Hk as [v' Hv'].
  rewrite Hv'. f_equal. apply (settled_ends raw k); [done|].
  by apply Hsound.
Qed.

Lemma cyclic_raw_keys :
  [lit "x"; lit "y"] ≡ₚ elements (dom cyclic_raw)
  /\ [lit "y"; lit "x"] ≡ₚ elements (dom cyclic_raw).
Proof.
  assert ([lit "x"; lit "y"] ≡ₚ elements (dom cyclic_raw)) as H.
  { unfold cyclic_raw. rewrite !dom_insert_L, dom_empty_L, union_empty_r_L.
    rewrite elements_union_singleton by (by vm_compute; set_solver).
    by rewrite elements_singleton. }
  split; [done|]. rewrite <- H. apply Permutation_swap.
Qed.

(** C1, as the claim states it, fails: on the cyclic map of x and y the
    two orders give different resolved maps, each with the sentinel of the
    id that was visited first. *)
Lemma cyclic_resolution_depends_on_order :
  [lit "x"; lit "y"] ≡ₚ elements (dom cyclic_raw)
  /\ [lit "y"; lit "x"] ≡ₚ elements (dom cyclic_raw)
  /\ (resolve_all 3 cyclic_raw [lit "x"; lit "y"]) ≫= (fun m => m !! lit "x")
     = Some (lit "[Cyclic alias: x]")
  /\ (resolve_all 3 cyclic_raw [lit "y"; lit "x"]) ≫= (fun m => m !! lit "x")
     = Some (lit "[Cyclic alias: y]")
  /\ resolve_all 3 cyclic_raw [lit "x"; lit "y"]
     <> resolve_all 3 cyclic_raw [lit "y"; lit "x"].
Proof.
  split; [apply cyclic_raw_keys|]. split; [apply cyclic_raw_keys|].
  assert ((resolve_all 3 cyclic_raw [lit "x"; lit "y"]) ≫= (fun m => m !! lit "x")
          = Some (lit "[Cyclic alias: x]")) as H1 by (vm_compute; reflexivity).
  assert ((resolve_all 3 cyclic_raw [lit "y"; lit "x"]) ≫= (fun m => m !! lit "x")
          = Some (lit "[Cyclic alias: y]")) as H2 by (vm_compute; reflexivity).
  repeat split; [done..|].
  intros H. rewrite H, H2 in H1. discriminate H1.
Qed.

Lemma visited_keys (raw : gmap (list N) (list N)) (ks : list (list N)) (k : list N) :
  ks ≡ₚ elements (dom raw) -> k ∈ ks <-> k ∈ dom raw.
Proof. intros ->. apply elem_of_elements. Qed.

(** C1 (amended): for any two orders in which the ids of a raw map are
    visited.  The eager pass returns in both orders when the interpreter
    has room for more nested calls than the raw map has ids.  Whenever it
    returns in both orders, the two resolved maps have the same ids and
    give the same value to every id whose alias chain ends; when the chain
    of every id of the raw map ends (no cyclic alias chain) the two
    resolved maps are equal.  An id whose chain does not end has, in each
    of the two maps, the sentinel that names an id of the cycle into which
    its chain runs; the two maps need not name the same id. *)
Theorem resolution_order_independent (limit : nat)
    (raw : gmap (list N) (list N)) (ks1 ks2 : list (list N)) :
  ks1 ≡ₚ elements (dom raw) ->
  ks2 ≡ₚ elements (dom raw) ->
  ((size raw < limit)%nat ->
   is_Some (resolve_all limit raw ks1) /\ is_Some (resolve_all limit raw ks2))
  /\ forall m1 m2,
      resolve_all limit raw ks1 = Some m1 ->
      resolve_all limit raw ks2 = Some m2 ->
      dom m1 = dom m2
      /\ (forall k v, ends_at raw k v -> m1 !! k = m2 !! k)
      /\ ((forall k, k ∈ dom raw -> exists v, ends_at raw k v) -> m1 = m2)
      /\ (forall k,
            k ∈ dom m1 -> (forall v, ~ ends_at raw k v) ->
            exists c1 c2,
              runs_into raw k c1 /\ runs_into raw k c2
              /\ m1 !! k = Some (cyclic_alias c1)
              /\ m2 !! k = Some (cyclic_alias c2)).
Proof.
  intros H1 H2. split.
  { intros Hlimit. split; by apply resolve_all_returns. }
  intros m1 m2 Hm1 Hm2.
  destruct (resolve_all_spec limit raw ks1 m1 Hm1) as (Hs1 & Hd1).
  destruct (resolve_all_spec limit raw ks2 m2 Hm2) as (Hs2 & Hd2).
  assert (forall k, k ∈ dom m1 <-> k ∈ dom m2) as Hdom.
  { intros k. rewrite Hd1, Hd2. split; intros (k0 & Hk0 & Hr); exists k0.
    - split; [|done]. by rewrite (visited_keys raw), <- (visited_keys raw ks1).
    - split; [|done]. by rewrite (visited_keys raw), <- (visited_keys raw ks2). }
  assert (forall k v, ends_at raw k v -> m1 !! k = m2 !! k) as Hagree.
  { intros k v He. destruct (decide (k ∈ dom m1)) as [Hk|Hk].
    - rewrite (resolved_value raw m1 k v), (resolved_value raw m2 k v);
        try done. by apply Hdom.
    - assert (k ∉ dom m2) as Hk2 by (by rewrite <- Hdom).
      apply not_elem_of_dom in Hk, Hk2. by rewrite Hk, Hk2. }
  split; [by apply set_eq|]. split; [done|]. split.
  - intros Hends. apply map_eq. intros k.
    destruct (decide (k ∈ dom m1)) as [Hk|Hk].
    + pose proof Hk as Hk'. apply Hd1 in Hk' as (k0 & Hk0 & Hr).
      apply (visited_keys raw ks1) in Hk0; [|done].
      destruct (Hends k0 Hk0) as [v Hv].
      apply (ends_at_rtc raw _ _ _ Hr) in Hv. by apply (Hagree k v).
    + assert (k ∉ dom m2) as Hk2 by (by rewrite <- Hdom).
      apply not_elem_of_dom in Hk, Hk2. by rewrite Hk, Hk2.
  - intros k Hk Hnever.
    pose proof (proj1 (Hdom k) Hk) as Hk2.
    apply elem_of_dom in Hk as [v1 Hv1]. apply elem_of_dom in Hk2 as [v2 Hv2].
    destruct (Hs1 k v1 Hv1) as [He|(c1 & Hc1 & ->)]; [by apply Hnever in He|].
    destruct (Hs2 k v2 Hv2) as [He|(c2 & Hc2 & ->)]; [by apply Hnever in He|].
    by exists c1, c2.
Qed.

Lemma chain_raw_keys :
  [lit "a"; lit "b"; lit "c"] ≡ₚ elements (dom chain_raw)
  /\ [lit "c"; lit "a"; lit "b"] ≡ₚ elements (dom chain_raw).
Proof.
  assert ([lit "a"; lit "b"; lit "c"] ≡ₚ elements (dom chain_raw)) as H.
  { unfold chain_raw. rewrite !dom_insert_L, dom_empty_L, union_empty_r_L.
    rewrite elements_union_singleton by (by vm_compute; set_solver).
    rewrite elements_union_singleton by (by vm_compute; set_solver).
    by rewrite elements_singleton. }
  split; [done|]. rewrite <- H.
  change ([lit "c"; lit "a"; lit "b"] ≡ₚ [lit "a"; lit "b"] ++ [lit "c"]).
  apply Permutation_cons_append.
Qed.

Lemma chain_raw_ends (k : list N) :
  k ∈ dom chain_raw -> exists v, ends_at chain_raw k v.
Proof.
  unfold chain_raw. rewrite !dom_insert_L, dom_empty_L. set_unfold.
  intros [->|[->|[->|[]]]]; exists (lit "hello");
    [exists 3%nat|exists 2%nat|exists 1%nat]; vm_compute; reflexivity.
Qed.

(** The two orders a, b, c and c, a, b of the chain, with room for four
    nested calls: one resolved map. *)
Lemma resolution_order_independent_witness :
  exists m,
    resolve_all 4 chain_raw [lit "a"; lit "b"; lit "c"] = Some m
    /\ resolve_all 4 chain_raw [lit "c"; lit "a"; lit "b"] = Some m.
Proof.
  destruct (resolution_order_independent 4 chain_raw
              [lit "a"; lit "b"; lit "c"] [lit "c"; lit "a"; lit "b"]
              (proj1 chain_raw_keys) (proj2 chain_raw_keys))
    as (Hreturns & Hsame).
  destruct Hreturns as [[m1 Hm1] [m2 Hm2]]; [vm_compute; lia|].
  destruct (Hsame m1 m2 Hm1 Hm2) as (_ & _ & Heq & _).
  exists m1. split; [exact Hm1|].
  rewrite (Heq chain_raw_ends). exact Hm2.
Defined.

Example resolve_chain :
  resolve_all 3 chain_raw [lit "a"; lit "b"; lit "c"]
  = Some (<[lit "a" := lit "hello"]>
            (<[lit "b" := lit "hello"]> (<[lit "c" := lit "hello"]> ∅))).
Proof. vm_compute. reflexivity. Qed.

Lemma alias_cycle_stays (raw : gmap (list N) (list N)) (x y a c : list N) :
  link raw x y -> link raw y x -> rtc (link raw) a c ->
  a = x \/ a = y -> c = x \/ c = y.
Proof.
  intros Hxy Hyx Hr. induction Hr as [|a b c Hab _ IH]; [done|].
  intros [-> | ->]; apply IH.
  - right. by apply (link_functional raw x).
  - left. by apply (link_functional raw y).
Qed.

Lemma on_cycle_sentinel (raw resolved : gmap (list N) (list N))
    (x y a : list N) :
  link raw x y -> link raw y x -> sound raw resolved ->
  a = x \/ a = y -> a ∈ dom resolved ->
  exists c, (c = x \/ c = y) /\ resolved !! a = Some (cyclic_alias c).
Proof.
  intros Hxy Hyx Hsound Ha Hdom.
  apply elem_of_dom in Hdom as [v Hv].
  assert (tc (link raw) a a) as Hcyc.
  { destruct Ha as [-> | ->].
    - eapply tc_l; [done|by apply tc_once].
    - eapply tc_l; [done|by apply tc_once]. }
  destruct (Hsound a v Hv) as [He|(c & [Hr _] & ->)].
  - by apply (cycle_never_ends raw a v) in He.
  - exists c. split; [|done]. by apply (alias_cycle_stays raw x y a c).
Qed.

(** C7: on a raw map in which x and y alias each other, visited in any
    order.  The eager pass returns when the interpreter has room for more
    nested calls than the raw map has ids: the cycle does not make the
    calls nest without end.  In the map that the pass returns, x and y
    have the sentinel of x or of y, and every id whose own alias chain
    ends has the end of that chain.  On the map of x and y alone three
    nested calls are enough, and both get the sentinel of x. *)
Theorem cycle_is_contained (limit : nat) (raw : gmap (list N) (list N))
    (ks : list (list N)) :
  raw !! lit "x" = Some (lit "{y}") ->
  raw !! lit "y" = Some (lit "{x}") ->
  ks ≡ₚ elements (dom raw) ->
  ((size raw < limit)%nat -> is_Some (resolve_all limit raw ks))
  /\ (forall resolved,
        resolve_all limit raw ks = Some resolved ->
        (exists c, (c = lit "x" \/ c = lit "y")
                   /\ resolved !! lit "x" = Some (cyclic_alias c))
        /\ (exists c, (c = lit "x" \/ c = lit "y")
                      /\ resolved !! lit "y" = Some (cyclic_alias c))
        /\ (forall k v, k ∈ dom raw -> ends_at raw k v -> resolved !! k = Some v))
  /\ ((3 <= limit)%nat ->
      resolve_all limit cyclic_raw [lit "x"; lit "y"]
      = Some (<[lit "x" := lit "[Cyclic alias: x]"]>
                (<[lit "y" := lit "[Cyclic alias: x]"]> ∅))).
Proof.
  intros Hx Hy Hks. split; [apply resolve_all_returns|]. split.
  2:{ intros Hlimit. destruct limit as [|[|[|limit]]]; [lia..|].
      vm_compute. reflexivity. }
  intros resolved Hres.
  destruct (resolve_all_spec limit raw ks resolved Hres) as (Hsound & Hdom).
  assert (forall k, k ∈ dom raw -> k ∈ dom resolved) as Hin.
  { intros k Hk. apply Hdom. exists k. split; [|done].
    by apply (visited_keys raw ks). }
  assert (link raw (lit "x") (lit "y")) as Hxy.
  { unfold link, alias_ref, raw_get. rewrite Hx. reflexivity. }
  assert (link raw (lit "y") (lit "x")) as Hyx.
  { unfold link, alias_ref, raw_get. rewrite Hy. reflexivity. }
  split; [|split].
  - apply (on_cycle_sentinel raw resolved (lit "x") (lit "y")); try done.
    + by left.
    + apply Hin, elem_of_dom. by eexists.
  - apply (on_cycle_sentinel raw resolved (lit "x") (lit "y")); try done.
    + by right.
    + apply Hin, elem_of_dom. by eexists.
  - intros k v Hk He. apply (resolved_value raw); [done| |done]. by apply Hin.
Qed.

(** The map of x and y alone, visited from y, with room for three nested
    calls. *)
Lemma cycle_is_contained_witness :
  exists resolved,
    resolve_all 3 cyclic_raw [lit "y"; lit "x"] = Some resolved
    /\ (exists c, (c = lit "x" \/ c = lit "y")
                  /\ resolved !! lit "x" = Some (cyclic_alias c))
    /\ (exists c, (c = lit "x" \/ c = lit "y")
                  /\ resolved !! lit "y" = Some (cyclic_alias c)).
Proof.
  destruct (cycle_is_contained 3 cyclic_raw [lit "y"; lit "x"])
    as (Hreturns & Hsentinel & _).
  - vm_compute. reflexivity.
  - vm_compute. reflexivity.
  - exact (proj2 cyclic_raw_keys).
  - destruct Hreturns as [resolved Hres]; [vm_compute; lia|].
    exists resolved. split; [exact Hres|].
    destruct (Hsentinel resolved Hres) as (Hx & Hy & _). by split.
Defined.

(** A cycle next to a chain: the ids of the chain resolve as without the
    cycle, and an id that leads into the cycle gets its sentinel. *)
Example cycle_next_to_chain :
  resolve_all 4
    (<[lit "a" := lit "{b}"]> (<[lit "b" := lit "hello"]>
       (<[lit "z" := lit "{x}"]> cyclic_raw)))
    [lit "z"; lit "a"; lit "x"; lit "b"; lit "y"]
  = Some (<[lit "a" := lit "hello"]> (<[lit "b" := lit "hello"]>
            (<[lit "z" := lit "[Cyclic alias: x]"]>
               (<[lit "x" := lit "[Cyclic alias: x]"]>
                  (<[lit "y" := lit "[Cyclic alias: x]"]> ∅))))).
Proof. vm_compute. reflexivity. Qed.

Lemma missing_raw_keys : [lit "a"] ≡ₚ elements (dom missing_raw).
Proof.
  unfold missing_raw. by rewrite dom_insert_L, dom_empty_L, union_empty_r_L,
    elements_singleton.
Qed.

(** C9: when the eager pass over the ids of a raw map, in any order, has
    returned, the resolved map has an entry for every id of the raw map
    and, with the empty string as value, for every missing id that an alias
    of the raw map refers to; it has no other entries.  The pass returns
    when the interpreter has room for more nested calls than the raw map
    has ids.  For the map in which a refers to the missing id zzz two
    nested calls are enough, and the resolved map holds a and zzz, both
    with the empty string. *)
Theorem resolved_map_covers (limit : nat) (raw : gmap (list N) (list N))
    (ks : list (list N)) :
  ks ≡ₚ elements (dom raw) ->
  (forall resolved,
      resolve_all limit raw ks = Some resolved ->
      (forall k, k ∈ dom raw -> k ∈ dom resolved)
      /\ (forall k ref,
            k ∈ dom raw -> link raw k ref -> ref ∉ dom raw ->
            resolved !! ref = Some [])
      /\ (forall k,
            k ∈ dom resolved
            <-> k ∈ dom raw \/ exists k0, k0 ∈ dom raw /\ link raw k0 k))
  /\ ((size raw < limit)%nat -> is_Some (resolve_all limit raw ks))
  /\ ((2 <= limit)%nat ->
      resolve_all limit missing_raw [lit "a"]
      = Some (<[lit "a" := []]> (<[lit "zzz" := []]> ∅)))
  /\ lit "zzz" ∉ dom missing_raw.
Proof.
  intros Hks. split; [|split; [apply resolve_all_returns|split]].
  2:{ intros Hlimit. destruct limit as [|[|limit]]; [lia..|].
      vm_compute. reflexivity. }
  2:{ vm_compute. set_solver. }
  intros resolved Hres.
  destruct (resolve_all_spec limit raw ks resolved Hres) as (Hsound & Hdom).
  assert (forall k, k ∈ dom resolved
                    <-> k ∈ dom raw \/ exists k0, k0 ∈ dom raw /\ link raw k0 k)
    as Hkeys.
  { intros k. rewrite Hdom. split.
    - intros (k0 & Hk0 & Hr). apply (visited_keys raw ks) in Hk0; [|done].
      apply rtc_inv_r in Hr as [->|(a & _ & Hl)]; [by left|].
      right. exists a. split; [|done]. by eapply link_in_dom.
    - intros [Hk|(k0 & Hk0 & Hl)].
      + exists k. split; [by apply (visited_keys raw ks)|done].
      + exists k0. split; [by apply (visited_keys raw ks)|by apply rtc_once]. }
  split; [|split; [|done]].
  - intros k Hk. apply Hkeys. by left.
  - intros k ref Hk Hl Hmiss. apply (resolved_value raw); [done| |].
    + apply Hkeys. right. by exists k.
    + exists 1%nat. apply not_elem_of_dom in Hmiss.
      unfold chase, raw_get. by rewrite Hmiss.
Qed.

(** The map in which a refers to the missing id zzz, with room for two
    nested calls. *)
Lemma resolved_map_covers_witness :
  exists resolved,
    resolve_all 2 missing_raw [lit "a"] = Some resolved
    /\ lit "a" ∈ dom resolved
    /\ resolved !! lit "zzz" = Some [].
Proof.
  destruct (resolved_map_covers 2 missing_raw [lit "a"] missing_raw_keys)
    as (Hcovers & Hreturns & _).
  destruct Hreturns as [resolved Hres]; [vm_compute; lia|].
  destruct (Hcovers resolved Hres) as (Hin & Hmiss & _).
  exists resolved. split; [exact Hres|]. split.
  - apply Hin. vm_compute. set_solver.
  - apply (Hmiss (lit "a")).
    + vm_compute. set_solver.
    + vm_compute. reflexivity.
    + vm_compute. set_solver.
Defined.

(** *** The order of the source *)

Lemma first_occurrences_spec (ks : list (list N)) :
  forall seen : gset (list N),
    NoDup (first_occurrences seen ks)
    /\ forall k, k ∈ first_occurrences seen ks <-> k ∈ ks /\ k ∉ seen.
Proof.
  induction ks as [|a ks IH]; intros seen; simpl.
  { split; [constructor|]. intros k. split.
    - intros H. by apply elem_of_nil in H.
    - intros [H _]. by apply elem_of_nil in H. }
  destruct (decide (a ∈ seen)) as [Ha|Ha].
  - destruct (IH seen) as [Hnd Hin]. split; [done|].
    intros k. rewrite Hin, elem_of_cons. naive_solver.
  - destruct (IH ({[a]} ∪ seen)) as [Hnd Hin]. split.
    + constructor; [|done]. rewrite Hin. set_solver.
    + intros k. rewrite !elem_of_cons, Hin.
      destruct (decide (k = a)) as [->|Hk]; set_solver.
Qed.

Lemma raw_map_of_rows_dom (rows : list (list N * list N)) :
  forall m : gmap (list N) (list N),
    dom (foldl (fun m row => <[strip row.1 := strip row.2]> m) m rows)
    = dom m ∪ list_to_set (map (fun row => strip row.1) rows).
Proof.
  induction rows as [|row rows IH]; intros m; simpl.
  - by rewrite union_empty_r_L.
  - rewrite IH, dom_insert_L. set_solver.
Qed.

(** The loop of [load_language_map] visits every id of the raw map once. *)
Lemma key_order_keys (rows : list (list N * list N)) :
  key_order rows ≡ₚ elements (dom (raw_map_of_rows rows)).
Proof.
  unfold key_order, raw_map_of_rows.
  destruct (first_occurrences_spec (map (fun row => strip row.1) rows) ∅)
    as [Hnd Hin].
  apply NoDup_Permutation; [done|apply NoDup_elements|].
  intros k. rewrite Hin, elem_of_elements, raw_map_of_rows_dom, dom_empty_L.
  set_solver.
Qed.

Lemma read_rows_app (rows rows' : list (list N * option (list N))) :
  forall m : gmap (list N) (list N),
    read_rows m (rows ++ rows')
    = read_rows m rows ≫= (fun m' => read_rows m' rows').
Proof.
  induction rows as [|[rid [eng|]] rows IH]; intros m; cbn [read_rows app].
  - done.
  - apply IH.
  - done.
Qed.

(** The loop raises exactly when a row lacks its English cell. *)
Lemma read_rows_raises (rows : list (list N * option (list N))) :
  forall m : gmap (list N) (list N),
    read_rows m rows = None <-> exists rid, (rid, None) ∈ rows.
Proof.
  induction rows as [|[rid [eng|]] rows IH]; intros m; cbn [read_rows].
  - split; [done|]. intros [rid H]. by apply elem_of_nil in H.
  - rewrite IH. split; intros [rid' H]; exists rid'.
    + by apply elem_of_cons; right.
    + apply elem_of_cons in H as [H|H]; [done|done].
  - split; [|done]. intros _. exists rid. apply elem_of_cons. by left.
Qed.

Lemma read_rows_dom (rows : list (list N * option (list N))) :
  forall m m' : gmap (list N) (list N),
    read_rows m rows = Some m' ->
    dom m' = dom m ∪ list_to_set (map (fun row => strip row.1) rows).
Proof.
  induction rows as [|[rid [eng|]] rows IH]; intros m m' H; cbn [read_rows] in H.
  - injection H as <-. cbn. by rewrite union_empty_r_L.
  - rewrite (IH _ _ H), dom_insert_L. cbn. set_solver.
  - done.
Qed.

Lemma read_rows_later (rows : list (list N * option (list N))) (k : list N) :
  forall m m' : gmap (list N) (list N),
    read_rows m rows = Some m' ->
    k ∉ map (fun row => strip row.1) rows ->
    m' !! k = m !! k.
Proof.
  induction rows as [|[rid [eng|]] rows IH]; intros m m' H Hk;
    cbn [read_rows] in H.
  - by injection H as <-.
  - cbn [map] in Hk. apply not_elem_of_cons in Hk as [Hne Hk].
    rewrite (IH _ _ H Hk). by rewrite lookup_insert_ne.
  - done.
Qed.

(** On rows that have both cells the loop builds the raw map. *)
Lemma read_rows_full (rows : list (list N * list N)) :
  read_rows ∅ (full_rows rows) = Some (raw_map_of_rows rows).
Proof.
  unfold raw_map_of_rows. generalize (∅ : gmap (list N) (list N)).
  induction rows as [|[rid eng] rows IH]; intros m; [done|].
  cbn [full_rows map read_rows foldl]. apply IH.
Qed.

(** The loop of [resolve] visits every id of the raw map once. *)
Lemma key_order_read (rows : list (list N * option (list N)))
    (raw_map : gmap (list N) (list N)) :
  read_rows ∅ rows = Some raw_map ->
  key_order rows ≡ₚ elements (dom raw_map).
Proof.
  intros H. unfold key_order.
  destruct (first_occurrences_spec (map (fun row => strip row.1) rows) ∅)
    as [Hnd Hin].
  apply NoDup_Permutation; [done|apply NoDup_elements|].
  intros k. rewrite Hin, elem_of_elements, (read_rows_dom _ _ _ H), dom_empty_L.
  set_solver.
Qed.

Example load_chain :
  load_language_map 3
    [(lit "a", Some (lit "{b}")); (lit " b", Some (lit "{c}"));
     (lit "c", Some (lit "hello "))]
  = Returned (<[lit "a" := lit "hello"]>
                (<[lit "b" := lit "hello"]> (<[lit "c" := lit "hello"]> ∅))).
Proof. vm_compute. reflexivity. Qed.

(** The chain visited from its head needs a nested call for each of its
    ids; visited from its tail it needs two. *)
Example load_chain_depth :
  load_language_map 2
    [(lit "a", Some (lit "{b}")); (lit "b", Some (lit "{c}"));
     (lit "c", Some (lit "hello"))]
  = Raised RecursionError
  /\ load_language_map 2
       [(lit "c", Some (lit "hello")); (lit "b", Some (lit "{c}"));
        (lit "a", Some (lit "{b}"))]
     = Returned (<[lit "a" := lit "hello"]>
                   (<[lit "b" := lit "hello"]> (<[lit "c" := lit "hello"]> ∅))).
Proof. split; vm_compute; reflexivity. Qed.

(** A row that holds an id alone. *)
Example load_short_row :
  load_language_map 3 [(lit "a", Some (lit "x")); (lit "b", None)]
  = Raised AttributeError.
Proof. reflexivity. Qed.

(** ** Regular expressions *)

Lemma rx_Star {R : Type} (a : regex) (off : nat) (s : list N)
    (env : list (nat * list N)) (k : nat -> list N -> list (nat * list N) -> option R) :
  rx (Star a) off s env k = star_loop a k (length s) off s env.
Proof. reflexivity. Qed.

Lemma rx_Cat {R : Type} (a b : regex) (off : nat) (s : list N)
    (env : list (nat * list N)) (k : nat -> list N -> list (nat * list N) -> option R) :
  rx (Cat a b) off s env k
  = rx a off s env (fun off' s' env' => rx b off' s' env' k).
Proof. reflexivity. Qed.

Lemma rx_Grp {R : Type} (i : nat) (a : regex) (off : nat) (s : list N)
    (env : list (nat * list N)) (k : nat -> list N -> list (nat * list N) -> option R) :
  rx (Grp i a) off s env k
  = rx a off s env
      (fun off' s' env' => k off' s' ((i, take (off' - off)%nat s) :: env')).
Proof. reflexivity. Qed.

Lemma rx_Bol {R : Type} (s : list N)
    (env : list (nat * list N)) (k : nat -> list N -> list (nat * list N) -> option R) :
  rx Bol O s env k = k O s env.
Proof. reflexivity. Qed.

Lemma rx_Lit {R : Type} (w : list N) (off : nat) (s : list N)
    (env : list (nat * list N)) (k : nat -> list N -> list (nat * list N) -> option R) :
  rx (Lit w) off (w ++ s) env k = k (off + length w)%nat s env.
Proof.
  revert off. induction w as [|c w IH]; intros off; simpl.
  - by rewrite Nat.add_0_r.
  - rewrite N.eqb_refl, IH. f_equal. lia.
Qed.

Lemma rx_Lit_fail {R : Type} (w : list N) (off : nat) (s : list N)
    (env : list (nat * list N)) (k : nat -> list N -> list (nat * list N) -> option R) :
  startswith w s = false -> rx (Lit w) off s env k = None.
Proof.
  revert off s. induction w as [|c w IH]; intros off s H; [done|].
  destruct s as [|x s]; [done|]. simpl in *.
  rewrite (N.eqb_sym x c). destruct (c =? x); [|done].
  by apply IH.
Qed.

Lemma star_loop_class {R : Type} (p : N -> bool)
    (k : nat -> list N -> list (nat * list N) -> option R)
    (ds r : list N) (env : list (nat * list N)) :
  Forall (fun c => p c = true) ds -> stops p r ->
  forall n off,
    (length ds <= n)%nat ->
    star_loop (Cls p) k n off (ds ++ r) env = backtrack k off ds r env.
Proof.
  intros Hds Hr. induction Hds as [|d ds Hd _ IH]; intros n off Hn.
  - destruct n as [|n]; [done|]. cbn [star_loop app backtrack].
    destruct r as [|c r]; [done|]. simpl in Hr. cbn [rx]. by rewrite Hr.
  - destruct n as [|n]; [simpl in Hn; lia|].
    cbn [star_loop app backtrack rx]. rewrite Hd.
    assert ((off <? S off)%nat = true) as -> by (apply Nat.ltb_lt; lia).
    rewrite IH by (simpl in Hn; lia). done.
Qed.

(** One or more characters of a class, greedily. *)
Lemma rx_Plus_class {R : Type} (p : N -> bool)
    (k : nat -> list N -> list (nat * list N) -> option R)
    (d : N) (ds r : list N) (off : nat) (env : list (nat * list N)) :
  p d = true -> Forall (fun c => p c = true) ds -> stops p r ->
  rx (Plus (Cls p)) off (d :: ds ++ r) env k = backtrack k (S off) ds r env.
Proof.
  intros Hd Hds Hr. unfold Plus. rewrite rx_Cat. cbn [rx]. rewrite Hd.
  change (star_loop (Cls p) k (length (ds ++ r)) (S off) (ds ++ r) env
          = backtrack k (S off) ds r env).
  apply star_loop_class; [done..|]. rewrite length_app. lia.
Qed.

Lemma backtrack_longest {R : Type}
    (k : nat -> list N -> list (nat * list N) -> option R)
    (ds r : list N) (env : list (nat * list N)) (x : R) :
  forall off,
    k (off + length ds)%nat r env = Some x ->
    backtrack k off ds r env = Some x.
Proof.
  induction ds as [|d ds IH]; intros off H; simpl in *.
  - by rewrite Nat.add_0_r in H.
  - rewrite (IH (S off)); [done|]. rewrite <- H. f_equal. lia.
Qed.

Lemma backtrack_none {R : Type}
    (k : nat -> list N -> list (nat * list N) -> option R)
    (ds r : list N) (env : list (nat * list N)) :
  forall off,
    (forall j, (j <= length ds)%nat ->
               k (off + j)%nat (drop j ds ++ r) env = None) ->
    backtrack k off ds r env = None.
Proof.
  induction ds as [|d ds IH]; intros off H; simpl in *.
  - specialize (H O). rewrite Nat.add_0_r in H. apply H. lia.
  - rewrite (IH (S off)).
    + specialize (H O). rewrite Nat.add_0_r in H. apply H. lia.
    + intros j Hj. specialize (H (S j)). simpl in H.
      rewrite <- H by lia. f_equal. lia.
Qed.

(** ** The key classifier *)

Lemma take_prefix {A : Type} (n : nat) (a b : list A) :
  n = length a -> take n (a ++ b) = a.
Proof. intros ->. apply take_app_length. Qed.

Lemma digit_underscore (digit : N -> bool) :
  digit_on_ascii digit -> digit 95 = false.
Proof. intros H. by rewrite H. Qed.

Lemma stops_underscore (digit : N -> bool) (w r : list N) :
  digit_on_ascii digit -> stops digit ((95 :: w) ++ r).
Proof. intros H. simpl. by apply digit_underscore. Qed.

(** The skin pattern on a key that starts with a character index and a
    skin index: the first attempt of the matcher takes the two digit runs
    as the groups. *)
Lemma skin_pattern_rx {R : Type} (digit : N -> bool) (n0 s0 : N)
    (ns ss t : list N)
    (k : nat -> list N -> list (nat * list N) -> option R) (x : R) :
  digit_on_ascii digit ->
  Forall (fun c => digit c = true) (n0 :: ns) ->
  Forall (fun c => digit c = true) (s0 :: ss) ->
  stops digit t ->
  (forall off, k off t [(2%nat, s0 :: ss); (1%nat, n0 :: ns)] = Some x) ->
  rx (skin_pattern digit) O
    (lit "Character" ++ (n0 :: ns) ++ lit "_name_skin" ++ (s0 :: ss) ++ t) [] k
  = Some x.
Proof.
  intros Hd Hn Hs Ht Hk.
  apply Forall_cons in Hn as [Hn0 Hns]. apply Forall_cons in Hs as [Hs0 Hss].
  unfold skin_pattern.
  rewrite rx_Cat, rx_Lit, rx_Cat, rx_Grp.
  change ((n0 :: ns) ++ ?r) with (n0 :: ns ++ r).
  rewrite rx_Plus_class; [|done..|by apply (stops_underscore digit)].
  apply backtrack_longest.
  rewrite rx_Cat, rx_Lit, rx_Grp.
  change ((s0 :: ss) ++ t) with (s0 :: ss ++ t).
  rewrite rx_Plus_class; [|done..].
  apply backtrack_longest.
  match goal with |- k ?o _ _ = _ => rewrite <- (Hk o) end.
  f_equal. f_equal; [|f_equal]; f_equal.
  - apply (take_prefix _ (s0 :: ss)). simpl. lia.
  - apply (take_prefix _ (n0 :: ns)). simpl. lia.
Qed.

Lemma skin_pattern_match (digit : N -> bool) (n0 s0 : N) (ns ss t : list N) :
  digit_on_ascii digit ->
  Forall (fun c => digit c = true) (n0 :: ns) ->
  Forall (fun c => digit c = true) (s0 :: ss) ->
  stops digit t ->
  re_match (skin_pattern digit)
    (lit "Character" ++ (n0 :: ns) ++ lit "_name_skin" ++ (s0 :: ss) ++ t)
  = Some [(2%nat, s0 :: ss); (1%nat, n0 :: ns)].
Proof. intros. by apply skin_pattern_rx. Qed.

(** Behind a run of digits, a continuation that cannot start with a digit
    is only entered at the end of the run. *)
Lemma backtrack_commit {R : Type} (p : N -> bool)
    (k : nat -> list N -> list (nat * list N) -> option R)
    (ds r : list N) (env : list (nat * list N)) :
  Forall (fun c => p c = true) ds ->
  (forall off c s, p c = true -> k off (c :: s) env = None) ->
  forall off, backtrack k off ds r env = k (off + length ds)%nat r env.
Proof.
  intros Hds Hk. induction Hds as [|d ds Hd _ IH]; intros off; simpl.
  - by rewrite Nat.add_0_r.
  - rewrite IH. replace (S off + length ds)%nat with (off + S (length ds))%nat by lia.
    destruct (k (off + S (length ds))%nat r env); [done|].
    by rewrite Hk.
Qed.

Lemma rx_Lit_underscore {R : Type} (digit : N -> bool) (w : list N)
    (off : nat) (c : N) (s : list N) (env : list (nat * list N))
    (k : nat -> list N -> list (nat * list N) -> option R) :
  digit_on_ascii digit -> digit c = true ->
  rx (Lit (95 :: w)) off (c :: s) env k = None.
Proof.
  intros Hd Hc. apply rx_Lit_fail. cbn [startswith].
  destruct (N.eqb_spec 95 c) as [<-|_]; [|done].
  by rewrite digit_underscore in Hc.
Qed.

(** The narrow export accepts a key that is a character index and a skin
    index and nothing more. *)
Lemma skin_pattern_fullmatch (digit : N -> bool) (n0 s0 : N) (ns ss : list N) :
  digit_on_ascii digit ->
  Forall (fun c => digit c = true) (n0 :: ns) ->
  Forall (fun c => digit c = true) (s0 :: ss) ->
  re_fullmatch (skin_pattern digit)
    (lit "Character" ++ (n0 :: ns) ++ lit "_name_skin" ++ (s0 :: ss))
  = Some [(2%nat, s0 :: ss); (1%nat, n0 :: ns)].
Proof.
  intros Hd Hn Hs.
  replace (lit "Character" ++ (n0 :: ns) ++ lit "_name_skin" ++ (s0 :: ss))
    with (lit "Character" ++ (n0 :: ns) ++ lit "_name_skin" ++ (s0 :: ss) ++ [])
    by (by rewrite (app_nil_r (s0 :: ss))).
  by apply skin_pattern_rx.
Qed.

(** It rejects the key when anything follows the skin index. *)
Lemma skin_pattern_fullmatch_trailing (digit : N -> bool) (n0 s0 : N)
    (ns ss t : list N) :
  digit_on_ascii digit ->
  Forall (fun c => digit c = true) (n0 :: ns) ->
  Forall (fun c => digit c = true) (s0 :: ss) ->
  stops digit t -> t <> [] ->
  re_fullmatch (skin_pattern digit)
    (lit "Character" ++ (n0 :: ns) ++ lit "_name_skin" ++ (s0 :: ss) ++ t)
  = None.
Proof.
  intros Hd Hn Hs Ht Hne.
  apply Forall_cons in Hn as [Hn0 Hns]. apply Forall_cons in Hs as [Hs0 Hss].
  unfold re_fullmatch, skin_pattern.
  rewrite rx_Cat, rx_Lit, rx_Cat, rx_Grp.
  change ((n0 :: ns) ++ ?r) with (n0 :: ns ++ r).
  rewrite rx_Plus_class; [|done..|by apply (stops_underscore digit)].
  rewrite (backtrack_commit digit); [|done|].
  - rewrite rx_Cat, rx_Lit, rx_Grp.
    change ((s0 :: ss) ++ t) with (s0 :: ss ++ t).
    rewrite rx_Plus_class; [|done..].
    apply backtrack_none. intros j _.
    destruct (drop j ss ++ t) as [|c rest] eqn:Hrest; [|done].
    apply app_eq_nil in Hrest as [_ ?]. done.
  - intros off c s Hc. rewrite rx_Cat.
    by apply (rx_Lit_underscore digit).
Qed.

(** Neither the pet, the material nor the skill pattern of the export
    accepts a key of the skin shape. *)
Lemma other_patterns_reject_skin_keys (digit : N -> bool) (n0 : N)
    (ns rest : list N) :
  digit_on_ascii digit ->
  Forall (fun c => digit c = true) (n0 :: ns) ->
  let key := lit "Character" ++ (n0 :: ns) ++ lit "_name_skin" ++ rest in
  re_fullmatch (pet_pattern digit) key = None
  /\ re_fullmatch material_pattern key = None
  /\ re_fullmatch (skill_pattern digit) key = None.
Proof.
  intros Hd Hn key. apply Forall_cons in Hn as [Hn0 Hns].
  split; [|split].
  - unfold re_fullmatch, pet_pattern. rewrite rx_Cat. by apply rx_Lit_fail.
  - unfold re_fullmatch, material_pattern. rewrite rx_Grp, rx_Cat.
    rewrite rx_Bol, rx_Cat. by apply rx_Lit_fail.
  - unfold re_fullmatch, skill_pattern, key.
    rewrite rx_Grp, rx_Cat, rx_Lit, rx_Cat.
    change ((n0 :: ns) ++ ?r) with (n0 :: ns ++ r).
    rewrite rx_Plus_class; [|done..|by apply (stops_underscore digit)].
    rewrite (backtrack_commit digit); [|done|].
    + rewrite rx_Cat. by apply rx_Lit_fail.
    + intros off c s Hc. rewrite rx_Cat. by apply (rx_Lit_underscore digit).
Qed.

Lemma set_nested_lookup (k1 k2 v : list N)
    (d : gmap (list N) (gmap (list N) (list N))) :
  set_nested k1 k2 v d !! k1 ≫= (fun inner => inner !! k2) = Some v.
Proof. unfold set_nested. rewrite lookup_insert_eq. simpl. apply lookup_insert_eq. Qed.

(** The broad classifier on a key that starts with a character index and a
    skin index. *)
Lemma classify_skin_key (digit : N -> bool) (d : dictionaries)
    (n0 s0 : N) (ns ss t eng : list N) :
  digit_on_ascii digit ->
  Forall (fun c => digit c = true) (n0 :: ns) ->
  Forall (fun c => digit c = true) (s0 :: ss) ->
  stops digit t ->
  characters
    (classify digit d
       (lit "Character" ++ (n0 :: ns) ++ lit "_name_skin" ++ (s0 :: ss) ++ t, eng))
  = set_nested (n0 :: ns) (s0 :: ss) eng (characters d).
Proof.
  intros Hd Hn Hs Ht. unfold classify.
  do 7 decide_test.
  rewrite skin_pattern_match by done. reflexivity.
Qed.

(** The narrow export on such a key with nothing behind the skin index. *)
Lemma export_skin_key (digit : N -> bool) (r : needed_data)
    (n0 s0 : N) (ns ss value : list N) :
  digit_on_ascii digit ->
  Forall (fun c => digit c = true) (n0 :: ns) ->
  Forall (fun c => digit c = true) (s0 :: ss) ->
  skin
    (export_item digit r
       (lit "Character" ++ (n0 :: ns) ++ lit "_name_skin" ++ (s0 :: ss), value))
  = set_nested (lit "c" ++ n0 :: ns)
      (lit "c" ++ (n0 :: ns) ++ lit "_skin" ++ s0 :: ss) value (skin r).
Proof.
  intros Hd Hn Hs. unfold export_item.
  rewrite skin_pattern_fullmatch by done. reflexivity.
Qed.

(** The narrow export on such a key with something behind the skin index:
    no pattern accepts it, the result is left as it is. *)
Lemma export_trailing_key (digit : N -> bool) (r : needed_data)
    (n0 s0 : N) (ns ss t value : list N) :
  digit_on_ascii digit ->
  Forall (fun c => digit c = true) (n0 :: ns) ->
  Forall (fun c => digit c = true) (s0 :: ss) ->
  stops digit t -> t <> [] ->
  export_item digit r
    (lit "Character" ++ (n0 :: ns) ++ lit "_name_skin" ++ (s0 :: ss) ++ t, value)
  = r.
Proof.
  intros Hd Hn Hs Ht Hne. unfold export_item.
  rewrite skin_pattern_fullmatch_trailing by done.
  destruct (other_patterns_reject_skin_keys digit n0 ns ((s0 :: ss) ++ t) Hd Hn)
    as (-> & -> & ->).
  reflexivity.
Qed.

(** What one item may do to the pets and to the characters. *)
Lemma classify_pets (digit : N -> bool) (d : dictionaries) (rid eng : list N) :
  pets (classify digit d (rid, eng)) = pets d
  \/ (pets (classify digit d (rid, eng)) = <[rid := eng]> (pets d)
      /\ endswith (lit "_des") rid = false
      /\ endswith (lit "_lock") rid = false).
Proof.
  unfold classify. split_classify; cbn [pets]; try (by left).
  right. split; [done|].
  match goal with
  | H : _ && negb (endswith (lit "_des") rid) && negb (endswith (lit "_lock") rid) = true |- _ =>
      apply andb_true_iff in H as [H Hlock];
      apply andb_true_iff in H as [_ Hdes]
  end.
  by apply negb_true_iff in Hdes, Hlock.
Qed.

Lemma classify_characters (digit : N -> bool) (d : dictionaries)
    (item : list N * list N) :
  characters (classify digit d item) = characters d
  \/ exists c s e, characters (classify digit d item)
                   = set_nested c s e (characters d).
Proof.
  unfold classify. destruct item as [rid eng].
  split_classify; cbn [characters]; eauto.
Qed.

Lemma endswith_suffix_stays_out (digit : N -> bool) (items : list (list N * list N))
    (rid : list N) :
  endswith (lit "_des") rid = true \/ endswith (lit "_lock") rid = true ->
  forall d, pets d !! rid = None ->
            pets (foldl (classify digit) d items) !! rid = None.
Proof.
  intros Hrid. induction items as [|[k eng] items IH]; intros d Hd; [done|].
  cbn [foldl]. apply IH.
  destruct (classify_pets digit d k eng) as [->|(-> & Hdes & Hlock)]; [done|].
  rewrite lookup_insert_ne; [done|]. intros ->. destruct Hrid; congruence.
Qed.

Lemma set_nested_keeps (c s e k1 k2 : list N)
    (d : gmap (list N) (gmap (list N) (list N))) :
  is_Some (d !! k1 ≫= (fun inner => inner !! k2)) ->
  is_Some (set_nested c s e d !! k1 ≫= (fun inner => inner !! k2)).
Proof.
  intros H. unfold set_nested. destruct (decide (c = k1)) as [->|Hc].
  - rewrite lookup_insert_eq. simpl.
    destruct (decide (s = k2)) as [->|Hs].
    + rewrite lookup_insert_eq. by eexists.
    + rewrite lookup_insert_ne by done.
      destruct (d !! k1); [done|]. simpl in H. by destruct H.
  - by rewrite lookup_insert_ne.
Qed.

Lemma characters_stay (digit : N -> bool) (items : list (list N * list N))
    (k1 k2 : list N) :
  forall d,
    is_Some (characters d !! k1 ≫= (fun inner => inner !! k2)) ->
    is_Some (characters (foldl (classify digit) d items) !! k1
             ≫= (fun inner => inner !! k2)).
Proof.
  induction items as [|item items IH]; intros d Hd; [done|].
  cbn [foldl]. apply IH.
  destruct (classify_characters digit d item) as [->|(c & s & e & ->)];
    [done|by apply set_nested_keeps].
Qed.

Lemma ascii_digit_of (digit : N -> bool) (c : N) :
  digit_on_ascii digit -> ascii_digit c = true -> digit c = true.
Proof.
  intros Hd Hc. rewrite Hd; [done|].
  unfold ascii_digit in Hc. apply andb_true_iff in Hc as [_ Hc].
  apply N.leb_le in Hc. lia.
Qed.

(** Any text splits into its longest run of leading digits and the rest. *)
Lemma digit_run_split (digit : N -> bool) (l : list N) :
  exists ds t,
    l = ds ++ t /\ Forall (fun c => digit c = true) ds /\ stops digit t.
Proof.
  induction l as [|c l (ds & t & -> & Hds & Ht)].
  - by exists [], [].
  - destruct (digit c) eqn:Hc.
    + exists (c :: ds), t. split; [done|]. split; [by constructor|done].
    + exists [], (c :: ds ++ t). split; [done|]. split; [constructor|done].
Qed.

(** C10: the broad classifier takes the character-skin rule at the start of
    the key, the narrow export on the whole key.  For a key that starts
    with Character, a character index N, _name_skin and a skin index S
    (each a run of digits, S up to the first character that is no digit),
    whatever follows: the broad classifier sets characters[N][S], and the
    entry stays through the rest of a run; the narrow export sets its skin
    entry when nothing follows S, and leaves its result as it is when
    something follows.  When digits follow the skin index they belong to
    it: every key that starts with the shape is placed by the broad
    classifier, under the whole digit run as skin index. *)
Theorem skin_rule_prefix_against_full (digit : N -> bool) (n0 s0 : N)
    (ns ss t eng : list N) (d : dictionaries) (r : needed_data) :
  digit_on_ascii digit ->
  Forall (fun c => digit c = true) (n0 :: ns) ->
  Forall (fun c => digit c = true) (s0 :: ss) ->
  stops digit t ->
  let key := lit "Character" ++ (n0 :: ns) ++ lit "_name_skin" ++ (s0 :: ss) ++ t in
  characters (classify digit d (key, eng)) !! (n0 :: ns)
    ≫= (fun skins => skins !! (s0 :: ss))
  = Some eng
  /\ (forall rest,
        exists ds t',
          rest = ds ++ t'
          /\ Forall (fun c => digit c = true) ds
          /\ stops digit t'
          /\ characters
               (classify digit d
                  (lit "Character" ++ (n0 :: ns) ++ lit "_name_skin"
                   ++ (s0 :: ss) ++ rest, eng))
               !! (n0 :: ns)
               ≫= (fun skins => skins !! (s0 :: ss ++ ds))
             = Some eng)
  /\ (forall before after,
        is_Some
          (characters (build_dictionaries digit (before ++ (key, eng) :: after))
             !! (n0 :: ns)
           ≫= (fun skins => skins !! (s0 :: ss))))
  /\ (t = [] ->
      skin (export_item digit r (key, eng)) !! (lit "c" ++ n0 :: ns)
        ≫= (fun skins => skins !! (lit "c" ++ (n0 :: ns) ++ lit "_skin" ++ s0 :: ss))
      = Some eng)
  /\ (t <> [] ->
      re_fullmatch (skin_pattern digit) key = None
      /\ export_item digit r (key, eng) = r
      /\ forall before after,
          export_needed_data digit (before ++ (key, eng) :: after)
          = export_needed_data digit (before ++ after)).
Proof.
  intros Hd Hn Hs Ht key.
  assert (characters (classify digit d (key, eng)) !! (n0 :: ns)
            ≫= (fun skins => skins !! (s0 :: ss)) = Some eng) as Hbroad.
  { unfold key. rewrite classify_skin_key by done. apply set_nested_lookup. }
  split; [done|]. split; [|split; [|split]].
  - intros rest. destruct (digit_run_split digit rest) as (ds & t' & -> & Hds & Ht').
    exists ds, t'. repeat split; try done.
    replace ((s0 :: ss) ++ ds ++ t') with ((s0 :: ss ++ ds) ++ t')
      by (cbn [app]; by rewrite <- app_assoc).
    rewrite classify_skin_key; try done; [apply set_nested_lookup|].
    apply Forall_cons in Hs as [Hs0 Hss].
    constructor; [done|by apply Forall_app].
  - intros before after. unfold build_dictionaries.
    rewrite foldl_app. cbn [foldl]. apply characters_stay.
    unfold key. rewrite classify_skin_key by done.
    rewrite set_nested_lookup. by eexists.
  - intros ->. unfold key. rewrite (app_nil_r (s0 :: ss)).
    rewrite export_skin_key by done. apply set_nested_lookup.
  - intros Hne. split; [|split].
    + by apply skin_pattern_fullmatch_trailing.
    + by apply export_trailing_key.
    + intros before after. unfold export_needed_data.
      rewrite !foldl_app. cbn [foldl]. unfold key.
      by rewrite export_trailing_key.
Qed.

(** The key Character3_name_skin2_extra, with the ASCII digits. *)
Lemma skin_rule_prefix_against_full_witness :
  characters
    (classify ascii_digit no_dictionaries
       (lit "Character3_name_skin2_extra", lit "Rogue"))
    !! lit "3" ≫= (fun skins => skins !! lit "2")
  = Some (lit "Rogue")
  /\ export_item ascii_digit no_needed_data
       (lit "Character3_name_skin2_extra", lit "Rogue")
     = no_needed_data.
Proof.
  destruct (skin_rule_prefix_against_full ascii_digit 51 50 [] [] (lit "_extra")
              (lit "Rogue") no_dictionaries no_needed_data)
    as (Hbroad & _ & _ & _ & Hnarrow).
  - intros c _. reflexivity.
  - repeat constructor.
  - repeat constructor.
  - reflexivity.
  - split; [exact Hbroad|]. apply Hnarrow. discriminate.
Defined.

Example narrow_export_accepts_full_key :
  skin (export_needed_data ascii_digit [(lit "Character3_name_skin2", lit "Rogue")])
    !! lit "c3" ≫= (fun skins => skins !! lit "c3_skin2")
  = Some (lit "Rogue").
Proof. vm_compute. reflexivity. Qed.

(** * Further properties *)

(** ** Text *)

Lemma lstrip_id (s : list N) :
  (forall c t, s = c :: t -> isspace c = false) -> lstrip s = s.
Proof.
  destruct s as [|c s]; [done|]. intros H. simpl.
  by rewrite (H c s eq_refl).
Qed.

Lemma rstrip_id (s : list N) :
  (forall c t, s = t ++ [c] -> isspace c = false) -> rstrip s = s.
Proof.
  intros H. unfold rstrip. rewrite lstrip_id; [apply rev_involutive|].
  intros c t Ht. apply (H c (rev t)).
  rewrite <- (rev_involutive s), Ht. reflexivity.
Qed.

Lemma strip_id (s : list N) : trimmed s -> strip s = s.
Proof.
  intros [Hfirst Hlast]. unfold strip.
  rewrite (lstrip_id s Hfirst). by apply rstrip_id.
Qed.

Lemma strip_trimmed (s : list N) : trimmed (strip s).
Proof. split; [apply strip_first|apply strip_last]. Qed.

Lemma escape_line_breaks_id (b : bool) (s : list N) :
  Forall (fun c => c <> CR /\ c <> LF) s -> escape_line_breaks b s = s.
Proof.
  intros H. revert b. induction H as [|c s [Hcr Hlf] _ IH]; intros b; [done|].
  cbn [escape_line_breaks].
  destruct (N.eqb_spec c CR); [done|]. destruct (N.eqb_spec c LF); [done|].
  by rewrite IH.
Qed.

Lemma sanitize_text_clean (s : list N) : clean (sanitize_text s).
Proof.
  rewrite sanitize_text_one_pass. unfold sanitize_spec. split.
  - apply strip_Forall, escape_line_breaks_no_break.
  - apply strip_trimmed.
Qed.

Lemma sanitize_text_id (s : list N) : clean s -> sanitize_text s = s.
Proof.
  intros [Hbreaks Htrim]. rewrite sanitize_text_one_pass. unfold sanitize_spec.
  rewrite escape_line_breaks_id by done. by apply strip_id.
Qed.

(** X1: [sanitize_text] is idempotent: sanitizing a sanitized text changes
    nothing. *)
Theorem sanitize_text_idempotent (text : list N) :
  sanitize_text (sanitize_text text) = sanitize_text text.
Proof. apply sanitize_text_id, sanitize_text_clean. Qed.

(** X2: the texts that [sanitize_text] returns unchanged are exactly the
    texts without CR and LF that neither start nor end with whitespace. *)
Theorem sanitize_text_fixpoints (text : list N) :
  sanitize_text text = text <-> clean text.
Proof.
  split; [|apply sanitize_text_id].
  intros H. rewrite <- H. apply sanitize_text_clean.
Qed.

(** ** The record decoder *)

Lemma str_leb_refl (a : list N) : str_leb a a = true.
Proof.
  induction a as [|x a IH]; [done|]. simpl. by rewrite N.ltb_irrefl.
Qed.

Lemma str_leb_total (a b : list N) : str_leb a b = false -> str_leb b a = true.
Proof.
  revert b. induction a as [|x a IH]; intros [|y b]; simpl; try done.
  destruct (N.ltb_spec x y); [done|].
  destruct (N.ltb_spec y x); [done|]. apply IH.
Qed.

Lemma str_leb_trans (a b c : list N) :
  str_leb a b = true -> str_leb b c = true -> str_leb a c = true.
Proof.
  revert b c. induction a as [|x a IH]; intros [|y b] [|z c]; simpl; try done.
  destruct (N.ltb_spec x y), (N.ltb_spec y z), (N.ltb_spec x z); try done;
    try lia.
  - destruct (N.ltb_spec y x); [lia|]. destruct (N.ltb_spec z y); [done|lia].
  - destruct (N.ltb_spec y x); [done|]. destruct (N.ltb_spec z y); [lia|].
    intros _ _. destruct (N.ltb_spec z x); [lia|]. lia.
  - destruct (N.ltb_spec y x); [done|]. destruct (N.ltb_spec z y); [done|].
    destruct (N.ltb_spec z x); [lia|]. apply IH.
Qed.

Lemma insert_by_key_sorted (r : list N * list (list N))
    (l : list (list N * list (list N))) :
  StronglySorted key_le l -> StronglySorted key_le (insert_by_key r l).
Proof.
  induction 1 as [|r' l Hl IH Hall]; simpl; [by repeat constructor|].
  destruct (str_leb r.1 r'.1) eqn:Hle.
  - constructor; [by constructor|]. constructor; [done|].
    eapply Forall_impl; [exact Hall|]. intros z Hz.
    by apply (str_leb_trans _ r'.1).
  - constructor; [done|].
    apply (Permutation_Forall (Permutation_sym (insert_by_key_perm r l))).
    constructor; [by apply str_leb_total|done].
Qed.

Lemma sort_by_key_sorted (l : list (list N * list (list N))) :
  StronglySorted key_le (sort_by_key l).
Proof.
  induction l as [|r l IH]; simpl; [constructor|].
  by apply insert_by_key_sorted.
Qed.

Lemma insert_by_key_with_key (k : list N) (r : list N * list (list N))
    (l : list (list N * list (list N))) :
  with_key k (insert_by_key r l) = with_key k (r :: l).
Proof.
  unfold with_key. induction l as [|r' l IH]; [done|].
  cbn [insert_by_key]. destruct (str_leb r.1 r'.1) eqn:Hle; [done|].
  cbn [List.filter] in *. rewrite IH.
  destruct (bool_decide (r.1 = k)) eqn:Hr; [|done].
  destruct (bool_decide (r'.1 = k)) eqn:Hr'; [|done].
  apply bool_decide_eq_true in Hr, Hr'.
  rewrite Hr, Hr', str_leb_refl in Hle. done.
Qed.

Lemma sort_by_key_with_key (k : list N) (l : list (list N * list (list N))) :
  with_key k (sort_by_key l) = with_key k l.
Proof.
  induction l as [|r l IH]; [done|]. cbn [sort_by_key foldr].
  rewrite insert_by_key_with_key. unfold with_key in *. cbn [List.filter].
  fold (sort_by_key l). by rewrite IH.
Qed.

(** X3: the records that the decoder returns are sorted by key, in the
    order of the code points; they are the records that the loop appended,
    and records with the same key keep the order in which they were read
    (the sort is stable). *)
Theorem decoder_output_sorted (data : list byte) (fp : option (list regex)) :
  exists records out,
    decode_records data fp = Some records
    /\ parse_i2_asset_file (Some data) fp = Returned (out, LANGUAGES)
    /\ StronglySorted key_le out
    /\ out ≡ₚ records
    /\ forall k, with_key k out = with_key k records.
Proof.
  destruct (decode_records_total data fp) as [records H].
  exists records, (sort_by_key records). split; [done|]. split.
  { unfold parse_i2_asset_file. by rewrite H. }
  split; [apply sort_by_key_sorted|]. split; [apply sort_by_key_perm|].
  intros k. apply sort_by_key_with_key.
Qed.

Lemma decode_key_trimmed (key_bytes : list byte) : trimmed (decode_key key_bytes).
Proof.
  unfold decode_key. destruct (utf8_decode Ignore key_bytes); apply strip_trimmed.
Qed.

Lemma read_fields_clean (data : list byte) (fuel : nat) :
  forall count pos fields pos' fields',
    read_fields fuel data count pos fields = Some (pos', fields') ->
    Forall clean fields -> Forall clean fields'.
Proof.
  induction fuel as [|f IH]; intros count pos fields pos' fields' H Hc; [done|].
  cbn [read_fields] in H. destruct (count =? 0); [by injection H as <- <-|].
  destruct (len data <? pos + 4); [by injection H as <- <-|].
  apply IH in H; [done|]. apply Forall_app. split; [done|].
  constructor; [apply sanitize_text_clean|constructor].
Qed.

Lemma loop_body_tidy (data : list byte) (fp : option (list regex))
    (pos : N) (records : list (list N * list (list N)))
    (out : step (N * list (list N * list (list N)))) :
  loop_body data fp (pos, records) = Some out ->
  Forall tidy records ->
  Forall tidy match out with Break st | Continue st => st.2 end.
Proof.
  unfold loop_body. intros H Hr.
  destruct (len data <? align4 pos + 4); [by injection H as <-|].
  destruct (read_key_len data (align4 pos)) as [[p|[key_len p]]|];
    cbn -[read_fields inner_fuel] in H; [by injection H as <-| |done].
  destruct (len data <? align4 (p + key_len) + 4); [by injection H as <-|].
  destruct (read_fields_count data (align4 (p + key_len))) as [q|[cnt q]];
    [by injection H as <-|].
  destruct (read_fields (inner_fuel data) data cnt q []) as [[q' fields]|] eqn:Hf;
    cbn -[read_fields inner_fuel] in H; [|done].
  injection H as <-. cbn [snd].
  destruct (kept fp _); [|done].
  apply Forall_app. split; [done|]. constructor; [|constructor].
  split; [apply decode_key_trimmed|].
  by apply (read_fields_clean _ _ _ _ _ _ _ Hf).
Qed.

Lemma parse_loop_tidy (data : list byte) (fp : option (list regex)) (fuel : nat) :
  forall st st',
    parse_loop fuel data fp st = Some st' ->
    Forall tidy st.2 -> Forall tidy st'.2.
Proof.
  induction fuel as [|f IH]; intros [pos records] st' H Hr; [done|].
  cbn [parse_loop fst snd] in *. destruct (pos <? len data).
  - destruct (loop_body data fp (pos, records)) as [out|] eqn:Hb; [|done].
    pose proof (loop_body_tidy _ _ _ _ _ Hb Hr) as Hout.
    destruct out as [st|st]; [by injection H as <-|].
    by apply (IH st).
  - by injection H as <-.
Qed.

(** X4: every record that the decoder returns has a key without
    whitespace at either end, and fields that hold neither CR nor LF and
    have no whitespace at either end, whatever the bytes of the buffer. *)
Theorem decoder_output_tidy (data : list byte) (fp : option (list regex)) :
  exists out,
    parse_i2_asset_file (Some data) fp = Returned (out, LANGUAGES)
    /\ Forall tidy out.
Proof.
  destruct (decode_records_total data fp) as [records H].
  exists (sort_by_key records). split.
  { unfold parse_i2_asset_file. by rewrite H. }
  apply (Permutation_Forall (Permutation_sym (sort_by_key_perm records))).
  unfold decode_records in H.
  destruct (parse_loop (S (length data)) data fp (60, [])) as [st'|] eqn:Hp;
    [|done].
  injection H as <-. by apply (parse_loop_tidy _ _ _ _ _ Hp).
Qed.

Lemma read_key_len_nonzero (data : list byte) (pos key_len p : N) :
  read_key_len data pos = Some (inr (key_len, p)) -> key_len <> 0.
Proof.
  unfold read_key_len. destruct (N.eqb_spec (word_at data pos) 0) as [_|Hk].
  - destruct (skip_zero_words (inner_fuel data) data (pos + 4)) as [pos'|];
      [|done].
    cbn. destruct (len data <=? pos' + 4); [done|].
    destruct (N.eqb_spec (word_at data pos') 0) as [_|Hk]; [done|].
    by intros [= <- _].
  - by intros [= <- _].
Qed.

(** A pass that appends a record needs twelve bytes behind the aligned
    offset: the key length, one key byte with its padding, the count. *)
Lemma loop_body_continue_len (data : list byte) (fp : option (list regex))
    (pos : N) (records : list (list N * list (list N)))
    (st : N * list (list N * list (list N))) :
  loop_body data fp (pos, records) = Some (Continue st) ->
  align4 pos + 12 <= len data.
Proof.
  unfold loop_body.
  destruct (len data <? align4 pos + 4); [done|].
  destruct (read_key_len_total data (align4 pos)) as (kl & Hkl & Hge).
  rewrite Hkl. cbn -[read_fields inner_fuel].
  destruct kl as [p|[key_len p]]; [done|].
  apply read_key_len_nonzero in Hkl.
  destruct (N.ltb_spec (len data) (align4 (p + key_len) + 4)) as [|Hlen];
    [done|].
  intros _.
  pose proof (align4_ge (p + key_len)).
  pose proof (align4_aligned (p + key_len)) as Ha.
  pose proof (align4_aligned pos) as Hb.
  pose proof (N.div_mod (align4 (p + key_len)) 4 ltac:(done)) as Hda.
  pose proof (N.div_mod (align4 pos) 4 ltac:(done)) as Hdb.
  rewrite Ha in Hda. rewrite Hb in Hdb. lia.
Qed.

(** X5: a buffer of fewer than 72 bytes holds no record: the decoder
    returns the empty list.  The bound is sharp: there is a buffer of 72
    bytes from which a record is decoded. *)
Theorem short_buffer_no_records (data : list byte) (fp : option (list regex)) :
  (length data < 72)%nat ->
  parse_i2_asset_file (Some data) fp = Returned ([], LANGUAGES)
  /\ length shortest_buffer = 72%nat
  /\ parse_i2_asset_file (Some shortest_buffer) None
     = Returned ([(lit "k", [])], LANGUAGES).
Proof.
  intros Hlen. split; [|split; vm_compute; reflexivity].
  unfold parse_i2_asset_file, decode_records.
  cbn [parse_loop fst]. destruct (60 <? len data); [|done].
  destruct (loop_body_total data fp 60 []) as (out & Hout & Hspec).
  rewrite Hout. destruct out as [[pos' records']|st].
  - destruct Hspec as [_ ->]. done.
  - apply loop_body_continue_len in Hout.
    change (align4 60) with 60 in Hout. unfold len in Hout. lia.
Qed.

(** A buffer of 71 zero bytes. *)
Lemma short_buffer_no_records_witness :
  parse_i2_asset_file (Some (zeros 71)) None = Returned ([], LANGUAGES).
Proof.
  apply (short_buffer_no_records (zeros 71) None). vm_compute. lia.
Defined.

Lemma kept_some (ps : list regex) (key : list N) :
  kept (Some ps) key = negb (any_match ps key).
Proof. unfold kept. by destruct ps. Qed.

Lemma kept_app (ps ps' : list regex) (key : list N) :
  kept (Some (ps ++ ps')) key = kept (Some ps) key && kept (Some ps') key.
Proof.
  rewrite !kept_some. unfold any_match.
  by rewrite existsb_app, negb_orb.
Qed.

Lemma filter_filter {A : Type} (f g : A -> bool) (l : list A) :
  List.filter g (List.filter f l) = List.filter (fun x => f x && g x) l.
Proof.
  induction l as [|x l IH]; [done|]. simpl.
  destruct (f x); simpl; [|done]. destruct (g x); by rewrite IH.
Qed.

(** X6: an empty list of exclusion patterns excludes nothing, like no
    list at all; and excluding with the patterns of two lists together is
    excluding with the first list and then with the second, on the records
    in the order in which they are read. *)
Theorem exclusion_composes (data : list byte) (ps ps' : list regex) :
  parse_i2_asset_file (Some data) (Some []) = parse_i2_asset_file (Some data) None
  /\ decode_records data (Some (ps ++ ps'))
     = List.filter (keeps (Some ps')) <$> decode_records data (Some ps).
Proof.
  split.
  - unfold parse_i2_asset_file. rewrite (decode_records_filter data (Some [])).
    destruct (decode_records data None) as [every|]; [|done]. cbn.
    replace (List.filter (keeps (Some [])) every) with every; [done|].
    induction every as [|r every IH]; [done|]. cbn. by rewrite <- IH.
  - rewrite (decode_records_filter data (Some (ps ++ ps'))).
    rewrite (decode_records_filter data (Some ps)).
    destruct (decode_records data None) as [every|]; [|done]. cbn. f_equal.
    rewrite filter_filter. apply filter_ext. intros r. unfold keeps.
    apply kept_app.
Qed.

Lemma utf8_strict_ignore (b : list byte) :
  forall st t, utf8_run Strict st b = Some t -> utf8_run Ignore st b = Some t.
Proof.
  induction b as [|x b IH]; intros st t.
  - destruct st; simpl; [done|discriminate].
  - cbn [utf8_run].
    assert (forall t,
              match classify_lead (Byte.to_N x) with
              | LeadAscii c => cons c <$> utf8_run Strict Start b
              | LeadMulti more acc lo hi => utf8_run Strict (Need more acc lo hi) b
              | LeadInvalid => None
              end = Some t ->
              match classify_lead (Byte.to_N x) with
              | LeadAscii c => cons c <$> utf8_run Ignore Start b
              | LeadMulti more acc lo hi => utf8_run Ignore (Need more acc lo hi) b
              | LeadInvalid => utf8_run Ignore Start b
              end = Some t) as Hstart.
    { intros t'. destruct (classify_lead (Byte.to_N x)); [|apply IH|done].
      destruct (utf8_run Strict Start b) as [u|] eqn:Hu; [|done].
      by rewrite (IH _ _ Hu). }
    destruct st as [|more acc lo hi]; [apply Hstart|].
    destruct ((lo <=? Byte.to_N x) && (Byte.to_N x <=? hi)); [|done].
    destruct more as [|[|m]]; [| |apply IH];
      (destruct (utf8_run Strict Start b) as [u|] eqn:Hu; [|done];
       by rewrite (IH _ _ Hu)).
Qed.

Lemma utf8_ascii (b : list byte) :
  Forall (fun x => Byte.to_N x < 128) b ->
  utf8_run Strict Start b = Some (map Byte.to_N b).
Proof.
  induction 1 as [|x b Hx _ IH]; [done|].
  cbn [utf8_run]. unfold classify_lead.
  destruct (N.ltb_spec (Byte.to_N x) 128); [|lia]. by rewrite IH.
Qed.

(** X7: the key decoder and the field decoder differ only on bytes that
    are not well-formed UTF-8.  When the bytes decode strictly to a text,
    the field is that text and the key is that text stripped; otherwise
    the field is the Latin-1 reading, one character per byte.  On ASCII
    bytes both give the bytes as characters. *)
Theorem key_and_field_decoding (b : list byte) :
  (forall t, utf8_decode Strict b = Some t ->
             decode_field b = t /\ decode_key b = strip t)
  /\ (utf8_decode Strict b = None ->
      decode_field b = latin1_decode b /\ length (decode_field b) = length b)
  /\ (Forall (fun x => Byte.to_N x < 128) b ->
      decode_field b = map Byte.to_N b
      /\ decode_key b = strip (map Byte.to_N b)).
Proof.
  assert (forall t, utf8_decode Strict b = Some t ->
                    decode_field b = t /\ decode_key b = strip t) as Hwf.
  { intros t Ht. unfold decode_field, decode_key. rewrite Ht.
    unfold utf8_decode in *. by rewrite (utf8_strict_ignore _ _ _ Ht). }
  split; [done|]. split.
  - intros Hnone. unfold decode_field. rewrite Hnone.
    split; [done|]. unfold latin1_decode. apply length_map.
  - intros Hascii. apply Hwf. by apply utf8_ascii.
Qed.

(** *** Slices *)

(** Linear arithmetic with division and remainder by constants. *)
Ltac div_lia := zify; Z.to_euclidean_division_equations; lia.

Lemma len_app {A : Type} (a b : list A) : len (a ++ b) = len a + len b.
Proof. unfold len. rewrite length_app. lia. Qed.

Lemma len_cons {A : Type} (x : A) (l : list A) : len (x :: l) = 1 + len l.
Proof. unfold len. simpl. lia. Qed.

Lemma slice_to_zero {A : Type} (l : list A) (lo : N) : slice l lo 0 = [].
Proof. by destruct l. Qed.

(** A slice that starts behind a prefix does not see the prefix. *)
Lemma slice_app_ge {A : Type} (h rest : list A) :
  forall lo hi,
    len h <= lo ->
    slice (h ++ rest) lo hi = slice rest (lo - len h) (hi - len h).
Proof.
  induction h as [|x h IH]; intros lo hi Hlo.
  - unfold len. simpl. by rewrite !N.sub_0_r.
  - rewrite len_cons in *. cbn [app slice].
    destruct (N.eqb_spec hi 0) as [->|Hhi].
    { by rewrite slice_to_zero. }
    destruct (N.eqb_spec lo 0) as [->|_]; [lia|].
    rewrite IH by lia. f_equal; lia.
Qed.

Lemma slice_prefix {A : Type} (xs post : list A) :
  slice (xs ++ post) 0 (len xs) = xs.
Proof.
  induction xs as [|x xs IH]; [apply slice_to_zero|].
  rewrite len_cons. cbn [app slice].
  destruct (N.eqb_spec (1 + len xs) 0); [lia|]. cbn.
  replace (N.pred (1 + len xs)) with (len xs) by lia. by rewrite IH.
Qed.

Lemma slice_mid {A : Type} (pre xs post : list A) (lo hi : N) :
  lo = len pre -> hi = lo + len xs ->
  slice (pre ++ xs ++ post) lo hi = xs.
Proof.
  intros -> ->. rewrite slice_app_ge by lia.
  rewrite N.sub_diag. replace (len pre + len xs - len pre) with (len xs) by lia.
  apply slice_prefix.
Qed.

(** *** The header *)

Lemma same_from_app (h1 h2 rest : list byte) :
  length h1 = length h2 -> same_from (len h1) (h1 ++ rest) (h2 ++ rest).
Proof.
  intros Hlen. split; [by rewrite !length_app, Hlen|].
  intros lo hi Hlo. rewrite !slice_app_ge; unfold len in *; rewrite <- ?Hlen;
    done.
Qed.

Section SameFrom.
Context (n : N) (d1 d2 : list byte) (Hsame : same_from n d1 d2).

Lemma same_len : len d1 = len d2.
Proof. unfold len. by rewrite (proj1 Hsame). Qed.

Lemma same_fuel : inner_fuel d1 = inner_fuel d2.
Proof. unfold inner_fuel. by rewrite (proj1 Hsame). Qed.

Lemma same_word (pos : N) : n <= pos -> word_at d1 pos = word_at d2 pos.
Proof. intros H. unfold word_at. by rewrite (proj2 Hsame). Qed.

Lemma same_skip_zero_words (fuel : nat) :
  forall pos, n <= pos -> skip_zero_words fuel d1 pos = skip_zero_words fuel d2 pos.
Proof.
  induction fuel as [|f IH]; intros pos Hpos; [done|].
  cbn [skip_zero_words]. rewrite same_len, (same_word pos Hpos).
  destruct ((pos <? len d2) && (word_at d2 pos =? 0)); [|done].
  apply IH. lia.
Qed.

Lemma same_read_fields (fuel : nat) :
  forall count pos fields,
    n <= pos ->
    read_fields fuel d1 count pos fields = read_fields fuel d2 count pos fields.
Proof.
  induction fuel as [|f IH]; intros count pos fields Hpos; [done|].
  cbn [read_fields]. rewrite same_len, (same_word pos Hpos).
  destruct (count =? 0); [done|]. destruct (len d2 <? pos + 4); [done|].
  rewrite (proj2 Hsame) by lia. apply IH.
  pose proof (align4_ge (pos + 4 + word_at d2 pos)). lia.
Qed.

Lemma same_read_key_len (pos : N) :
  n <= pos -> read_key_len d1 pos = read_key_len d2 pos.
Proof.
  intros Hpos. unfold read_key_len.
  rewrite same_fuel, same_len, (same_word pos Hpos).
  rewrite same_skip_zero_words by lia.
  destruct (word_at d2 pos =? 0); [|done].
  destruct (skip_zero_words_total d2 (inner_fuel d2) (pos + 4)
              (inner_fuel_enough d2 (pos + 4))) as (pos' & -> & Hle).
  cbn. by rewrite (same_word pos') by lia.
Qed.

Lemma same_read_fields_count (pos : N) :
  n <= pos -> read_fields_count d1 pos = read_fields_count d2 pos.
Proof.
  intros Hpos. unfold read_fields_count.
  rewrite same_len, (same_word pos Hpos). by rewrite (same_word (pos + 4)) by lia.
Qed.

Lemma same_loop_body (fp : option (list regex)) (pos : N)
    (records : list (list N * list (list N))) :
  n <= pos -> loop_body d1 fp (pos, records) = loop_body d2 fp (pos, records).
Proof.
  intros Hpos. unfold loop_body.
  pose proof (align4_ge pos) as Ha.
  rewrite same_len, same_fuel, same_read_key_len by lia.
  destruct (len d2 <? align4 pos + 4); [done|].
  destruct (read_key_len_total d2 (align4 pos)) as (kl & -> & Hkl).
  cbn -[read_fields inner_fuel]. destruct kl as [p|[key_len p]]; [done|].
  pose proof (align4_ge (p + key_len)) as Hb.
  rewrite (proj2 Hsame) by lia.
  rewrite same_read_fields_count by lia.
  destruct (len d2 <? align4 (p + key_len) + 4); [done|].
  pose proof (read_fields_count_ge d2 (align4 (p + key_len))) as Hc.
  destruct (read_fields_count d2 (align4 (p + key_len))) as [q|[cnt q]];
    [done|].
  by rewrite same_read_fields by lia.
Qed.

Lemma same_parse_loop (fp : option (list regex)) (fuel : nat) :
  forall st, n <= st.1 -> parse_loop fuel d1 fp st = parse_loop fuel d2 fp st.
Proof.
  induction fuel as [|f IH]; intros [pos records] Hpos; [done|].
  cbn [parse_loop fst] in *. rewrite same_len, same_loop_body by done.
  destruct (pos <? len d2); [|done].
  destruct (loop_body_total d2 fp pos records) as (out & -> & Hout).
  destruct out as [st|[pos' records']]; [done|].
  apply IH. cbn. lia.
Qed.
End SameFrom.

(** X8: the 60 bytes of the header are skipped unread: two buffers that
    differ only in their first 60 bytes decode to the same records. *)
Theorem header_is_ignored (h1 h2 rest : list byte) (fp : option (list regex)) :
  length h1 = 60%nat -> length h2 = 60%nat ->
  parse_i2_asset_file (Some (h1 ++ rest)) fp
  = parse_i2_asset_file (Some (h2 ++ rest)) fp.
Proof.
  intros H1 H2. unfold parse_i2_asset_file, decode_records.
  assert (same_from 60 (h1 ++ rest) (h2 ++ rest)) as Hsame.
  { replace 60 with (len h1) by (unfold len; by rewrite H1).
    apply same_from_app. by rewrite H1, H2. }
  rewrite (proj1 Hsame).
  by rewrite (same_parse_loop 60 _ _ Hsame fp _ (60, [])).
Qed.

(** The two records behind a header of zero bytes and behind a header of
    FF bytes. *)
Lemma header_is_ignored_witness :
  parse_i2_asset_file (Some (zeros 60 ++ drop 60 two_records)) None
  = parse_i2_asset_file (Some (repeat xff 60 ++ drop 60 two_records)) None.
Proof.
  apply (header_is_ignored (zeros 60) (repeat xff 60)); reflexivity.
Defined.

(** *** Reading back a laid out table *)

Lemma to_N_byte_of (m : N) : m < 256 -> Byte.to_N (byte_of m) = m.
Proof.
  intros H. unfold byte_of. destruct (Byte.of_N m) as [b|] eqn:Hb.
  - by apply Byte.to_of_N.
  - apply Byte.of_N_None_iff in Hb. lia.
Qed.

Lemma int_le32 (n : N) : n < 4294967296 -> int_from_bytes_little (le32 n) = n.
Proof.
  intros H. unfold le32. cbn [int_from_bytes_little].
  rewrite !to_N_byte_of by div_lia. div_lia.
Qed.

Lemma len_le32 (n : N) : len (le32 n) = 4.
Proof. reflexivity. Qed.

Lemma len_padding (n : N) : len (padding n) = align4 n - n.
Proof.
  unfold padding, zeros, len. rewrite repeat_length.
  pose proof (align4_ge n). lia.
Qed.

Lemma align4_add (a b : N) : a mod 4 = 0 -> align4 (a + b) = a + align4 b.
Proof.
  intros Ha. unfold align4.
  destruct (N.eqb_spec ((a + b) mod 4) 0), (N.eqb_spec (b mod 4) 0); div_lia.
Qed.

Lemma align4_mod (n : N) : n mod 4 = 0 -> align4 n = n.
Proof. intros H. unfold align4. by rewrite H. Qed.

Lemma word_at_mid (pre post : list byte) (n pos : N) :
  pos = len pre -> n < 4294967296 ->
  word_at (pre ++ le32 n ++ post) pos = n.
Proof.
  intros -> Hn. unfold word_at.
  rewrite (slice_mid pre (le32 n) post); [by apply int_le32|done|].
  by rewrite len_le32.
Qed.

Lemma len_encode_field (f : list byte) :
  len (encode_field f) = 4 + align4 (len f).
Proof.
  unfold encode_field. rewrite !len_app, len_le32, len_padding.
  pose proof (align4_ge (len f)). lia.
Qed.

Lemma len_fields_mod (fs : list (list byte)) :
  len (concat (map encode_field fs)) mod 4 = 0.
Proof.
  induction fs as [|f fs IH]; [done|]. cbn [map concat].
  rewrite len_app, len_encode_field.
  pose proof (align4_aligned (len f)). div_lia.
Qed.

Lemma decode_field_empty : decode_field [] = [].
Proof. reflexivity. Qed.

(** The field loop on laid out fields reads every field and stops behind
    the last. *)
Lemma read_fields_encoded (fs : list (list byte)) :
  forall (fuel : nat) (pre post : list byte) (acc : list (list N)),
    len pre mod 4 = 0 ->
    Forall (fun f => len f < 4294967296) fs ->
    (length fs < fuel)%nat ->
    read_fields fuel (pre ++ concat (map encode_field fs) ++ post)
      (len fs) (len pre) acc
    = Some (len pre + len (concat (map encode_field fs)),
            acc ++ map (fun f => sanitize_text (decode_field f)) fs).
Proof.
  induction fs as [|f fs IH]; intros fuel pre post acc Hpre Hfs Hfuel.
  - destruct fuel as [|fuel]; [simpl in Hfuel; lia|].
    cbn. rewrite app_nil_r. f_equal. f_equal. unfold len. simpl. lia.
  - destruct fuel as [|fuel]; [simpl in Hfuel; lia|].
    apply Forall_cons in Hfs as [Hf Hfs].
    cbn [read_fields map concat].
    set (data := pre ++ (encode_field f ++ concat (map encode_field fs)) ++ post).
    assert (data = pre ++ le32 (len f)
                   ++ (f ++ padding (len f) ++ concat (map encode_field fs) ++ post))
      as Hdata1.
    { unfold data, encode_field. by rewrite <- !app_assoc. }
    assert (data = (pre ++ le32 (len f))
                   ++ f ++ (padding (len f) ++ concat (map encode_field fs) ++ post))
      as Hdata2.
    { unfold data, encode_field. by rewrite <- !app_assoc. }
    assert (data = (pre ++ encode_field f) ++ concat (map encode_field fs) ++ post)
      as Hdata3.
    { unfold data. by rewrite <- !app_assoc. }
    assert (word_at data (len pre) = len f) as Hword.
    { rewrite Hdata1. by apply word_at_mid. }
    assert (slice data (len pre + 4) (len pre + 4 + len f) = f) as Hslice.
    { rewrite Hdata2. apply slice_mid; [|done]. by rewrite len_app, len_le32. }
    assert (len pre + 4 <= len data) as Hlen.
    { rewrite Hdata1, !len_app, len_le32. lia. }
    rewrite len_cons. destruct (N.eqb_spec (1 + len fs) 0); [lia|].
    destruct (N.ltb_spec (len data) (len pre + 4)); [lia|].
    rewrite Hword, Hslice.
    replace (if 0 <? len f then decode_field f else []) with (decode_field f).
    2:{ destruct (N.ltb_spec 0 (len f)) as [|H0]; [done|].
        destruct f; [done|]. rewrite len_cons in H0. lia. }
    replace (N.pred (1 + len fs)) with (len fs) by lia.
    replace (align4 (len pre + 4 + len f)) with (len (pre ++ encode_field f)).
    2:{ rewrite len_app, len_encode_field, align4_add by div_lia. lia. }
    rewrite Hdata3, IH; [| |done|simpl in Hfuel; lia].
    + f_equal. f_equal.
      * rewrite !len_app. lia.
      * by rewrite <- app_assoc.
    + rewrite len_app, len_encode_field.
      pose proof (align4_aligned (len f)). div_lia.
Qed.

Lemma fields_count_le (fs : list (list byte)) :
  (length fs <= length (concat (map encode_field fs)))%nat.
Proof.
  induction fs as [|f fs IH]; [done|]. cbn [map concat].
  rewrite length_app. unfold encode_field at 1. rewrite length_app.
  simpl. lia.
Qed.

Lemma len_encode_record (r : list byte * list (list byte)) :
  len (encode_record r)
  = 4 + align4 (len r.1) + 4 + len (concat (map encode_field r.2)) + 4.
Proof.
  unfold encode_record. rewrite !len_app, !len_le32, len_padding.
  pose proof (align4_ge (len r.1)). lia.
Qed.

Lemma len_encode_record_mod (r : list byte * list (list byte)) :
  len (encode_record r) mod 4 = 0.
Proof.
  rewrite len_encode_record.
  pose proof (align4_aligned (len r.1)).
  pose proof (len_fields_mod r.2). div_lia.
Qed.

Lemma bind_some {A B : Type} (x : A) (f : A -> option B) : Some x ≫= f = f x.
Proof. reflexivity. Qed.

(** One pass of the loop on a laid out record appends the record and
    stops behind its terminator. *)
Lemma loop_body_encoded (r : list byte * list (list byte))
    (pre post : list byte) (records : list (list N * list (list N))) :
  len pre mod 4 = 0 -> encodable r ->
  loop_body (pre ++ encode_record r ++ post) None (len pre, records)
  = Some (Continue (len pre + len (encode_record r), records ++ [decoded r])).
Proof.
  destruct r as [key fs]. intros Hpre (Hkey & Hklen & Hfs & Hcount & Hflen).
  cbn [fst snd] in *.
  set (data := pre ++ encode_record (key, fs) ++ post).
  set (body := concat (map encode_field fs)).
  assert (data = pre ++ le32 (len key)
                 ++ (key ++ padding (len key) ++ le32 (len fs) ++ body
                     ++ le32 0 ++ post)) as Hdata1.
  { unfold data, encode_record. cbn [fst snd]. by rewrite <- !app_assoc. }
  assert (data = (pre ++ le32 (len key))
                 ++ key ++ (padding (len key) ++ le32 (len fs) ++ body
                            ++ le32 0 ++ post)) as Hdata2.
  { rewrite Hdata1. by rewrite <- !app_assoc. }
  assert (data = (pre ++ le32 (len key) ++ key ++ padding (len key))
                 ++ le32 (len fs) ++ (body ++ le32 0 ++ post)) as Hdata3.
  { rewrite Hdata1. by rewrite <- !app_assoc. }
  assert (data = (pre ++ le32 (len key) ++ key ++ padding (len key)
                  ++ le32 (len fs))
                 ++ body ++ (le32 0 ++ post)) as Hdata4.
  { rewrite Hdata1. by rewrite <- !app_assoc. }
  pose proof (align4_ge (len key)) as Hage.
  pose proof (align4_aligned (len key)) as Hamod.
  assert (len key <> 0) as Hk0.
  { destruct key; [done|]. rewrite len_cons. lia. }
  assert (len fs <> 0) as Hf0.
  { destruct fs; [done|]. rewrite len_cons. lia. }
  assert (len data = len pre + len (encode_record (key, fs)) + len post) as Hlen.
  { unfold data. rewrite !len_app. lia. }
  rewrite len_encode_record in Hlen. cbn [fst snd] in Hlen. fold body in Hlen.
  set (pos2 := len pre + 4 + align4 (len key)).
  assert (pos2 = len (pre ++ le32 (len key) ++ key ++ padding (len key)))
    as Hpos2.
  { unfold pos2. rewrite !len_app, len_le32, len_padding. lia. }
  assert (pos2 + 4
          = len (pre ++ le32 (len key) ++ key ++ padding (len key)
                 ++ le32 (len fs))) as Hpos3.
  { rewrite Hpos2, !len_app, !len_le32. lia. }
  assert (word_at data (len pre) = len key) as Hword1.
  { rewrite Hdata1. by apply word_at_mid. }
  assert (word_at data pos2 = len fs) as Hword2.
  { rewrite Hdata3. by apply word_at_mid. }
  assert (slice data (len pre + 4) (len pre + 4 + len key) = key) as Hslice.
  { rewrite Hdata2. apply slice_mid; [|done]. by rewrite len_app, len_le32. }
  assert (read_fields (inner_fuel data) data (len fs) (pos2 + 4) []
          = Some (pos2 + 4 + len body,
                  map (fun f => sanitize_text (decode_field f)) fs)) as Hfields.
  { assert (length fs < inner_fuel data)%nat as Hfuel.
    { unfold inner_fuel. rewrite Hdata4, !length_app.
      pose proof (fields_count_le fs). unfold body. lia. }
    revert Hfuel. generalize (inner_fuel data). intros fuel Hfuel.
    rewrite Hpos3, Hdata4. unfold body.
    rewrite read_fields_encoded; [done| |done..].
    rewrite <- Hpos3. unfold pos2. div_lia. }
  unfold loop_body. rewrite (align4_mod _ Hpre).
  destruct (N.ltb_spec (len data) (len pre + 4)); [lia|].
  assert (read_key_len data (len pre) = Some (inr (len key, len pre + 4))) as ->.
  { unfold read_key_len. rewrite Hword1.
    by destruct (N.eqb_spec (len key) 0). }
  rewrite bind_some. cbv beta iota. rewrite Hslice.
  assert (align4 (len pre + 4 + len key) = pos2) as ->.
  { unfold pos2. rewrite align4_add by div_lia. lia. }
  destruct (N.ltb_spec (len data) (pos2 + 4)); [unfold pos2 in *; lia|].
  assert (read_fields_count data pos2 = inr (len fs, pos2 + 4)) as ->.
  { unfold read_fields_count. rewrite Hword2.
    by destruct (N.eqb_spec (len fs) 0). }
  rewrite Hfields, bind_some. cbv beta iota.
  destruct (N.leb_spec (pos2 + 4 + len body + 4) (len data));
    [|unfold pos2 in *; lia].
  do 3 f_equal. rewrite len_encode_record. cbn [fst snd]. fold body.
  unfold pos2. lia.
Qed.

Lemma records_count_le (rs : list (list byte * list (list byte))) :
  (length rs <= length (concat (map encode_record rs)))%nat.
Proof.
  induction rs as [|r rs IH]; [done|]. cbn [map concat].
  rewrite length_app. unfold encode_record at 1. rewrite length_app.
  simpl. lia.
Qed.

Lemma parse_loop_encoded (rs : list (list byte * list (list byte))) :
  forall (fuel : nat) (pre : list byte) (records : list (list N * list (list N))),
    len pre mod 4 = 0 ->
    Forall encodable rs ->
    (length rs < fuel)%nat ->
    parse_loop fuel (pre ++ concat (map encode_record rs)) None (len pre, records)
    = Some (len (pre ++ concat (map encode_record rs)),
            records ++ map decoded rs).
Proof.
  induction rs as [|r rs IH]; intros fuel pre records Hpre Hrs Hfuel.
  - destruct fuel as [|fuel]; [simpl in Hfuel; lia|].
    cbn [parse_loop map concat fst]. rewrite !app_nil_r.
    by rewrite N.ltb_irrefl.
  - destruct fuel as [|fuel]; [simpl in Hfuel; lia|].
    apply Forall_cons in Hrs as [Hr Hrs].
    cbn [parse_loop map concat fst].
    pose proof (len_encode_record r) as Hlen.
    destruct (N.ltb_spec (len pre)
                (len (pre ++ encode_record r ++ concat (map encode_record rs))))
      as [_|Hge]; [|rewrite !len_app in Hge; lia].
    rewrite loop_body_encoded by done.
    replace (len pre + len (encode_record r)) with (len (pre ++ encode_record r))
      by apply len_app.
    replace (pre ++ encode_record r ++ concat (map encode_record rs))
      with ((pre ++ encode_record r) ++ concat (map encode_record rs))
      by (by rewrite <- app_assoc).
    rewrite IH; [|rewrite len_app|done|simpl in Hfuel; lia].
    + do 2 f_equal. by rewrite <- app_assoc.
    + pose proof (len_encode_record_mod r). div_lia.
Qed.

(** X9: the decoder reads back a table that is laid out as it expects it.
    For a header of 60 bytes followed by records, each laid out as the key
    length, the key, padding, the field count, the fields (length, bytes,
    padding) and a terminator word, with keys and field lists that are not
    empty: the loop appends one record per laid out record, in their order,
    with the decoded key and the decoded and sanitized fields. *)
Theorem decoder_reads_back (header : list byte)
    (rs : list (list byte * list (list byte))) :
  length header = 60%nat ->
  Forall encodable rs ->
  decode_records (encode_table header rs) None = Some (map decoded rs)
  /\ parse_i2_asset_file (Some (encode_table header rs)) None
     = Returned (sort_by_key (map decoded rs), LANGUAGES).
Proof.
  intros Hh Hrs.
  assert (decode_records (encode_table header rs) None = Some (map decoded rs))
    as H.
  { unfold decode_records, encode_table.
    replace 60 with (len header) by (unfold len; by rewrite Hh).
    rewrite parse_loop_encoded; [done| |done|].
    - unfold len. by rewrite Hh.
    - rewrite length_app. pose proof (records_count_le rs). lia. }
  split; [done|]. unfold parse_i2_asset_file. by rewrite H.
Qed.

(** The table of the records foo = [A; B] and bar = [C]. *)
Lemma decoder_reads_back_witness :
  parse_i2_asset_file (Some (encode_table (zeros 60) two_byte_records)) None
  = Returned ([(lit "bar", [lit "C"]); (lit "foo", [lit "A"; lit "B"])], LANGUAGES).
Proof.
  refine (proj2 (decoder_reads_back (zeros 60) two_byte_records _ _)).
  - reflexivity.
  - repeat constructor; done.
Defined.

(** ** The alias resolver *)

(** One call of [resolve] keeps the aliases of the resolved map in step
    with their targets, does not touch the ids on the chain above it, and
    answers the value that it has stored. *)
Lemma resolve_consistent (raw : gmap (list N) (list N)) (fuel : nat) :
  forall (m : gmap (list N) (list N)) (visited : gset (list N))
         (key : list N) (m' : gmap (list N) (list N)) (r r0 : list N),
    resolve fuel raw m visited key = Some (m', r) ->
    consistent raw m ∅ r0 ->
    consistent raw m' visited r
    /\ (forall u, u ∈ visited -> m !! u = None -> m' !! u = None)
    /\ (key ∈ dom m' -> m' !! key = Some r)
    /\ (key ∈ dom m' \/ key ∈ visited).
Proof.
  induction fuel as [|f IH]; intros m visited key m' r r0 Hres Hcons; [done|].
  assert (forall r', consistent raw m visited r') as Hweak.
  { intros r' k ref v Hk Hl. destruct (Hcons k ref v Hk Hl) as [?|[Hin _]];
      [by left|by apply not_elem_of_empty in Hin]. }
  cbn [resolve] in Hres. destruct (m !! key) as [v|] eqn:Hm.
  { injection Hres as <- <-. repeat split; try done.
    left. apply elem_of_dom. by eexists. }
  destruct (decide (key ∈ visited)) as [Hin|Hnin].
  { injection Hres as <- <-. repeat split; try done.
    - intros Hk. apply elem_of_dom in Hk as [? Hk]. congruence.
    - by right. }
  destruct (alias_of (raw_get raw key)) as [ref|] eqn:Href.
  - destruct (resolve f raw m ({[key]} ∪ visited) ref) as [[m1 r1]|] eqn:Hrec;
      [|done].
    cbn in Hres. injection Hres as <- <-.
    assert (link raw key ref) as Hlink by done.
    destruct (IH _ _ _ _ _ _ Hrec Hcons) as (Hc1 & Hn1 & Hr1 & Hin1).
    assert (m1 !! key = None) as Hkey1.
    { apply Hn1; [|done]. apply elem_of_union. left. by apply elem_of_singleton. }
    repeat split.
    + intros k ref' v. rewrite lookup_insert. case_decide as Hk.
      * intros [= <-] Hl. subst k.
        rewrite (link_functional raw _ _ _ Hl Hlink).
        destruct (decide (key = ref)) as [<-|Hne];
          [left; by rewrite lookup_insert_eq|].
        rewrite lookup_insert_ne by done.
        destruct Hin1 as [Hd|Hd].
        -- left. by apply Hr1.
        -- apply elem_of_union in Hd as [Hd|Hd];
             [apply elem_of_singleton in Hd; congruence|by right].
      * intros Hv Hl. destruct (decide (key = ref')) as [<-|Hne].
        -- rewrite lookup_insert_eq.
           destruct (Hc1 k key v Hv Hl) as [?|[_ ->]]; [congruence|by left].
        -- rewrite lookup_insert_ne by done.
           destruct (Hc1 k ref' v Hv Hl) as [?|[Hd ->]]; [by left|].
           apply elem_of_union in Hd as [Hd|Hd];
             [apply elem_of_singleton in Hd; congruence|by right].
    + intros u Hu Hmu. rewrite lookup_insert_ne by congruence.
      apply Hn1; [|done]. apply elem_of_union. by right.
    + intros _. apply lookup_insert_eq.
    + left. apply elem_of_dom. rewrite lookup_insert_eq. by eexists.
  - injection Hres as <- <-. repeat split.
    + intros k ref' v. rewrite lookup_insert. case_decide as Hk.
      * intros _ Hl. subst k. unfold link, alias_ref in Hl. congruence.
      * intros Hv Hl. destruct (Hweak (raw_get raw key) k ref' v Hv Hl) as [Hr|?];
          [|by right].
        left. rewrite lookup_insert_ne; [done|]. congruence.
    + intros u Hu Hmu. rewrite lookup_insert_ne by congruence. done.
    + intros _. apply lookup_insert_eq.
    + left. apply elem_of_dom. rewrite lookup_insert_eq. by eexists.
Qed.

Lemma resolve_keys_consistent (raw : gmap (list N) (list N)) (fuel : nat)
    (ks : list (list N)) :
  forall (m m' : gmap (list N) (list N)),
    resolve_keys fuel raw m ks = Some m' ->
    consistent raw m ∅ [] -> consistent raw m' ∅ [].
Proof.
  induction ks as [|k ks IH]; intros m m' Hres Hc; [by injection Hres as <-|].
  cbn [resolve_keys] in Hres.
  destruct (resolve fuel raw m ∅ k) as [[m1 r1]|] eqn:Hk; [|done].
  cbn in Hres. apply (IH _ _ Hres).
  destruct (resolve_consistent raw fuel _ _ _ _ _ [] Hk Hc) as (Hc1 & _).
  intros k' ref v Hv Hl. destruct (Hc1 k' ref v Hv Hl) as [?|[Hin _]];
    [by left|by apply not_elem_of_empty in Hin].
Qed.

(** X10: in the map that the eager pass returns every alias has the value
    of the id that it refers to, whatever the raw map (cycles included),
    the order of the pass and the room for nested calls. *)
Theorem alias_has_value_of_target (limit : nat) (raw : gmap (list N) (list N))
    (ks : list (list N)) (resolved : gmap (list N) (list N)) :
  resolve_all limit raw ks = Some resolved ->
  forall k ref v,
    resolved !! k = Some v -> link raw k ref -> resolved !! ref = Some v.
Proof.
  intros Hres.
  assert (consistent raw resolved ∅ []) as Hc.
  { apply (resolve_keys_consistent raw _ ks ∅ resolved Hres).
    intros k ref v Hk. by rewrite lookup_empty in Hk. }
  intros k ref v Hv Hl. destruct (Hc k ref v Hv Hl) as [?|[Hin _]]; [done|].
  by apply not_elem_of_empty in Hin.
Qed.

(** On the cycle of x and y, visited from x: y, to which x refers, has
    the sentinel that x has. *)
Lemma alias_has_value_of_target_witness :
  exists resolved,
    resolve_all 3 cyclic_raw [lit "x"; lit "y"] = Some resolved
    /\ resolved !! lit "y" = Some (lit "[Cyclic alias: x]").
Proof.
  assert (resolve_all 3 cyclic_raw [lit "x"; lit "y"]
          = Some (<[lit "x" := lit "[Cyclic alias: x]"]>
                    (<[lit "y" := lit "[Cyclic alias: x]"]> ∅))) as Hres
    by (vm_compute; reflexivity).
  eexists. split; [exact Hres|].
  apply (alias_has_value_of_target 3 cyclic_raw [lit "x"; lit "y"] _ Hres
           (lit "x") (lit "y")).
  - vm_compute. reflexivity.
  - vm_compute. reflexivity.
Defined.

(** X11: what the map holds that the eager pass returns.  Every value is
    either the value at which the alias chain of its id ends, or the
    sentinel of an id on a cycle that the chain runs into; an id whose
    chain ends has the end of the chain as value; an id that was visited
    and whose raw value is no alias keeps its raw value. *)
Theorem resolved_values (limit : nat) (raw : gmap (list N) (list N))
    (ks : list (list N)) (resolved : gmap (list N) (list N)) :
  resolve_all limit raw ks = Some resolved ->
  (forall k v,
      resolved !! k = Some v ->
      ends_at raw k v
      \/ exists c, rtc (link raw) k c /\ tc (link raw) c c
                   /\ v = cyclic_alias c)
  /\ (forall k v,
        k ∈ dom resolved -> ends_at raw k v -> resolved !! k = Some v)
  /\ (forall k v,
        k ∈ ks -> raw !! k = Some v -> alias_of v = None ->
        resolved !! k = Some v).
Proof.
  intros Hres.
  destruct (resolve_all_spec limit raw ks resolved Hres) as (Hsound & Hdom).
  split; [|split].
  - intros k v Hv. destruct (Hsound k v Hv) as [?|(c & [? ?] & ?)];
      [by left|right; by exists c].
  - intros k v. by apply resolved_value.
  - intros k v Hk Hraw Hv. apply (resolved_value raw); [done| |].
    + apply Hdom. by exists k.
    + exists 1%nat. unfold chase, raw_get. rewrite Hraw. cbn. by rewrite Hv.
Qed.

(** On the chain a, b, c, visited from a: c keeps its raw value. *)
Lemma resolved_values_witness :
  exists resolved,
    resolve_all 3 chain_raw [lit "a"; lit "b"; lit "c"] = Some resolved
    /\ resolved !! lit "c" = Some (lit "hello").
Proof.
  assert (resolve_all 3 chain_raw [lit "a"; lit "b"; lit "c"]
          = Some (<[lit "a" := lit "hello"]>
                    (<[lit "b" := lit "hello"]> (<[lit "c" := lit "hello"]> ∅))))
    as Hres by (vm_compute; reflexivity).
  eexists. split; [exact Hres|].
  apply (resolved_values 3 chain_raw [lit "a"; lit "b"; lit "c"] _ Hres).
  - set_solver.
  - vm_compute. reflexivity.
  - vm_compute. reflexivity.
Defined.

Lemma resolve_keys_cached (raw : gmap (list N) (list N)) (fuel : nat)
    (ks : list (list N)) (m : gmap (list N) (list N)) :
  (forall k, k ∈ ks -> k ∈ dom m) ->
  resolve_keys (S fuel) raw m ks = Some m.
Proof.
  induction ks as [|k ks IH]; intros Hks; [done|].
  cbn [resolve_keys resolve].
  destruct (m !! k) as [v|] eqn:Hk.
  - cbn. apply IH. intros k' Hk'. apply Hks, elem_of_cons. by right.
  - assert (k ∈ dom m) as Hin by (apply Hks, elem_of_cons; by left).
    apply elem_of_dom in Hin as [? Hin]. congruence.
Qed.

Lemma resolve_grows (raw : gmap (list N) (list N)) (fuel : nat) :
  forall (m : gmap (list N) (list N)) (visited : gset (list N))
         (key : list N) (m' : gmap (list N) (list N)) (r : list N),
    resolve fuel raw m visited key = Some (m', r) -> m ⊆ m'.
Proof.
  induction fuel as [|f IH]; intros m visited key m' r Hres; [done|].
  cbn [resolve] in Hres. destruct (m !! key) as [v|] eqn:Hm.
  { by injection Hres as <- <-. }
  destruct (decide (key ∈ visited)); [by injection Hres as <- <-|].
  destruct (alias_of (raw_get raw key)) as [ref|].
  - destruct (resolve f raw m ({[key]} ∪ visited) ref) as [[m1 r1]|] eqn:Hrec;
      [|done].
    cbn in Hres. injection Hres as <- <-.
    apply insert_subseteq_r; [done|]. by apply (IH _ _ _ _ _ Hrec).
  - injection Hres as <- <-. by apply insert_subseteq.
Qed.

Lemma resolve_keys_grows (raw : gmap (list N) (list N)) (fuel : nat)
    (ks : list (list N)) :
  forall m m' : gmap (list N) (list N),
    resolve_keys fuel raw m ks = Some m' -> m ⊆ m'.
Proof.
  induction ks as [|k ks IH]; intros m m' Hres; [by injection Hres as <-|].
  cbn [resolve_keys] in Hres.
  destruct (resolve fuel raw m ∅ k) as [[m1 r1]|] eqn:Hk; [|done].
  cbn in Hres. transitivity m1; [by eapply resolve_grows|by apply IH].
Qed.

(** X12: the pass is idempotent, and resolved values are final.  A
    second pass over the same ids, started from the map that the first
    pass returned, returns that map unchanged, and needs room for its own
    call only; and a pass started from any map of cached values keeps
    every cached value in the map that it returns. *)
Theorem resolution_idempotent (limit : nat) (raw : gmap (list N) (list N))
    (ks : list (list N)) (resolved : gmap (list N) (list N)) :
  resolve_all limit raw ks = Some resolved ->
  (forall depth, resolve_keys (S depth) raw resolved ks = Some resolved)
  /\ (forall depth cache resolved',
        resolve_keys depth raw cache ks = Some resolved' -> cache ⊆ resolved').
Proof.
  intros Hres. split.
  - intros depth. apply resolve_keys_cached.
    destruct (resolve_all_spec limit raw ks resolved Hres) as (_ & Hdom).
    intros k Hk. apply Hdom. by exists k.
  - intros depth cache resolved'. apply resolve_keys_grows.
Qed.

(** The chain a, b, c, resolved with room for three nested calls and then
    once more with room for one. *)
Lemma resolution_idempotent_witness :
  exists resolved,
    resolve_all 3 chain_raw [lit "a"; lit "b"; lit "c"] = Some resolved
    /\ resolve_keys 1 chain_raw resolved [lit "a"; lit "b"; lit "c"]
       = Some resolved.
Proof.
  assert (resolve_all 3 chain_raw [lit "a"; lit "b"; lit "c"]
          = Some (<[lit "a" := lit "hello"]>
                    (<[lit "b" := lit "hello"]> (<[lit "c" := lit "hello"]> ∅))))
    as Hres by (vm_compute; reflexivity).
  eexists. split; [exact Hres|].
  apply (resolution_idempotent 3 chain_raw [lit "a"; lit "b"; lit "c"] _ Hres).
Defined.

(** *** The depth of the calls *)

Lemma resolve_S (raw : gmap (list N) (list N)) (depth : nat)
    (m : gmap (list N) (list N)) (visited : gset (list N)) (k : list N) :
  resolve (S depth) raw m visited k
  = match m !! k with
    | Some v => Some (m, v)
    | None =>
        if decide (k ∈ visited) then Some (m, cyclic_alias k)
        else
          match alias_of (raw_get raw k) with
          | Some ref =>
              '(m', r) ← resolve depth raw m ({[k]} ∪ visited) ref;
              Some (<[k := r]> m', r)
          | None => Some (<[k := raw_get raw k]> m, raw_get raw k)
          end
    end.
Proof. reflexivity. Qed.

Lemma resolve_adds_key (raw : gmap (list N) (list N)) (depth : nat)
    (m m' : gmap (list N) (list N)) (k r : list N) :
  resolve depth raw m ∅ k = Some (m', r) -> k ∈ dom m'.
Proof.
  destruct depth as [|f]; [done|]. cbn [resolve].
  destruct (m !! k) as [v|] eqn:Hm.
  { intros [= <- <-]. apply elem_of_dom. by eexists. }
  destruct (decide (k ∈ ∅)) as [Hin|_]; [by apply not_elem_of_empty in Hin|].
  destruct (alias_of (raw_get raw k)) as [ref|].
  - destruct (resolve f raw m ({[k]} ∪ ∅) ref) as [[m1 r1]|]; [|done].
    cbn. intros [= <- <-]. rewrite dom_insert_L. set_solver.
  - intros [= <- <-]. rewrite dom_insert_L. set_solver.
Qed.

(** A call on an id that is cached, or is no alias, or is on the chain
    above, needs no nested call. *)
Lemma resolve_at_once (raw : gmap (list N) (list N)) (depth : nat)
    (m : gmap (list N) (list N)) (visited : gset (list N)) (k : list N) :
  k ∈ dom m \/ alias_ref raw k = None ->
  is_Some (resolve (S depth) raw m visited k).
Proof.
  intros H. rewrite resolve_S. destruct (m !! k) as [v|] eqn:Hm; [by eexists|].
  destruct (decide (k ∈ visited)); [by eexists|].
  destruct H as [H|H].
  - apply elem_of_dom in H as [v Hv]. congruence.
  - unfold alias_ref in H. rewrite H. by eexists.
Qed.

Lemma resolve_keys_targets_first (raw : gmap (list N) (list N)) (depth : nat)
    (ks : list (list N)) :
  forall m : gmap (list N) (list N),
    (forall before k after ref,
        ks = before ++ k :: after -> link raw k ref ->
        ref ∈ dom m \/ ref ∈ before \/ alias_ref raw ref = None) ->
    is_Some (resolve_keys (S (S depth)) raw m ks).
Proof.
  induction ks as [|k ks IH]; intros m Hks; [by eexists|].
  cbn [resolve_keys].
  assert (is_Some (resolve (S (S depth)) raw m ∅ k)) as [[m1 r1] Hk].
  { rewrite resolve_S. destruct (m !! k) as [v|] eqn:Hm; [by eexists|].
    destruct (decide (k ∈ ∅)) as [Hin|_]; [by apply not_elem_of_empty in Hin|].
    destruct (alias_of (raw_get raw k)) as [ref|] eqn:Href; [|by eexists].
    destruct (resolve_at_once raw depth m ({[k]} ∪ ∅) ref) as [[m1 r1] ->];
      [|by eexists].
    destruct (Hks [] k ks ref eq_refl Href) as [?|[Hin|?]]; [by left| |by right].
    by apply elem_of_nil in Hin. }
  rewrite Hk. cbn [mbind option_bind]. apply IH.
  intros before k' after ref -> Hl.
  destruct (Hks (k :: before) k' after ref eq_refl Hl) as [Hin|[Hin|?]].
  - left. by apply (subseteq_dom _ _ (resolve_grows _ _ _ _ _ _ _ Hk)).
  - apply elem_of_cons in Hin as [->|Hin]; [|by right; left].
    left. by apply (resolve_adds_key _ _ _ _ _ _ Hk).
  - by right; right.
Qed.

(** A chain of aliases that is met at its head, with nothing of it
    cached, takes a nested call for each of its ids. *)
Lemma resolve_chain_depth (raw : gmap (list N) (list N)) (depth : nat) :
  forall (visited : gset (list N)) (k : list N) (ks : list (list N)),
    linked raw (k :: ks) -> NoDup (k :: ks) ->
    (forall k', k' ∈ k :: ks -> k' ∉ visited) ->
    (depth <= length ks)%nat ->
    resolve depth raw ∅ visited k = None.
Proof.
  induction depth as [|f IH]; intros visited k ks Hlinked Hnd Hvis Hdepth;
    [done|].
  destruct ks as [|k' ks]; [cbn in Hdepth; lia|].
  rewrite resolve_S, lookup_empty.
  destruct (decide (k ∈ visited)) as [Hin|_].
  { exfalso. apply (Hvis k); [by left|done]. }
  destruct Hlinked as [Hl Hlinked]. unfold link, alias_ref in Hl. rewrite Hl.
  apply NoDup_cons in Hnd as [Hk Hnd].
  rewrite (IH ({[k]} ∪ visited) k' ks); [done|done|done| |cbn in Hdepth; lia].
  intros k0 Hk0. apply not_elem_of_union. split.
  - intros ->%elem_of_singleton. done.
  - apply Hvis. by right.
Qed.

(** X26: the order of the pass decides how deep the calls nest.  When
    every alias is visited behind the id that it refers to (or refers to
    an id that is no alias), two nested calls are enough for the pass,
    however long the alias chains are.  When the pass starts at the head
    of a chain of aliases with more ids than the interpreter has room for
    nested calls, it raises RecursionError.  So on a long chain the pass
    returns in one order of the ids and raises in another. *)
Theorem depth_follows_order (limit : nat) (raw : gmap (list N) (list N))
    (ks : list (list N)) :
  ((2 <= limit)%nat -> targets_first raw ks ->
   is_Some (resolve_all limit raw ks))
  /\ (forall k chain rest,
        ks = k :: rest -> linked raw (k :: chain) -> NoDup (k :: chain) ->
        (limit <= length chain)%nat ->
        resolve_all limit raw ks = None).
Proof.
  split.
  - intros Hlimit Hks. destruct limit as [|[|depth]]; [lia..|].
    apply resolve_keys_targets_first.
    intros before k after ref Heq Hl. right. by apply (Hks before k after).
  - intros k chain rest -> Hlinked Hnd Hlimit.
    unfold resolve_all. cbn [resolve_keys].
    by rewrite (resolve_chain_depth raw limit ∅ k chain)
      by (done || (intros k' _; apply not_elem_of_empty)).
Qed.

(** The chain a, b, c with room for two nested calls: from c it is
    resolved, from a the pass raises. *)
Example chain_depth_by_order :
  is_Some (resolve_all 2 chain_raw [lit "c"; lit "b"; lit "a"])
  /\ resolve_all 2 chain_raw [lit "a"; lit "b"; lit "c"] = None.
Proof. split; [vm_compute; by eexists|vm_compute; reflexivity]. Qed.

(** X13: [load_language_map] on the rows of the CSV file.  It raises
    AttributeError exactly when a row lacks its English cell.  Otherwise
    the raw map that it resolves holds for every id the stripped text of
    the last row with that id, and each id of the raw map is visited once;
    it returns when the interpreter has room for more nested calls than
    the raw map has ids.  Whenever it returns, its result has a value for
    the stripped id of every row. *)
Theorem load_language_map_covers (limit : nat)
    (rows : list (list N * option (list N))) :
  (load_language_map limit rows = Raised AttributeError
   <-> exists rid, (rid, None) ∈ rows)
  /\ (forall raw_map,
        read_rows ∅ rows = Some raw_map ->
        (forall before rid eng after,
            rows = before ++ (rid, Some eng) :: after ->
            strip rid ∉ map (fun row => strip row.1) after ->
            raw_map !! strip rid = Some (strip eng))
        /\ key_order rows ≡ₚ elements (dom raw_map)
        /\ ((size raw_map < limit)%nat ->
            exists resolved, load_language_map limit rows = Returned resolved))
  /\ (forall resolved,
        load_language_map limit rows = Returned resolved ->
        forall row, row ∈ rows -> strip row.1 ∈ dom resolved).
Proof.
  split; [|split].
  - rewrite <- (read_rows_raises rows ∅). unfold load_language_map.
    destruct (read_rows ∅ rows) as [raw_map|]; [|done].
    by destruct (resolve_all limit raw_map (key_order rows)).
  - intros raw_map Hraw. split; [|split].
    + intros before rid eng after -> Hlast.
      rewrite read_rows_app in Hraw.
      destruct (read_rows ∅ before) as [m|]; [|done].
      cbn [mbind option_bind read_rows] in Hraw.
      rewrite (read_rows_later _ _ _ _ Hraw Hlast). apply lookup_insert_eq.
    + by apply key_order_read.
    + intros Hlimit. unfold load_language_map. rewrite Hraw.
      destruct (resolve_all_returns limit raw_map (key_order rows) Hlimit)
        as [resolved ->].
      by exists resolved.
  - intros resolved Hres row Hrow. unfold load_language_map in Hres.
    destruct (read_rows ∅ rows) as [raw_map|]; [|done].
    destruct (resolve_all limit raw_map (key_order rows)) as [m|] eqn:Hm;
      [|done].
    injection Hres as ->.
    apply (resolve_all_spec limit raw_map (key_order rows) resolved Hm).
    exists (strip row.1). split; [|done].
    unfold key_order.
    destruct (first_occurrences_spec (map (fun row => strip row.1) rows) ∅)
      as [_ Hin].
    apply Hin. split; [|apply not_elem_of_empty].
    apply list_elem_of_fmap. by exists row.
Qed.

(** ** The key classifier *)

(** Two texts with which the same text starts: one starts with the
    other. *)
Lemma startswith_comparable (p q s : list N) :
  startswith p s = true -> startswith q s = true ->
  startswith p q = true \/ startswith q p = true.
Proof.
  revert q s. induction p as [|a p IH]; intros q s Hp Hq; [by left|].
  destruct q as [|b q]; [by right|].
  destruct s as [|c s]; [done|]. cbn [startswith] in *.
  apply andb_true_iff in Hp as [Ha Hp]. apply andb_true_iff in Hq as [Hb Hq].
  apply N.eqb_eq in Ha as ->. apply N.eqb_eq in Hb as ->.
  rewrite N.eqb_refl. cbn. by apply (IH q s).
Qed.

(** Close a case in which an id starts with two of the prefixes of the
    rules at once. *)
Ltac exclusive :=
  match goal with
  | H1 : startswith (lit ?p) ?s = true, H2 : startswith (lit ?q) ?s = true |- _ =>
      lazymatch p with
      | q => fail
      | _ => destruct (startswith_comparable _ _ _ H1 H2) as [Hx|Hx];
             vm_compute in Hx; discriminate Hx
      end
  end.

Ltac and_true :=
  repeat match goal with
    | H : _ && _ = true |- _ => apply andb_true_iff in H as [? ?]
    end.

Lemma classify_buff_names (digit : N -> bool) (d : dictionaries)
    (rid eng : list N) :
  buff_names (classify digit d (rid, eng))
  = if startswith (lit "Buff_name_") rid then <[rid := eng]> (buff_names d)
    else buff_names d.
Proof.
  unfold classify. split_classify; and_true; try reflexivity; exclusive.
Qed.

Lemma classify_buff_infos (digit : N -> bool) (d : dictionaries)
    (rid eng : list N) :
  buff_infos (classify digit d (rid, eng))
  = if startswith (lit "Buff_info_") rid then <[rid := eng]> (buff_infos d)
    else buff_infos d.
Proof.
  unfold classify. split_classify; and_true; try reflexivity; exclusive.
Qed.

Lemma classify_materials (digit : N -> bool) (d : dictionaries)
    (rid eng : list N) :
  materials (classify digit d (rid, eng))
  = if startswith (lit "material_") rid then <[rid := eng]> (materials d)
    else materials d.
Proof.
  unfold classify. split_classify; and_true; try reflexivity; exclusive.
Qed.

Lemma classify_plants (digit : N -> bool) (d : dictionaries)
    (rid eng : list N) :
  plants (classify digit d (rid, eng))
  = if plant_test rid then <[rid := eng]> (plants d) else plants d.
Proof.
  unfold classify, plant_test.
  split_classify; and_true; try reflexivity; exclusive.
Qed.

Lemma classify_pets_test (digit : N -> bool) (d : dictionaries)
    (rid eng : list N) :
  pets (classify digit d (rid, eng))
  = if pet_test rid then <[rid := eng]> (pets d) else pets d.
Proof.
  unfold classify, pet_test.
  split_classify; and_true; try reflexivity; exclusive.
Qed.

Lemma dict_of_items_snoc (items : list (list N * list N)) (rid eng : list N) :
  dict_of_items (items ++ [(rid, eng)]) = <[rid := eng]> (dict_of_items items).
Proof. unfold dict_of_items. by rewrite foldl_app. Qed.

(** A dictionary that takes the items whose id passes a test holds the
    entries of the language map at those ids. *)
Lemma restricted_run (digit : N -> bool)
    (f : dictionaries -> gmap (list N) (list N)) (test : list N -> bool) :
  f no_dictionaries = ∅ ->
  (forall d rid eng,
      f (classify digit d (rid, eng))
      = if test rid then <[rid := eng]> (f d) else f d) ->
  forall items k,
    f (build_dictionaries digit items) !! k
    = restrict test (dict_of_items items) k.
Proof.
  intros Hempty Hstep items k. unfold restrict.
  induction items as [|[rid eng] items IH] using rev_ind.
  - unfold build_dictionaries, dict_of_items. cbn. rewrite Hempty, lookup_empty.
    by destruct (test k).
  - rewrite dict_of_items_snoc. unfold build_dictionaries in *.
    rewrite foldl_app. cbn [foldl]. rewrite Hstep.
    destruct (test rid) eqn:Hrid.
    + rewrite !lookup_insert. case_decide as Hk; [by rewrite <- Hk, Hrid|done].
    + rewrite IH. destruct (test k) eqn:Hk; [|done].
      rewrite lookup_insert_ne; [done|]. congruence.
Qed.

(** X14: the dictionaries that keep the whole id as key are the language
    map cut down to the ids of their rule: after a run over the items of
    the language map, buff_names holds exactly the entries whose id starts
    with Buff_name_, buff_infos those with Buff_info_, materials those with
    material_, plants those with plant_ and no slash, pets those with
    Pet_name_ that end neither in _des nor in _lock. *)
Theorem whole_id_dictionaries (digit : N -> bool)
    (items : list (list N * list N)) (k : list N) :
  buff_names (build_dictionaries digit items) !! k
  = restrict (startswith (lit "Buff_name_")) (dict_of_items items) k
  /\ buff_infos (build_dictionaries digit items) !! k
     = restrict (startswith (lit "Buff_info_")) (dict_of_items items) k
  /\ materials (build_dictionaries digit items) !! k
     = restrict (startswith (lit "material_")) (dict_of_items items) k
  /\ plants (build_dictionaries digit items) !! k
     = restrict plant_test (dict_of_items items) k
  /\ pets (build_dictionaries digit items) !! k
     = restrict pet_test (dict_of_items items) k.
Proof.
  repeat split; apply restricted_run; try done.
  - apply classify_buff_names.
  - apply classify_buff_infos.
  - apply classify_materials.
  - apply classify_plants.
  - apply classify_pets_test.
Qed.

Lemma rx_Alt {R : Type} (a b : regex) (off : nat) (s : list N)
    (env : list (nat * list N)) (k : nat -> list N -> list (nat * list N) -> option R) :
  rx (Alt a b) off s env k
  = match rx a off s env k with
    | Some x => Some x
    | None => rx b off s env k
    end.
Proof. reflexivity. Qed.

Lemma rx_Eps {R : Type} (off : nat) (s : list N)
    (env : list (nat * list N)) (k : nat -> list N -> list (nat * list N) -> option R) :
  rx Eps off s env k = k off s env.
Proof. reflexivity. Qed.

Lemma take_add_sub {A : Type} (off : nat) (w t : list A) :
  take (off + length w - off) (w ++ t) = w.
Proof. apply take_prefix. lia. Qed.

(** The task pattern on an id with a challenge id that is not empty: the
    first group is the text up to the first underscore, the second group
    the suffix _title or _desc when it follows. *)
Lemma task_pattern_match (c0 : N) (cs rest : list N) :
  Forall (fun c => not_underscore c = true) (c0 :: cs) ->
  stops not_underscore rest ->
  re_match task_pattern (lit "task/" ++ (c0 :: cs) ++ rest)
  = if startswith (lit "_title") rest
    then Some [(2%nat, lit "_title"); (1%nat, c0 :: cs)]
    else if startswith (lit "_desc") rest
         then Some [(2%nat, lit "_desc"); (1%nat, c0 :: cs)]
         else Some [(1%nat, c0 :: cs)].
Proof.
  intros Hc Hrest. apply Forall_cons in Hc as [Hc0 Hcs].
  unfold re_match, task_pattern.
  rewrite rx_Cat, rx_Lit, rx_Cat, rx_Grp.
  change ((c0 :: cs) ++ rest) with (c0 :: cs ++ rest).
  change (Cls (fun c => negb (c =? 95))) with (Cls not_underscore).
  rewrite rx_Plus_class by done.
  destruct (startswith (lit "_title") rest) eqn:Ht;
    [|destruct (startswith (lit "_desc") rest) eqn:Hd].
  - apply startswith_spec in Ht as [rest' ->].
    apply backtrack_longest. unfold Opt. rewrite rx_Alt, rx_Grp, rx_Alt, rx_Lit.
    f_equal. f_equal; [|f_equal]; f_equal.
    + apply take_add_sub.
    + apply (take_prefix _ (c0 :: cs)). simpl. lia.
  - apply startswith_spec in Hd as [rest' ->].
    apply backtrack_longest. unfold Opt. rewrite rx_Alt, rx_Grp, rx_Alt.
    rewrite (rx_Lit_fail (lit "_title")) by done. rewrite rx_Lit.
    f_equal. f_equal; [|f_equal]; f_equal.
    + apply take_add_sub.
    + apply (take_prefix _ (c0 :: cs)). simpl. lia.
  - apply backtrack_longest. unfold Opt. rewrite rx_Alt, rx_Grp, rx_Alt.
    rewrite (rx_Lit_fail (lit "_title")) by done.
    rewrite (rx_Lit_fail (lit "_desc")) by done. rewrite rx_Eps.
    do 3 f_equal. apply (take_prefix _ (c0 :: cs)). simpl. lia.
Qed.

(** Without a challenge id the task pattern does not match. *)
Lemma task_pattern_no_id (rest : list N) :
  stops not_underscore rest ->
  re_match task_pattern (lit "task/" ++ rest) = None.
Proof.
  intros Hrest. unfold re_match, task_pattern.
  rewrite rx_Cat, rx_Lit, rx_Cat, rx_Grp. unfold Plus. rewrite rx_Cat.
  change (Cls (fun c => negb (c =? 95))) with (Cls not_underscore).
  destruct rest as [|c rest]; [done|]. cbn [rx]. simpl in Hrest.
  by rewrite Hrest.
Qed.

(** X15: the challenge rule.  For an id task/<cid><rest>, where <cid> is
    not empty and holds no underscore and <rest> is empty or starts with an
    underscore, the challenge id is <cid>, the text up to the first
    underscore: the item goes to challenge_titles[cid] when <rest> starts
    with _title, to challenge_descs[cid] when it starts with _desc, and to
    challenge_names[cid] otherwise, whatever else follows.  An id task/
    without a challenge id changes nothing. *)
Theorem challenge_rule (digit : N -> bool) (d : dictionaries)
    (c0 : N) (cs rest eng : list N) :
  Forall (fun c => not_underscore c = true) (c0 :: cs) ->
  stops not_underscore rest ->
  classify digit d (lit "task/" ++ (c0 :: cs) ++ rest, eng)
  = (if startswith (lit "_title") rest
     then set_challenge_titles (<[c0 :: cs := eng]> (challenge_titles d)) d
     else if startswith (lit "_desc") rest
          then set_challenge_descs (<[c0 :: cs := eng]> (challenge_descs d)) d
          else set_challenge_names (<[c0 :: cs := eng]> (challenge_names d)) d)
  /\ classify digit d (lit "task/" ++ rest, eng) = d.
Proof.
  intros Hc Hrest. split.
  - unfold classify. do 4 decide_test.
    rewrite task_pattern_match by done.
    destruct (startswith (lit "_title") rest);
      [|destruct (startswith (lit "_desc") rest)]; reflexivity.
  - unfold classify. do 4 decide_test.
    by rewrite task_pattern_no_id.
Qed.

(** The ids task/boss1_title_x, task/a_b and task/_x. *)
Lemma challenge_rule_witness :
  challenge_titles
    (classify ascii_digit no_dictionaries (lit "task/boss1_title_x", lit "T"))
    !! lit "boss1" = Some (lit "T")
  /\ challenge_names
       (classify ascii_digit no_dictionaries (lit "task/a_b", lit "N"))
       !! lit "a" = Some (lit "N")
  /\ classify ascii_digit no_dictionaries (lit "task/_x", lit "N")
     = no_dictionaries.
Proof.
  split; [|split].
  - change (lit "task/boss1_title_x")
      with (lit "task/" ++ (98 :: lit "oss1") ++ lit "_title_x").
    rewrite (proj1 (challenge_rule ascii_digit no_dictionaries
                      98 (lit "oss1") (lit "_title_x") (lit "T")
                      ltac:(repeat constructor) eq_refl)).
    reflexivity.
  - change (lit "task/a_b") with (lit "task/" ++ [97] ++ lit "_b").
    rewrite (proj1 (challenge_rule ascii_digit no_dictionaries
                      97 [] (lit "_b") (lit "N")
                      ltac:(repeat constructor) eq_refl)).
    reflexivity.
  - exact (proj2 (challenge_rule ascii_digit no_dictionaries
                    97 [] (lit "_x") (lit "N")
                    ltac:(repeat constructor) eq_refl)).
Defined.

Lemma replace_from_absent (a : N) (w new s : list N) :
  contains (a :: w) s = false -> replace_from (a :: w) new O s = s.
Proof.
  induction s as [|c s IH]; [done|]. intros H.
  cbn [contains] in H. apply orb_false_iff in H as [Hs Hc].
  rewrite replace_from_cons, Hs. by rewrite IH.
Qed.

Lemma replace_from_skipped (old new w s : list N) :
  replace_from old new (length w) (w ++ s) = replace_from old new O s.
Proof. induction w as [|c w IH]; [done|]. simpl. apply IH. Qed.

Lemma replace_from_prefix (a : N) (w new s : list N) :
  replace_from (a :: w) new O ((a :: w) ++ s)
  = new ++ replace_from (a :: w) new O s.
Proof.
  change ((a :: w) ++ s) with (a :: w ++ s).
  rewrite replace_from_cons.
  change (a :: w ++ s) with ((a :: w) ++ s). rewrite startswith_app.
  f_equal. apply replace_from_skipped.
Qed.

(** X16: the weapon rule.  For an id weapon/<rest> the key in the weapons
    dictionary is <rest> with every further occurrence of weapon/ taken
    out: it is <rest> itself when weapon/ does not occur in it, and the ids
    weapon/<rest> and weapon/weapon/<rest> get the same key, so that the
    later one replaces the earlier one.  No other dictionary changes. *)
Theorem weapon_rule (digit : N -> bool) (d : dictionaries) (rest eng : list N) :
  classify digit d (lit "weapon/" ++ rest, eng)
  = set_weapons (<[replace (lit "weapon/") [] rest := eng]> (weapons d)) d
  /\ (contains (lit "weapon/") rest = false ->
      replace (lit "weapon/") [] rest = rest)
  /\ replace (lit "weapon/") [] (lit "weapon/" ++ rest)
     = replace (lit "weapon/") [] rest.
Proof.
  assert (replace (lit "weapon/") [] (lit "weapon/" ++ rest)
          = replace (lit "weapon/") [] rest) as Hprefix.
  { apply (replace_from_prefix 119 (lit "eapon/") [] rest). }
  split; [|split; [|done]].
  - unfold classify. decide_test. by rewrite Hprefix.
  - apply (replace_from_absent 119 (lit "eapon/") [] rest).
Qed.

Lemma skin_pattern_needs_prefix (digit : N -> bool) (rid : list N)
    (m : list (nat * list N)) :
  re_match (skin_pattern digit) rid = Some m ->
  startswith (lit "Character") rid = true.
Proof.
  destruct (startswith (lit "Character") rid) eqn:H; [done|].
  unfold re_match, skin_pattern. rewrite rx_Cat.
  by rewrite rx_Lit_fail.
Qed.

(** X17: a pet id that ends in _des or _lock is dropped by the broad
    classifier altogether: it is kept out of the pets and, as it reaches
    the character rule, which does not match it, out of every other
    dictionary. *)
Theorem pet_suffix_dropped (digit : N -> bool) (d : dictionaries)
    (rid eng : list N) :
  startswith (lit "Pet_name_") rid = true ->
  endswith (lit "_des") rid = true \/ endswith (lit "_lock") rid = true ->
  classify digit d (rid, eng) = d.
Proof.
  intros Hpet Hsuffix. unfold classify.
  split_classify; and_true; try reflexivity; try exclusive.
  - match goal with
    | H : negb (endswith (lit "_des") rid) = true,
      H' : negb (endswith (lit "_lock") rid) = true |- _ =>
        apply negb_true_iff in H, H'; destruct Hsuffix; congruence
    end.
  - match goal with
    | H : re_match (skin_pattern digit) rid = Some _ |- _ =>
        apply skin_pattern_needs_prefix in H
    end.
    exclusive.
Qed.

(** The id Pet_name_7_des. *)
Lemma pet_suffix_dropped_witness :
  classify ascii_digit no_dictionaries (lit "Pet_name_7_des", lit "tale")
  = no_dictionaries.
Proof.
  apply pet_suffix_dropped; [reflexivity|left; reflexivity].
Defined.

(** *** Whole runs *)

Lemma last_filed_snoc {K : Type} `{EqDecision K} (slot : list N -> option K)
    (items : list (list N * list N)) (rid eng : list N) (k : K) :
  last_filed slot (items ++ [(rid, eng)]) k
  = if bool_decide (slot rid = Some k) then Some eng
    else last_filed slot items k.
Proof.
  unfold last_filed. rewrite List.filter_app. cbn [List.filter fst].
  destruct (bool_decide (slot rid = Some k)).
  - by rewrite last_snoc.
  - by rewrite app_nil_r.
Qed.

Lemma last_filed_none {K : Type} `{EqDecision K} (slot : list N -> option K)
    (items : list (list N * list N)) (k : K) :
  (forall item, item ∈ items -> slot item.1 <> Some k) ->
  last_filed slot items k = None.
Proof.
  induction items as [|[rid eng] items IH] using rev_ind; intros H; [done|].
  rewrite last_filed_snoc, IH.
  - rewrite bool_decide_eq_false_2; [done|].
    apply (H (rid, eng)). apply elem_of_app. right. by apply list_elem_of_singleton.
  - intros item Hitem. apply H. apply elem_of_app. by left.
Qed.

(** The last item that is filed in a slot is the one behind which no
    item is filed there. *)
Lemma last_filed_last {K : Type} `{EqDecision K} (slot : list N -> option K)
    (before after : list (list N * list N)) (rid eng : list N) (k : K) :
  slot rid = Some k ->
  (forall item, item ∈ after -> slot item.1 <> Some k) ->
  last_filed slot (before ++ (rid, eng) :: after) k = Some eng.
Proof.
  intros Hrid. induction after as [|[rid' eng'] after IH] using rev_ind;
    intros Hafter.
  - by rewrite last_filed_snoc, bool_decide_eq_true_2.
  - change (before ++ (rid, eng) :: after ++ [(rid', eng')])
      with (before ++ ((rid, eng) :: after) ++ [(rid', eng')]).
    rewrite app_assoc, last_filed_snoc, IH.
    + rewrite bool_decide_eq_false_2; [done|].
      apply (Hafter (rid', eng')). apply elem_of_app. right.
      by apply list_elem_of_singleton.
    + intros item Hitem. apply Hafter. apply elem_of_app. by left.
Qed.

(** A dictionary that takes the items that are filed in its slots holds
    in each slot the string of the last item filed there. *)
Lemma filed_run (digit : N -> bool)
    (f : dictionaries -> gmap (list N) (list N))
    (slot : list N -> option (list N)) :
  f no_dictionaries = ∅ ->
  (forall d rid eng,
      f (classify digit d (rid, eng))
      = match slot rid with
        | Some k => <[k := eng]> (f d)
        | None => f d
        end) ->
  forall items k,
    f (build_dictionaries digit items) !! k = last_filed slot items k.
Proof.
  intros Hempty Hstep items k.
  induction items as [|[rid eng] items IH] using rev_ind.
  - unfold build_dictionaries. cbn [foldl]. by rewrite Hempty, lookup_empty.
  - rewrite last_filed_snoc. unfold build_dictionaries in *.
    rewrite foldl_app. cbn [foldl]. rewrite Hstep.
    destruct (slot rid) as [k'|] eqn:Hslot.
    + destruct (decide (k' = k)) as [->|Hne].
      * by rewrite lookup_insert_eq, bool_decide_eq_true_2.
      * rewrite lookup_insert_ne, bool_decide_eq_false_2 by congruence.
        apply IH.
    + rewrite bool_decide_eq_false_2 by done. apply IH.
Qed.

Lemma task_pattern_needs_prefix (rid : list N) (m : list (nat * list N)) :
  re_match task_pattern rid = Some m -> startswith (lit "task/") rid = true.
Proof.
  destruct (startswith (lit "task/") rid) eqn:H; [done|].
  unfold re_match, task_pattern. rewrite rx_Cat.
  by rewrite rx_Lit_fail.
Qed.

Lemma classify_weapons (digit : N -> bool) (d : dictionaries)
    (rid eng : list N) :
  weapons (classify digit d (rid, eng))
  = match weapon_slot rid with
    | Some k => <[k := eng]> (weapons d)
    | None => weapons d
    end.
Proof.
  unfold classify, weapon_slot.
  destruct (startswith (lit "weapon/") rid); [done|].
  split_classify; reflexivity.
Qed.

Lemma classify_titles (digit : N -> bool) (d : dictionaries)
    (rid eng : list N) :
  challenge_titles (classify digit d (rid, eng))
  = match title_slot rid with
    | Some k => <[k := eng]> (challenge_titles d)
    | None => challenge_titles d
    end.
Proof.
  unfold title_slot.
  destruct (re_match task_pattern rid) as [m|] eqn:Hm; cbn [mbind option_bind].
  - pose proof (task_pattern_needs_prefix _ _ Hm) as Htask.
    unfold classify. rewrite Hm, Htask.
    destruct (startswith (lit "weapon/") rid) eqn:H1; [exclusive|].
    destruct (startswith (lit "Buff_name_") rid) eqn:H2; [exclusive|].
    destruct (startswith (lit "Buff_info_") rid) eqn:H3; [exclusive|].
    destruct (bool_decide (group 2 m = Some (lit "_title"))) eqn:Ht; [done|].
    by destruct (bool_decide (group 2 m = Some (lit "_desc"))).
  - unfold classify. rewrite Hm. split_classify; reflexivity.
Qed.

Lemma classify_pets_slot (digit : N -> bool) (d : dictionaries)
    (rid eng : list N) :
  pets (classify digit d (rid, eng))
  = match pet_slot rid with
    | Some k => <[k := eng]> (pets d)
    | None => pets d
    end.
Proof.
  rewrite classify_pets_test. unfold pet_slot. by destruct (pet_test rid).
Qed.

Lemma classify_characters_slot (digit : N -> bool) (d : dictionaries)
    (rid eng : list N) :
  characters (classify digit d (rid, eng))
  = match character_slot digit rid with
    | Some (n, s) => set_nested n s eng (characters d)
    | None => characters d
    end.
Proof.
  unfold character_slot.
  destruct (re_match (skin_pattern digit) rid) as [m|] eqn:Hm;
    cbn [mbind option_bind].
  - pose proof (skin_pattern_needs_prefix _ _ _ Hm) as Hchar.
    unfold classify. rewrite Hm.
    split_classify; and_true; try reflexivity; exclusive.
  - unfold classify. rewrite Hm. split_classify; reflexivity.
Qed.

Lemma set_nested_lookup_pair (n s v n' s' : list N)
    (d : gmap (list N) (gmap (list N) (list N))) :
  set_nested n s v d !! n' ≫= (fun skins => skins !! s')
  = if bool_decide ((n, s) = (n', s')) then Some v
    else d !! n' ≫= (fun skins => skins !! s').
Proof.
  unfold set_nested. destruct (decide (n = n')) as [<-|Hn].
  - rewrite lookup_insert_eq. cbn [mbind option_bind].
    destruct (decide (s = s')) as [<-|Hs].
    + by rewrite lookup_insert_eq, bool_decide_eq_true_2.
    + rewrite lookup_insert_ne, bool_decide_eq_false_2 by congruence.
      by destruct (d !! n).
  - rewrite lookup_insert_ne, bool_decide_eq_false_2 by congruence. done.
Qed.

Lemma characters_run (digit : N -> bool) (items : list (list N * list N))
    (n s : list N) :
  characters (build_dictionaries digit items) !! n
    ≫= (fun skins => skins !! s)
  = last_filed (character_slot digit) items (n, s).
Proof.
  induction items as [|[rid eng] items IH] using rev_ind; [done|].
  rewrite last_filed_snoc. unfold build_dictionaries in *.
  rewrite foldl_app. cbn [foldl]. rewrite classify_characters_slot.
  destruct (character_slot digit rid) as [[n' s']|] eqn:Hslot.
  - rewrite set_nested_lookup_pair.
    destruct (decide ((n', s') = (n, s))) as [Heq|Hne].
    + by rewrite !bool_decide_eq_true_2 by congruence.
    + rewrite !bool_decide_eq_false_2 by congruence. apply IH.
  - rewrite bool_decide_eq_false_2 by done. apply IH.
Qed.

(** C8, as the claim states it, fails: in the language map that holds
    the ids weapon/sword_001 and, behind it, weapon/weapon/sword_001, both
    are filed under sword_001, and the weapons that are returned hold the
    string of the second id there, not that of weapon/sword_001. *)
Lemma later_id_takes_the_slot :
  NoDup [lit "weapon/sword_001"; lit "weapon/weapon/sword_001"]
  /\ weapons
       (build_dictionaries ascii_digit
          [(lit "weapon/sword_001", lit "Sword");
           (lit "weapon/weapon/sword_001", lit "Other")])
       !! lit "sword_001"
     = Some (lit "Other")
  /\ weapons
       (build_dictionaries ascii_digit
          [(lit "weapon/sword_001", lit "Sword");
           (lit "weapon/weapon/sword_001", lit "Other")])
       !! lit "sword_001"
     <> Some (lit "Sword").
Proof.
  split; [|split].
  - apply NoDup_cons. split; [|apply NoDup_singleton].
    intros H. apply list_elem_of_singleton in H. discriminate H.
  - vm_compute. reflexivity.
  - vm_compute. discriminate.
Qed.

(** C8 (amended): the classifier dispatches on the shape of the key, and
    a slot holds the string of the last item that is filed in it.  In the
    dictionaries that a run over the items of the language map returns,
    the weapons, the characters, the pets and the challenge titles hold in
    each slot the string of the last item filed there.  The key
    weapon/sword_001 is filed in weapons[sword_001], Character3_name_skin2
    in characters[3][2], Pet_name_7 in pets[Pet_name_7] and
    task/boss1_title in challenge_titles[boss1]; so each of these slots
    holds the string of that key when no later item is filed in the same
    slot.  A key that ends in _des or _lock is filed in no slot of the
    pets, and the pets hold no such key. *)
Theorem classification_dispatch (digit : N -> bool)
    (items : list (list N * list N)) :
  digit_on_ascii digit ->
  let d := build_dictionaries digit items in
  ((forall k, weapons d !! k = last_filed weapon_slot items k)
   /\ (forall n s,
         characters d !! n ≫= (fun skins => skins !! s)
         = last_filed (character_slot digit) items (n, s))
   /\ (forall k, pets d !! k = last_filed pet_slot items k)
   /\ (forall k, challenge_titles d !! k = last_filed title_slot items k))
  /\ (weapon_slot (lit "weapon/sword_001") = Some (lit "sword_001")
      /\ character_slot digit (lit "Character3_name_skin2")
         = Some (lit "3", lit "2")
      /\ pet_slot (lit "Pet_name_7") = Some (lit "Pet_name_7")
      /\ title_slot (lit "task/boss1_title") = Some (lit "boss1"))
  /\ (forall before eng after,
        items = before ++ (lit "weapon/sword_001", eng) :: after ->
        (forall item, item ∈ after ->
                      weapon_slot item.1 <> Some (lit "sword_001")) ->
        weapons d !! lit "sword_001" = Some eng)
  /\ (forall before eng after,
        items = before ++ (lit "Character3_name_skin2", eng) :: after ->
        (forall item, item ∈ after ->
                      character_slot digit item.1 <> Some (lit "3", lit "2")) ->
        characters d !! lit "3" ≫= (fun skins => skins !! lit "2") = Some eng)
  /\ (forall before eng after,
        items = before ++ (lit "Pet_name_7", eng) :: after ->
        (forall item, item ∈ after -> item.1 <> lit "Pet_name_7") ->
        pets d !! lit "Pet_name_7" = Some eng)
  /\ (forall before eng after,
        items = before ++ (lit "task/boss1_title", eng) :: after ->
        (forall item, item ∈ after -> title_slot item.1 <> Some (lit "boss1")) ->
        challenge_titles d !! lit "boss1" = Some eng)
  /\ (forall rid,
        endswith (lit "_des") rid = true \/ endswith (lit "_lock") rid = true ->
        pet_slot rid = None /\ pets d !! rid = None).
Proof.
  intros Hd d.
  assert (forall k, weapons d !! k = last_filed weapon_slot items k) as Hweapons.
  { apply (filed_run digit weapons); [done|apply classify_weapons]. }
  assert (forall k, pets d !! k = last_filed pet_slot items k) as Hpets.
  { apply (filed_run digit pets); [done|apply classify_pets_slot]. }
  assert (forall k, challenge_titles d !! k = last_filed title_slot items k)
    as Htitles.
  { apply (filed_run digit challenge_titles); [done|apply classify_titles]. }
  assert (character_slot digit (lit "Character3_name_skin2")
          = Some (lit "3", lit "2")) as Hchar.
  { unfold character_slot.
    change (lit "Character3_name_skin2")
      with (lit "Character" ++ [51] ++ lit "_name_skin" ++ [50] ++ []).
    rewrite skin_pattern_match; [done|done| | |done].
    - constructor; [by apply (ascii_digit_of digit)|constructor].
    - constructor; [by apply (ascii_digit_of digit)|constructor]. }
  assert (forall rid,
             endswith (lit "_des") rid = true \/ endswith (lit "_lock") rid = true ->
             pet_slot rid = None) as Hsuffix.
  { intros rid Hrid. unfold pet_slot, pet_test.
    destruct Hrid as [-> | ->]; by rewrite ?andb_false_r. }
  split; [|split; [|split; [|split; [|split; [|split]]]]].
  - split; [done|]. split; [apply characters_run|]. by split.
  - split; [by vm_compute|]. split; [done|]. split; by vm_compute.
  - intros before eng after -> Hafter. rewrite Hweapons.
    by apply last_filed_last.
  - intros before eng after -> Hafter. unfold d. rewrite characters_run.
    by apply last_filed_last.
  - intros before eng after -> Hafter. rewrite Hpets.
    apply last_filed_last; [by vm_compute|].
    intros item Hitem. unfold pet_slot.
    destruct (pet_test item.1); [|done].
    intros [= H]. by apply (Hafter item).
  - intros before eng after -> Hafter. rewrite Htitles.
    apply last_filed_last; [by vm_compute|done].
  - intros rid Hrid. split; [by apply Hsuffix|].
    rewrite Hpets. apply last_filed_none. intros item _. unfold pet_slot.
    destruct (pet_test item.1) eqn:Htest; [|done].
    intros [= Heq]. specialize (Hsuffix rid Hrid). unfold pet_slot in Hsuffix.
    by rewrite <- Heq, Htest in Hsuffix.
Qed.

(** With the ASCII digits: a language map that holds weapon/sword_001 and
    Pet_name_7_des. *)
Lemma classification_dispatch_witness :
  weapons
    (build_dictionaries ascii_digit
       [(lit "weapon/sword_001", lit "Sword"); (lit "Pet_name_7_des", lit "tale")])
    !! lit "sword_001"
  = Some (lit "Sword")
  /\ pets
       (build_dictionaries ascii_digit
          [(lit "weapon/sword_001", lit "Sword"); (lit "Pet_name_7_des", lit "tale")])
       !! lit "Pet_name_7_des"
     = None.
Proof.
  destruct (classification_dispatch ascii_digit
              [(lit "weapon/sword_001", lit "Sword");
               (lit "Pet_name_7_des", lit "tale")])
    as (_ & _ & Hweapon & _ & _ & _ & Hpet).
  - intros c _. reflexivity.
  - split.
    + apply (Hweapon [] (lit "Sword") [(lit "Pet_name_7_des", lit "tale")]);
        [reflexivity|].
      intros item Hitem. apply list_elem_of_singleton in Hitem as ->.
      vm_compute. discriminate.
    + apply Hpet. left. vm_compute. reflexivity.
Defined.

(** ** The narrow export *)

Lemma skin_pattern_fullmatch_needs_prefix (digit : N -> bool) (key : list N) :
  startswith (lit "Character") key = false ->
  re_fullmatch (skin_pattern digit) key = None.
Proof.
  intros H. unfold re_fullmatch, skin_pattern. rewrite rx_Cat.
  by rewrite rx_Lit_fail.
Qed.

Lemma skill_pattern_needs_prefix (digit : N -> bool) (key : list N) :
  startswith (lit "Character") key = false ->
  re_fullmatch (skill_pattern digit) key = None.
Proof.
  intros H. unfold re_fullmatch, skill_pattern. rewrite rx_Grp, rx_Cat.
  by rewrite rx_Lit_fail.
Qed.

Lemma material_pattern_needs_prefix (key : list N) :
  startswith (lit "material_") key = false ->
  re_fullmatch material_pattern key = None.
Proof.
  intros H. unfold re_fullmatch, material_pattern.
  rewrite rx_Grp, rx_Cat, rx_Bol, rx_Cat. by rewrite rx_Lit_fail.
Qed.

Lemma pet_pattern_fullmatch (digit : N -> bool) (d0 : N) (ds : list N) :
  Forall (fun c => digit c = true) (d0 :: ds) ->
  re_fullmatch (pet_pattern digit) (lit "Pet_name_" ++ d0 :: ds)
  = Some [(1%nat, d0 :: ds)].
Proof.
  intros Hd. apply Forall_cons in Hd as [Hd0 Hds].
  unfold re_fullmatch, pet_pattern. rewrite rx_Cat, rx_Lit, rx_Grp.
  rewrite <- (app_nil_r ds) at 1.
  rewrite rx_Plus_class; [|done..]. apply backtrack_longest.
  do 3 f_equal. rewrite <- (app_nil_r (d0 :: ds)) at 1.
  apply (take_prefix _ (d0 :: ds)). simpl. lia.
Qed.

Lemma pet_pattern_fullmatch_trailing (digit : N -> bool) (ds t : list N) :
  Forall (fun c => digit c = true) ds -> stops digit t -> t <> [] ->
  re_fullmatch (pet_pattern digit) (lit "Pet_name_" ++ ds ++ t) = None.
Proof.
  intros Hds Ht Hne. unfold re_fullmatch, pet_pattern.
  rewrite rx_Cat, rx_Lit, rx_Grp.
  destruct Hds as [|d0 ds Hd0 Hds].
  - unfold Plus. rewrite rx_Cat. destruct t as [|c t]; [done|].
    cbn [app rx]. simpl in Ht. by rewrite Ht.
  - change ((d0 :: ds) ++ t) with (d0 :: ds ++ t).
    rewrite rx_Plus_class; [|done..]. apply backtrack_none. intros j _.
    destruct (drop j ds ++ t) as [|c rest] eqn:Hrest; [|done].
    by apply app_eq_nil in Hrest as [_ ?].
Qed.

(** X18: the pet rule of the narrow export takes an id only when it is
    Pet_name_ followed by digits and nothing else, and files it under the
    digits; an id Pet_name_ that goes on with anything but digits, or with
    something behind the digits, is left out of the export. *)
Theorem narrow_pet_rule (digit : N -> bool) (r : needed_data)
    (ds t value : list N) :
  Forall (fun c => digit c = true) ds ->
  stops digit t ->
  export_item digit r (lit "Pet_name_" ++ ds ++ t, value)
  = match ds, t with
    | _ :: _, [] =>
        {| skin := skin r; pet := <[ds := value]> (pet r);
           material := material r; character_skill := character_skill r |}
    | _, _ => r
    end.
Proof.
  intros Hds Ht. unfold export_item.
  rewrite skin_pattern_fullmatch_needs_prefix by done.
  rewrite (material_pattern_needs_prefix (lit "Pet_name_" ++ ds ++ t)) by done.
  rewrite (skill_pattern_needs_prefix digit (lit "Pet_name_" ++ ds ++ t)) by done.
  destruct t as [|c t].
  - rewrite app_nil_r. destruct ds as [|d0 ds].
    + reflexivity.
    + by rewrite pet_pattern_fullmatch.
  - rewrite pet_pattern_fullmatch_trailing by done. by destruct ds.
Qed.

(** The ids Pet_name_7 and Pet_name_7_des. *)
Lemma narrow_pet_rule_witness :
  pet (export_item ascii_digit no_needed_data (lit "Pet_name_7", lit "Cat"))
    !! lit "7" = Some (lit "Cat")
  /\ export_item ascii_digit no_needed_data (lit "Pet_name_7_des", lit "tale")
     = no_needed_data.
Proof.
  split.
  - change (lit "Pet_name_7") with (lit "Pet_name_" ++ lit "7" ++ []).
    rewrite (narrow_pet_rule ascii_digit no_needed_data (lit "7") [] (lit "Cat")
               ltac:(repeat constructor) I).
    reflexivity.
  - change (lit "Pet_name_7_des") with (lit "Pet_name_" ++ lit "7" ++ lit "_des").
    exact (narrow_pet_rule ascii_digit no_needed_data (lit "7") (lit "_des")
             (lit "tale") ltac:(repeat constructor) eq_refl).
Defined.

Lemma pet_pattern_needs_prefix (digit : N -> bool) (key : list N) :
  startswith (lit "Pet_name_") key = false ->
  re_fullmatch (pet_pattern digit) key = None.
Proof.
  intros H. unfold re_fullmatch, pet_pattern. rewrite rx_Cat.
  by rewrite rx_Lit_fail.
Qed.

Lemma rx_Lit_end {R : Type} (w : list N) (off : nat)
    (env : list (nat * list N)) (k : nat -> list N -> list (nat * list N) -> option R) :
  rx (Lit w) off w env k = k (off + length w)%nat [] env.
Proof. rewrite <- (rx_Lit w off [] env k). by rewrite app_nil_r. Qed.

Lemma skin_pattern_rejects_skill_keys (digit : N -> bool) (n0 : N)
    (ns rest : list N) :
  digit_on_ascii digit ->
  Forall (fun c => digit c = true) (n0 :: ns) ->
  re_fullmatch (skin_pattern digit)
    (lit "Character" ++ (n0 :: ns) ++ lit "_skill_" ++ rest) = None.
Proof.
  intros Hd Hn. apply Forall_cons in Hn as [Hn0 Hns].
  unfold re_fullmatch, skin_pattern.
  rewrite rx_Cat, rx_Lit, rx_Cat, rx_Grp.
  change ((n0 :: ns) ++ ?r) with (n0 :: ns ++ r).
  rewrite rx_Plus_class; [|done..|by apply (stops_underscore digit)].
  rewrite (backtrack_commit digit); [|done|].
  - rewrite rx_Cat. by apply rx_Lit_fail.
  - intros off c s Hc. rewrite rx_Cat. by apply (rx_Lit_underscore digit).
Qed.

Lemma skill_pattern_fullmatch (digit : N -> bool) (n0 s0 : N) (ns ss : list N) :
  digit_on_ascii digit ->
  Forall (fun c => digit c = true) (n0 :: ns) ->
  Forall (fun c => digit c = true) (s0 :: ss) ->
  let key := lit "Character" ++ (n0 :: ns) ++ lit "_skill_" ++ (s0 :: ss)
             ++ lit "_name" in
  re_fullmatch (skill_pattern digit) key = Some [(1%nat, key)].
Proof.
  intros Hd Hn Hs key.
  apply Forall_cons in Hn as [Hn0 Hns]. apply Forall_cons in Hs as [Hs0 Hss].
  unfold re_fullmatch, skill_pattern, key.
  rewrite rx_Grp, rx_Cat, rx_Lit, rx_Cat.
  change ((n0 :: ns) ++ ?r) with (n0 :: ns ++ r).
  rewrite rx_Plus_class; [|done..|by apply (stops_underscore digit)].
  apply backtrack_longest. rewrite rx_Cat, rx_Lit, rx_Cat.
  change ((s0 :: ss) ++ ?r) with (s0 :: ss ++ r).
  rewrite rx_Plus_class; [|done..|by apply (stops_underscore digit)].
  apply backtrack_longest.
  rewrite rx_Lit_end.
  do 3 f_equal. apply take_ge.
  repeat (rewrite length_app || cbn [length]). lia.
Qed.

(** X19: the skill rule of the narrow export.  An id Character<N>_skill_<S>_name,
    with digits for <N> and <S>, is filed in character_skill under the
    whole id; nothing else of the export changes. *)
Theorem narrow_skill_rule (digit : N -> bool) (r : needed_data)
    (n0 s0 : N) (ns ss value : list N) :
  digit_on_ascii digit ->
  Forall (fun c => digit c = true) (n0 :: ns) ->
  Forall (fun c => digit c = true) (s0 :: ss) ->
  let key := lit "Character" ++ (n0 :: ns) ++ lit "_skill_" ++ (s0 :: ss)
             ++ lit "_name" in
  export_item digit r (key, value)
  = {| skin := skin r; pet := pet r; material := material r;
       character_skill := <[key := value]> (character_skill r) |}.
Proof.
  intros Hd Hn Hs key. unfold export_item, key.
  rewrite skin_pattern_rejects_skill_keys by done.
  rewrite pet_pattern_needs_prefix by done.
  rewrite material_pattern_needs_prefix by done.
  by rewrite (skill_pattern_fullmatch digit n0 s0 ns ss Hd Hn Hs).
Qed.

(** The id Character12_skill_1_name. *)
Lemma narrow_skill_rule_witness :
  character_skill
    (export_item ascii_digit no_needed_data
       (lit "Character12_skill_1_name", lit "Dual Wield"))
    !! lit "Character12_skill_1_name"
  = Some (lit "Dual Wield").
Proof.
  change (lit "Character12_skill_1_name")
    with (lit "Character" ++ (49 :: [50]) ++ lit "_skill_" ++ (49 :: [])
          ++ lit "_name").
  rewrite (narrow_skill_rule ascii_digit no_needed_data 49 49 [50] []
             (lit "Dual Wield") (fun c _ => eq_refl)
             ltac:(repeat constructor) ltac:(repeat constructor)).
  apply lookup_insert_eq.
Defined.

Lemma rx_NotAhead {R : Type} (a : regex) (off : nat) (s : list N)
    (env : list (nat * list N)) (k : nat -> list N -> list (nat * list N) -> option R) :
  rx (NotAhead a) off s env k
  = match rx a off s env (fun _ _ _ => Some tt) with
    | Some _ => None
    | None => k off s env
    end.
Proof. reflexivity. Qed.

Lemma rx_Lit_test (w : list N) (off : nat) (s : list N) (env : list (nat * list N)) :
  rx (Lit w) off s env (fun _ _ _ => Some tt)
  = if startswith w s then Some tt else None.
Proof.
  destruct (startswith w s) eqn:H.
  - apply startswith_spec in H as [t ->]. by rewrite rx_Lit.
  - by apply rx_Lit_fail.
Qed.

Lemma existsb_orb {A : Type} (f g : A -> bool) (l : list A) :
  existsb (fun x => f x || g x) l = existsb f l || existsb g l.
Proof.
  induction l as [|x l IH]; [done|]. simpl. rewrite IH.
  destruct (f x), (g x), (existsb f l), (existsb g l); reflexivity.
Qed.

Lemma has_exclusion_cons (c : N) (s : list N) :
  has_exclusion (c :: s) = starts_with_exclusion (c :: s) || has_exclusion s.
Proof. unfold has_exclusion, starts_with_exclusion. apply existsb_orb. Qed.

(** The lookahead of the material pattern finds a word exactly when one
    occurs in the rest of the id. *)
Lemma lookahead_finds_exclusion (k : nat -> list N -> list (nat * list N) -> option unit)
    (rest : list N) (env : list (nat * list N)) :
  (forall off s, k off s env = if starts_with_exclusion s then Some tt else None) ->
  forall off,
    backtrack k off rest [] env = if has_exclusion rest then Some tt else None.
Proof.
  intros Hk. induction rest as [|c rest IH]; intros off.
  - cbn [backtrack]. by rewrite Hk.
  - cbn [backtrack]. rewrite IH, app_nil_r, Hk, has_exclusion_cons.
    destruct (has_exclusion rest); [by rewrite orb_true_r|].
    by rewrite orb_false_r.
Qed.

Lemma star_loop_class_all {R : Type} (p : N -> bool)
    (k : nat -> list N -> list (nat * list N) -> option R)
    (ds : list N) (env : list (nat * list N)) (off : nat) :
  Forall (fun c => p c = true) ds ->
  star_loop (Cls p) k (length ds) off ds env = backtrack k off ds [] env.
Proof.
  intros Hds. rewrite <- (app_nil_r ds) at 2.
  by apply star_loop_class.
Qed.

Lemma material_pattern_fullmatch (rest : list N) :
  Forall (fun c => c <> LF) rest ->
  re_fullmatch material_pattern (lit "material_" ++ rest)
  = if has_exclusion rest then None
    else Some [(1%nat, lit "material_" ++ rest)].
Proof.
  intros Hrest.
  assert (Forall (fun c => negb (c =? LF) = true) rest) as Hany.
  { eapply Forall_impl; [exact Hrest|]. intros c Hc. cbn beta.
    by destruct (N.eqb_spec c LF). }
  unfold re_fullmatch, material_pattern.
  rewrite rx_Grp, rx_Cat, rx_Bol, rx_Cat, rx_Lit, rx_Cat, rx_NotAhead, rx_Cat.
  unfold any_char. rewrite !rx_Star, !star_loop_class_all by done.
  rewrite (lookahead_finds_exclusion _ rest []).
  - destruct (has_exclusion rest); [done|].
    apply backtrack_longest. do 3 f_equal.
    apply take_ge. rewrite length_app. lia.
  - intros off s. rewrite !rx_Alt, !rx_Lit_test.
    unfold starts_with_exclusion, material_exclusions. cbn [map existsb].
    repeat match goal with
           | |- context [startswith ?w s] => destruct (startswith w s)
           end; reflexivity.
Qed.

Lemma split_at_line_break (rest : list N) :
  if contains [LF] rest
  then exists ds r, rest = ds ++ LF :: r /\ Forall (fun c => c <> LF) ds
  else Forall (fun c => c <> LF) rest.
Proof.
  induction rest as [|c rest IH]; [by constructor|].
  cbn [contains startswith].
  destruct (N.eqb_spec LF c) as [<-|Hc].
  - exists [], rest. by split.
  - cbn [andb orb]. destruct (contains [LF] rest).
    + destruct IH as (ds & r & -> & Hds). exists (c :: ds), r.
      split; [done|]. constructor; [congruence|done].
    + constructor; [congruence|done].
Qed.

Lemma material_pattern_line_break (ds r : list N) :
  Forall (fun c => c <> LF) ds ->
  re_fullmatch material_pattern (lit "material_" ++ ds ++ LF :: r) = None.
Proof.
  intros Hds.
  assert (Forall (fun c => negb (c =? LF) = true) ds) as Hany.
  { eapply Forall_impl; [exact Hds|]. intros c Hc. cbn beta.
    by destruct (N.eqb_spec c LF). }
  unfold re_fullmatch, material_pattern.
  rewrite rx_Grp, rx_Cat, rx_Bol, rx_Cat, rx_Lit, rx_Cat, rx_NotAhead.
  match goal with |- match ?t with _ => _ end = _ => destruct t end; [done|].
  unfold any_char. rewrite rx_Star, star_loop_class; [|done|done|].
  - apply backtrack_none. intros j _. by destruct (drop j ds).
  - rewrite length_app. lia.
Qed.

(** X20: the material rule of the narrow export.  An id that starts with
    material_ is stored in the material table, under the whole id, exactly when what
    follows the prefix has no line break and contains none of the words
    activity, book, fragment, tape, skill, new, money, multi and box;
    otherwise the entry leaves the result as it was. *)
Theorem narrow_material_rule (digit : N -> bool) (r : needed_data)
    (rest value : list N) :
  export_item digit r (lit "material_" ++ rest, value)
  = if contains [LF] rest || has_exclusion rest then r
    else {| skin := skin r; pet := pet r;
            material := <[lit "material_" ++ rest := value]> (material r);
            character_skill := character_skill r |}.
Proof.
  unfold export_item.
  rewrite skin_pattern_fullmatch_needs_prefix by done.
  rewrite pet_pattern_needs_prefix by done.
  rewrite skill_pattern_needs_prefix by done.
  pose proof (split_at_line_break rest) as Hsplit.
  destruct (contains [LF] rest).
  - destruct Hsplit as (ds & t & -> & Hds).
    by rewrite material_pattern_line_break.
  - rewrite material_pattern_fullmatch by done.
    cbn [orb]. by destruct (has_exclusion rest).
Qed.

(** ** The weapon exports *)

Lemma rx_End {R : Type} (off : nat) (s : list N) (env : list (nat * list N))
    (k : nat -> list N -> list (nat * list N) -> option R) :
  rx End off s env k = match s with [] => k off s env | _ :: _ => None end.
Proof. by destruct s. Qed.

Lemma rx_Dollar {R : Type} (off : nat) (s : list N) (env : list (nat * list N))
    (k : nat -> list N -> list (nat * list N) -> option R) :
  rx Dollar off s env k = if at_end s then k off s env else None.
Proof.
  destruct s as [|c [|c' s]]; cbn.
  - by destruct (k off [] env).
  - by destruct (c =? LF).
  - by destruct (c =? LF).
Qed.

Lemma at_end_digit (digit : N -> bool) (c : N) (s : list N) :
  digit_on_ascii digit -> digit c = true -> at_end (c :: s) = false.
Proof.
  intros Hd Hc. destruct s; [|done]. cbn.
  destruct (N.eqb_spec c LF) as [->|]; [|done].
  by rewrite Hd in Hc.
Qed.

Lemma contains_char_app (c : N) (a b : list N) :
  contains [c] (a ++ b) = contains [c] a || contains [c] b.
Proof.
  induction a as [|x a IH]; cbn [app].
  - by destruct b.
  - cbn [contains startswith]. rewrite IH.
    destruct (c =? x); cbn [andb orb]; [done|].
    by destruct a.
Qed.

Lemma contains_slash_digits (digit : N -> bool) (ds : list N) :
  digit_on_ascii digit -> Forall (fun c => digit c = true) ds ->
  contains (lit "/") ds = false.
Proof.
  intros Hd. induction 1 as [|d ds Hdig _ IH]; [done|].
  change (lit "/") with [47] in *. cbn [contains startswith]. rewrite IH.
  destruct (N.eqb_spec 47 d) as [<-|]; [|done].
  by rewrite Hd in Hdig.
Qed.

(** The weapon skin pattern on an id that starts with weapon_, with [ds]
    the digits behind the prefix: the group is closed behind the last of
    them. *)
Lemma weapon_skin_pattern_base (digit : N -> bool) (ds r : list N) :
  digit_on_ascii digit ->
  Forall (fun c => digit c = true) ds ->
  stops digit r ->
  re_match (weapon_skin_pattern digit) (lit "weapon_" ++ ds ++ r)
  = match ds with
    | [] => None
    | _ :: _ =>
        rx (Cat (Lit (lit "_s_")) (Cat (Plus (Cls digit)) Dollar))
          (7 + length ds) r [(1%nat, lit "weapon_" ++ ds)]
          (fun _ _ env => Some env)
    end.
Proof.
  intros Hd Hds Hr.
  unfold re_match, weapon_skin_pattern.
  rewrite rx_Cat, rx_Bol, rx_Cat, rx_Grp, rx_Cat, rx_Lit.
  destruct Hds as [|d ds Hd0 Hds].
  { cbn [app]. unfold Plus. rewrite rx_Cat. cbn [rx].
    destruct r as [|c r]; [done|]. simpl in Hr. by rewrite Hr. }
  change ((d :: ds) ++ r) with (d :: ds ++ r).
  rewrite rx_Plus_class; [|done..].
  rewrite (backtrack_commit digit); [|done|].
  2:{ intros off c s Hc. rewrite rx_Cat. by apply (rx_Lit_underscore digit). }
  change (lit "weapon_" ++ d :: ds ++ r) with (lit "weapon_" ++ (d :: ds) ++ r).
  rewrite app_assoc, take_prefix by (rewrite length_app; cbn [length]; lia).
  reflexivity.
Qed.

(** What follows the group: _s_, the digits [es], and the end. *)
Lemma weapon_skin_pattern_tail (digit : N -> bool) (es t : list N) (off : nat)
    (env : list (nat * list N)) :
  digit_on_ascii digit ->
  Forall (fun c => digit c = true) es ->
  stops digit t ->
  rx (Cat (Lit (lit "_s_")) (Cat (Plus (Cls digit)) Dollar)) off
    (lit "_s_" ++ es ++ t) env (fun _ _ env' => Some env')
  = match es with
    | [] => None
    | _ :: _ => if at_end t then Some env else None
    end.
Proof.
  intros Hd Hes Ht. rewrite rx_Cat, rx_Lit, rx_Cat.
  destruct Hes as [|e es He0 Hes].
  { cbn [app]. unfold Plus. rewrite rx_Cat. cbn [rx].
    destruct t as [|c t]; [done|]. simpl in Ht. by rewrite Ht. }
  change ((e :: es) ++ t) with (e :: es ++ t).
  rewrite rx_Plus_class; [|done..].
  rewrite (backtrack_commit digit); [|done|].
  2:{ intros off' c s Hc. rewrite rx_Dollar. by rewrite (at_end_digit digit). }
  by rewrite rx_Dollar.
Qed.

Lemma weapon_skin_pattern_match (digit : N -> bool) (ds es t : list N) :
  digit_on_ascii digit ->
  Forall (fun c => digit c = true) ds ->
  Forall (fun c => digit c = true) es ->
  stops digit t ->
  re_match (weapon_skin_pattern digit)
    (lit "weapon_" ++ ds ++ lit "_s_" ++ es ++ t)
  = match ds, es with
    | _ :: _, _ :: _ =>
        if at_end t then Some [(1%nat, lit "weapon_" ++ ds)] else None
    | _, _ => None
    end.
Proof.
  intros Hd Hds Hes Ht.
  rewrite weapon_skin_pattern_base; [|done..|by apply (stops_underscore digit)].
  destruct ds as [|d ds]; [done|].
  rewrite weapon_skin_pattern_tail by done.
  by destruct es.
Qed.

(** Only ids of that shape match. *)
Lemma weapon_skin_pattern_shape (digit : N -> bool) (full_id : list N)
    (m : list (nat * list N)) :
  digit_on_ascii digit ->
  re_match (weapon_skin_pattern digit) full_id = Some m ->
  exists d ds e es t,
    full_id = lit "weapon_" ++ (d :: ds) ++ lit "_s_" ++ (e :: es) ++ t
    /\ Forall (fun c => digit c = true) (d :: ds)
    /\ Forall (fun c => digit c = true) (e :: es)
    /\ at_end t = true
    /\ m = [(1%nat, lit "weapon_" ++ d :: ds)].
Proof.
  intros Hd Hm.
  destruct (startswith (lit "weapon_") full_id) eqn:Hpre.
  2:{ unfold re_match, weapon_skin_pattern in Hm.
      rewrite rx_Cat, rx_Bol, rx_Cat, rx_Grp, rx_Cat in Hm.
      by rewrite rx_Lit_fail in Hm. }
  apply startswith_spec in Hpre as [rest ->].
  destruct (digit_run_split digit rest) as (ds & r & -> & Hds & Hr).
  rewrite weapon_skin_pattern_base in Hm by done.
  destruct ds as [|d ds]; [done|].
  destruct (startswith (lit "_s_") r) eqn:Hs.
  2:{ rewrite rx_Cat in Hm. by rewrite rx_Lit_fail in Hm. }
  apply startswith_spec in Hs as [r' ->].
  destruct (digit_run_split digit r') as (es & t & -> & Hes & Ht).
  rewrite weapon_skin_pattern_tail in Hm by done.
  destruct es as [|e es]; [done|].
  destruct (at_end t) eqn:Hend; [|done].
  exists d, ds, e, es, t. by simplify_eq.
Qed.

Lemma contains_slash_id (digit : N -> bool) (ds es t : list N) :
  digit_on_ascii digit ->
  Forall (fun c => digit c = true) ds ->
  Forall (fun c => digit c = true) es ->
  at_end t = true ->
  contains (lit "/") (lit "weapon_" ++ ds ++ lit "_s_" ++ es ++ t) = false.
Proof.
  intros Hd Hds Hes Ht. change (lit "/") with [47].
  rewrite !contains_char_app.
  change [47] with (lit "/").
  rewrite (contains_slash_digits digit ds), (contains_slash_digits digit es)
    by done.
  destruct t as [|c [|c' t]]; [done| |done].
  cbn in Ht. apply N.eqb_eq in Ht as ->. done.
Qed.

(** X21: the rule of the weapon skin map.  An id weapon_<N>_s_<S>, with
    digits for <N> and <S>, is appended to the list of its base weapon_<N>;
    a line feed may end the id.  With anything else behind the digits of
    <S>, or without digits for <N> or <S>, the id is passed over. *)
Theorem weapon_skin_rule (digit : N -> bool)
    (skin_map : gmap (list N) (list (list N))) (ds es t : list N) :
  digit_on_ascii digit ->
  Forall (fun c => digit c = true) ds ->
  Forall (fun c => digit c = true) es ->
  stops digit t ->
  let full_id := lit "weapon_" ++ ds ++ lit "_s_" ++ es ++ t in
  let base := lit "weapon_" ++ ds in
  skin_map_step digit skin_map full_id
  = match ds, es with
    | _ :: _, _ :: _ =>
        if at_end t
        then <[base := default [] (skin_map !! base) ++ [full_id]]> skin_map
        else skin_map
    | _, _ => skin_map
    end.
Proof.
  intros Hd Hds Hes Ht full_id base. unfold skin_map_step, full_id, base.
  rewrite weapon_skin_pattern_match by done.
  destruct (at_end t) eqn:Hend.
  - rewrite (contains_slash_id digit) by done.
    by destruct ds, es.
  - destruct (contains _ _); by destruct ds, es.
Qed.

(** The ids weapon_006_s_1 and weapon_006_s_1x. *)
Lemma weapon_skin_rule_witness :
  skin_map_step ascii_digit ∅ (lit "weapon_006_s_1")
  = {[ lit "weapon_006" := [lit "weapon_006_s_1"] ]}
  /\ skin_map_step ascii_digit ∅ (lit "weapon_006_s_1x") = ∅.
Proof.
  split.
  - apply (weapon_skin_rule ascii_digit ∅ (lit "006") (lit "1") []
             (fun c _ => eq_refl) ltac:(repeat constructor)
             ltac:(repeat constructor) I).
  - apply (weapon_skin_rule ascii_digit ∅ (lit "006") (lit "1") (lit "x")
             (fun c _ => eq_refl) ltac:(repeat constructor)
             ltac:(repeat constructor) eq_refl).
Defined.

Lemma str_leb_antisym (a b : list N) :
  str_leb a b = true -> str_leb b a = true -> a = b.
Proof.
  revert b. induction a as [|x a IH]; intros [|y b]; simpl; try done.
  destruct (N.ltb_spec x y), (N.ltb_spec y x); try done; try lia.
  intros Hab Hba. f_equal; [lia|by apply IH].
Qed.

Lemma insert_sorted_perm (x : list N) (l : list (list N)) :
  insert_sorted x l ≡ₚ x :: l.
Proof.
  induction l as [|y l IH]; simpl; [done|].
  destruct (str_leb x y); [done|].
  rewrite IH. apply Permutation_swap.
Qed.

Lemma sorted_perm (l : list (list N)) : sorted l ≡ₚ l.
Proof.
  induction l as [|x l IH]; simpl; [done|].
  by rewrite insert_sorted_perm, IH.
Qed.

Lemma insert_sorted_sorted (x : list N) (l : list (list N)) :
  StronglySorted (fun a b => str_leb a b = true) l ->
  StronglySorted (fun a b => str_leb a b = true) (insert_sorted x l).
Proof.
  induction 1 as [|y l Hl IH Hall]; simpl; [by repeat constructor|].
  destruct (str_leb x y) eqn:Hle.
  - constructor; [by constructor|]. constructor; [done|].
    eapply Forall_impl; [exact Hall|]. intros z Hz.
    by apply (str_leb_trans _ y).
  - constructor; [done|].
    apply (Permutation_Forall (Permutation_sym (insert_sorted_perm x l))).
    constructor; [by apply str_leb_total|done].
Qed.

Lemma sorted_sorted (l : list (list N)) :
  StronglySorted (fun a b => str_leb a b = true) (sorted l).
Proof.
  induction l as [|x l IH]; simpl; [constructor|].
  by apply insert_sorted_sorted.
Qed.

(** A list has one sorted arrangement. *)
Lemma sorted_unique (l l' : list (list N)) :
  StronglySorted (fun a b => str_leb a b = true) l ->
  StronglySorted (fun a b => str_leb a b = true) l' ->
  l ≡ₚ l' -> l = l'.
Proof.
  intros Hl. revert l'. induction Hl as [|x l Hl IH Hx]; intros l' Hl' Hp.
  - by apply Permutation_nil_l in Hp.
  - destruct Hl' as [|y l' Hl' Hy].
    { by apply Permutation_nil_r in Hp. }
    assert (x = y) as <-.
    { apply str_leb_antisym.
      - assert (y ∈ x :: l) as Hin by (rewrite Hp; left).
        apply elem_of_cons in Hin as [->|Hin]; [apply str_leb_refl|].
        by apply (proj1 (Forall_forall _ _) Hx).
      - assert (x ∈ y :: l') as Hin by (rewrite <- Hp; left).
        apply elem_of_cons in Hin as [->|Hin]; [apply str_leb_refl|].
        by apply (proj1 (Forall_forall _ _) Hy). }
    f_equal. apply IH; [done|]. by apply (Permutation_cons_inv Hp).
Qed.

Lemma sorted_Permutation (l l' : list (list N)) :
  l ≡ₚ l' -> sorted l = sorted l'.
Proof.
  intros Hp. apply sorted_unique; [apply sorted_sorted..|].
  by rewrite !sorted_perm.
Qed.

Lemma skin_map_step_base (digit : N -> bool)
    (skin_map : gmap (list N) (list (list N))) (full_id : list N) :
  skin_map_step digit skin_map full_id
  = match skin_base digit full_id with
    | Some base =>
        <[base := default [] (skin_map !! base) ++ [full_id]]> skin_map
    | None => skin_map
    end.
Proof.
  unfold skin_map_step, skin_base.
  destruct (contains _ _); [done|].
  by destruct (re_match _ _).
Qed.

Lemma filed_under_snoc (digit : N -> bool) (base : list N)
    (ids : list (list N)) (full_id : list N) :
  filed_under digit base (ids ++ [full_id])
  = filed_under digit base ids
    ++ (if bool_decide (skin_base digit full_id = Some base) then [full_id] else []).
Proof. unfold filed_under. by rewrite List.filter_app. Qed.

Lemma filed_under_Permutation (digit : N -> bool) (base : list N)
    (ids ids' : list (list N)) :
  ids ≡ₚ ids' -> filed_under digit base ids ≡ₚ filed_under digit base ids'.
Proof.
  unfold filed_under. induction 1 as [|x l l' _ IH|x y l|l l' l'' _ IH1 _ IH2];
    cbn [List.filter].
  - done.
  - destruct (bool_decide _); by rewrite IH.
  - do 2 destruct (bool_decide _); try done. apply Permutation_swap.
  - by rewrite IH1.
Qed.

(** The lists of the loop: under each base the ids filed under it, in the
    order of the pass. *)
Lemma skin_map_loop (digit : N -> bool) (ids : list (list N)) (base : list N) :
  foldl (skin_map_step digit) ∅ ids !! base
  = match filed_under digit base ids with
    | [] => None
    | l => Some l
    end.
Proof.
  induction ids as [|full_id ids IH] using rev_ind; [done|].
  rewrite foldl_snoc, filed_under_snoc, skin_map_step_base.
  destruct (skin_base digit full_id) as [b|] eqn:Hb.
  - destruct (decide (b = base)) as [->|Hne].
    + rewrite lookup_insert_eq, IH, bool_decide_eq_true_2 by done.
      by destruct (filed_under digit base ids).
    + rewrite lookup_insert_ne, IH, bool_decide_eq_false_2 by congruence.
      by rewrite app_nil_r.
  - rewrite IH, bool_decide_eq_false_2 by done. by rewrite app_nil_r.
Qed.

Lemma export_weapon_skin_map_lookup (digit : N -> bool)
    (ids : list (list N)) (base : list N) :
  export_weapon_skin_map digit ids !! base
  = match filed_under digit base ids with
    | [] => None
    | l => Some (sorted l)
    end.
Proof.
  unfold export_weapon_skin_map.
  rewrite lookup_fmap, skin_map_loop.
  by destruct (filed_under digit base ids).
Qed.

(** X22: the weapon skin map groups the ids and loses none.  Under each
    base it holds the ids of the language map that are filed under that
    base, every one of them, sorted by code points; a base under which no
    id is filed is no key of the map.  The map does not depend on the order
    in which the ids of the language map are met. *)
Theorem weapon_skin_map_groups (digit : N -> bool) (lang_map : list (list N)) :
  (forall base,
      export_weapon_skin_map digit lang_map !! base
      = match filed_under digit base lang_map with
        | [] => None
        | l => Some (sorted l)
        end)
  /\ (forall base l,
        export_weapon_skin_map digit lang_map !! base = Some l ->
        StronglySorted (fun a b => str_leb a b = true) l
        /\ l ≡ₚ filed_under digit base lang_map)
  /\ (forall lang_map',
        lang_map ≡ₚ lang_map' ->
        export_weapon_skin_map digit lang_map
        = export_weapon_skin_map digit lang_map').
Proof.
  split; [apply export_weapon_skin_map_lookup|]. split.
  - intros base l. rewrite export_weapon_skin_map_lookup.
    destruct (filed_under digit base lang_map) as [|x xs] eqn:Hf; [done|].
    intros Heq. assert (l = sorted (x :: xs)) as -> by congruence.
    split; [apply sorted_sorted|apply sorted_perm].
  - intros lang_map' Hp. apply map_eq. intros base.
    rewrite !export_weapon_skin_map_lookup.
    pose proof (filed_under_Permutation digit base _ _ Hp) as Hf.
    destruct (filed_under digit base lang_map) as [|x xs] eqn:H1.
    + apply Permutation_nil_l in Hf. by rewrite <- Hf.
    + destruct (filed_under digit base lang_map') as [|y ys] eqn:H2.
      * by apply Permutation_nil_r in Hf.
      * f_equal. by apply sorted_Permutation.
Qed.

Lemma filed_under_elem (digit : N -> bool) (base : list N)
    (ids : list (list N)) (full_id : list N) :
  full_id ∈ filed_under digit base ids
  <-> full_id ∈ ids /\ skin_base digit full_id = Some base.
Proof.
  unfold filed_under.
  rewrite !list_elem_of_In, List.filter_In, bool_decide_eq_true.
  done.
Qed.

(** X23: what the lists of the weapon skin map hold.  An id in the list of
    a base is an id of the language map without a slash, the base is
    weapon_<N> with digits <N>, and the id is the base followed by _s_ and
    digits, with at most a line feed behind them. *)
Theorem weapon_skin_map_members (digit : N -> bool) (lang_map : list (list N))
    (base : list N) (l : list (list N)) (full_id : list N) :
  digit_on_ascii digit ->
  export_weapon_skin_map digit lang_map !! base = Some l ->
  full_id ∈ l ->
  full_id ∈ lang_map
  /\ contains (lit "/") full_id = false
  /\ exists d ds e es t,
      base = lit "weapon_" ++ d :: ds
      /\ full_id = base ++ lit "_s_" ++ (e :: es) ++ t
      /\ Forall (fun c => digit c = true) (d :: ds)
      /\ Forall (fun c => digit c = true) (e :: es)
      /\ at_end t = true.
Proof.
  intros Hd Hl Hin. rewrite export_weapon_skin_map_lookup in Hl.
  assert (full_id ∈ filed_under digit base lang_map) as Hf.
  { destruct (filed_under digit base lang_map) as [|x xs]; [done|].
    assert (l = sorted (x :: xs)) as -> by congruence.
    by rewrite <- (sorted_perm (x :: xs)). }
  apply filed_under_elem in Hf as [Hmem Hbase]. split; [done|].
  unfold skin_base in Hbase.
  destruct (contains (lit "/") full_id); [done|]. split; [done|].
  destruct (re_match (weapon_skin_pattern digit) full_id) as [m|] eqn:Hm;
    [|done].
  apply (weapon_skin_pattern_shape digit) in Hm
    as (d & ds & e & es & t & -> & Hds & Hes & Ht & ->); [|done].
  cbn in Hbase. injection Hbase as <-.
  by exists d, ds, e, es, t.
Qed.

(** The ids weapon_006_s_1 and weapon_006_s_0 under weapon_006. *)
Lemma weapon_skin_map_members_witness :
  lit "weapon_006_s_0" ∈ [lit "weapon_006_s_1"; lit "weapon_006_s_0"]
  /\ contains (lit "/") (lit "weapon_006_s_0") = false
  /\ exists d ds e es t,
      lit "weapon_006" = lit "weapon_" ++ d :: ds
      /\ lit "weapon_006_s_0" = lit "weapon_006" ++ lit "_s_" ++ (e :: es) ++ t
      /\ Forall (fun c => ascii_digit c = true) (d :: ds)
      /\ Forall (fun c => ascii_digit c = true) (e :: es)
      /\ at_end t = true.
Proof.
  apply (weapon_skin_map_members ascii_digit
           [lit "weapon_006_s_1"; lit "weapon_006_s_0"] (lit "weapon_006")
           [lit "weapon_006_s_0"; lit "weapon_006_s_1"]).
  - intros c _. reflexivity.
  - vm_compute. reflexivity.
  - left.
Defined.

(** *** The filtered weapons *)

(** A greedy run succeeds exactly when the continuation succeeds behind
    one of its prefixes. *)
Lemma backtrack_is_Some {R : Type}
    (k : nat -> list N -> list (nat * list N) -> option R)
    (ds r : list N) (env : list (nat * list N)) :
  forall off,
    is_Some (backtrack k off ds r env)
    <-> exists j, (j <= length ds)%nat
                  /\ is_Some (k (off + j)%nat (drop j ds ++ r) env).
Proof.
  induction ds as [|d ds IH]; intros off; cbn [backtrack].
  - split.
    + intros H. exists O. rewrite Nat.add_0_r. split; [done|done].
    + intros (j & Hj & H). cbn in Hj. assert (j = O) as -> by lia.
      by rewrite Nat.add_0_r in H.
  - split.
    + destruct (backtrack k (S off) ds r env) eqn:Hb.
      * intros _. destruct (proj1 (IH (S off))) as (j & Hj & H); [by rewrite Hb|].
        exists (S j). split; [cbn; lia|].
        by replace (off + S j)%nat with (S off + j)%nat by lia.
      * intros H. exists O. rewrite Nat.add_0_r. split; [lia|done].
    + intros (j & Hj & H). destruct j as [|j].
      * rewrite Nat.add_0_r in H. by destruct (backtrack k (S off) ds r env).
      * assert (is_Some (backtrack k (S off) ds r env)) as [x ->]; [|done].
        apply IH. exists j. split; [cbn in Hj; lia|].
        by replace (S off + j)%nat with (off + S j)%nat by lia.
Qed.

Lemma star_loop_is_Some {R : Type} (a : regex)
    (k : nat -> list N -> list (nat * list N) -> option R) :
  (forall off s env, is_Some (k off s env)) ->
  forall n off s env, is_Some (star_loop a k n off s env).
Proof.
  intros Hk n. destruct n as [|n]; intros off s env; cbn [star_loop]; [done|].
  by destruct (rx a off s env _).
Qed.

Lemma digit_not_line_feed (digit : N -> bool) (ds : list N) :
  digit_on_ascii digit ->
  Forall (fun c => digit c = true) ds ->
  Forall (fun c => negb (c =? LF) = true) ds.
Proof.
  intros Hd Hds. eapply Forall_impl; [exact Hds|]. intros c Hc. cbn beta.
  destruct (N.eqb_spec c LF) as [->|]; [|done]. by rewrite Hd in Hc.
Qed.

Lemma at_end_stops (p : N -> bool) (t : list N) :
  p LF = false -> at_end t = true -> stops p t.
Proof.
  intros Hp Ht. destruct t as [|c [|c' t]]; [done| |done].
  cbn in Ht. by apply N.eqb_eq in Ht as ->.
Qed.

(** xx, digits and the end, at the place where the matcher stands. *)
Lemma xx_here (digit : N -> bool) (s : list N) (off : nat)
    (env : list (nat * list N)) :
  digit_on_ascii digit ->
  is_Some (rx (Cat (Lit (lit "xx")) (Cat (Star (Cls digit)) Dollar)) off s env
             (fun _ _ env' => Some env'))
  <-> exists ds t,
      s = lit "xx" ++ ds ++ t
      /\ Forall (fun c => digit c = true) ds /\ at_end t = true.
Proof.
  intros Hd.
  assert (forall ds t o,
             Forall (fun c => digit c = true) ds -> stops digit t ->
             rx (Cat (Lit (lit "xx")) (Cat (Star (Cls digit)) Dollar)) o
               (lit "xx" ++ ds ++ t) env (fun _ _ env' => Some env')
             = if at_end t then Some env else None) as Hrun.
  { intros ds t o Hds Ht. rewrite rx_Cat, rx_Lit, rx_Cat, rx_Star.
    rewrite star_loop_class; [|done..|rewrite length_app; lia].
    rewrite (backtrack_commit digit); [|done|].
    - by rewrite rx_Dollar.
    - intros off' c s' Hc. rewrite rx_Dollar. by rewrite (at_end_digit digit). }
  split.
  - intros H. destruct (startswith (lit "xx") s) eqn:Hxx.
    2:{ rewrite rx_Cat, rx_Lit_fail in H by done. by destruct H. }
    apply startswith_spec in Hxx as [s' ->].
    destruct (digit_run_split digit s') as (ds & t & -> & Hds & Ht).
    rewrite Hrun in H by done. exists ds, t.
    destruct (at_end t); [done|by destruct H].
  - intros (ds & t & -> & Hds & Ht).
    rewrite Hrun, Ht; [done..|].
    apply at_end_stops; [by rewrite Hd|done].
Qed.

Lemma xx_digits_end_match (digit : N -> bool) (rest : list N) (off : nat)
    (env : list (nat * list N)) :
  digit_on_ascii digit ->
  is_Some (rx (xx_digits_end digit) off rest env (fun _ _ env' => Some env'))
  <-> xx_tail digit rest.
Proof.
  intros Hd. unfold xx_digits_end, any_char. rewrite rx_Cat, rx_Star. split.
  - destruct (digit_run_split (fun c => negb (c =? LF)) rest)
      as (a & r & -> & Ha & Hr).
    rewrite star_loop_class; [|done..|rewrite length_app; lia].
    intros (j & Hj & H)%backtrack_is_Some.
    apply (xx_here digit) in H as (ds & t & Heq & Hds & Ht); [|done].
    exists (take j a), ds, t. split; [|split; [|done]].
    + rewrite <- Heq, app_assoc. by rewrite take_drop.
    + apply Forall_take. eapply Forall_impl; [exact Ha|].
      intros c Hc ->. done.
  - intros (u & ds & t & -> & Hu & Hds & Ht).
    replace (u ++ lit "xx" ++ ds ++ t) with ((u ++ lit "xx" ++ ds) ++ t)
      by (by rewrite <- !app_assoc).
    rewrite star_loop_class.
    + apply backtrack_is_Some. exists (length u). split.
      { rewrite length_app. lia. }
      rewrite drop_app_length, <- app_assoc.
      apply (xx_here digit); [done|]. by exists ds, t.
    + apply Forall_app. split.
      { eapply Forall_impl; [exact Hu|]. intros c Hc. cbn beta.
        by destruct (N.eqb_spec c LF). }
      apply Forall_app. split; [by repeat constructor|].
      by apply (digit_not_line_feed digit).
    + by apply at_end_stops.
    + rewrite !length_app. lia.
Qed.

Lemma prefixed_xx_match (digit : N -> bool) (p wid : list N) :
  digit_on_ascii digit ->
  is_Some (re_match (Cat Bol (Cat (Lit p) (xx_digits_end digit))) wid)
  <-> exists rest, wid = p ++ rest /\ xx_tail digit rest.
Proof.
  intros Hd. unfold re_match. rewrite rx_Cat, rx_Bol, rx_Cat.
  destruct (startswith p wid) eqn:Hp.
  - apply startswith_spec in Hp as [rest ->]. rewrite rx_Lit.
    rewrite (xx_digits_end_match digit) by done. split.
    + intros H. by exists rest.
    + by intros (rest' & ->%app_inv_head & H).
  - rewrite rx_Lit_fail by done. split; [by intros []|].
    intros (rest & -> & _). by rewrite startswith_app in Hp.
Qed.

Lemma transform_match (wid : list N) :
  is_Some (re_match (Cat Bol (Cat (Lit (lit "transform_weapon_")) (Star any_char)))
             wid)
  <-> startswith (lit "transform_weapon_") wid = true.
Proof.
  unfold re_match. rewrite rx_Cat, rx_Bol, rx_Cat.
  destruct (startswith (lit "transform_weapon_") wid) eqn:Hp.
  - apply startswith_spec in Hp as [rest ->]. rewrite rx_Lit, rx_Star.
    split; [done|]. intros _. by apply star_loop_is_Some.
  - rewrite rx_Lit_fail by done. split; [by intros []|done].
Qed.

(** X24: which weapon ids the exclusion patterns of the filtered export
    take out.  An id is excluded exactly when it starts with
    transform_weapon_, or when it starts with weapon_000 or weapon_init and
    goes on, without a line feed, up to xx and digits (none is enough),
    behind which it ends, but for a line feed at most. *)
Theorem weapon_exclusion_rule (digit : N -> bool) (wid : list N) :
  digit_on_ascii digit ->
  any_match (exclude_patterns digit) wid = true <-> excluded digit wid.
Proof.
  intros Hd. unfold any_match, exclude_patterns, excluded.
  cbn [existsb]. rewrite orb_false_r, !orb_true_iff, !bool_decide_eq_true.
  fold (xx_digits_end digit).
  rewrite !(prefixed_xx_match digit) by done.
  by rewrite transform_match.
Qed.

(** The id weapon_000_axx12 is excluded. *)
Lemma weapon_exclusion_rule_witness :
  any_match (exclude_patterns ascii_digit) (lit "weapon_000_axx12") = true
  /\ excluded ascii_digit (lit "weapon_000_axx12").
Proof.
  split; [reflexivity|].
  apply (weapon_exclusion_rule ascii_digit (lit "weapon_000_axx12")
           (fun c _ => eq_refl)).
  reflexivity.
Defined.

Lemma export_filtered_weapons_lookup (digit : N -> bool)
    (ids_from_info : list (list N)) (weapons_map : gmap (list N) (list N))
    (wid : list N) :
  export_filtered_weapons digit ids_from_info weapons_map !! wid
  = kept_name digit ids_from_info weapons_map wid.
Proof.
  unfold export_filtered_weapons, kept_name.
  induction ids_from_info as [|x ids IH] using rev_ind; [done|].
  rewrite foldl_snoc. unfold filter_weapon at 1.
  destruct (decide (wid = x)) as [->|Hne].
  - rewrite (bool_decide_eq_true_2 (x ∈ ids ++ [x])) by set_solver.
    cbn [andb]. destruct (any_match (exclude_patterns digit) x).
    { rewrite IH. by rewrite andb_false_r. }
    cbn [negb]. destruct (weapons_map !! x) as [[|c n]|].
    + rewrite IH. by destruct (_ && _).
    + by rewrite lookup_insert_eq.
    + rewrite IH. by destruct (_ && _).
  - assert (bool_decide (wid ∈ ids ++ [x]) = bool_decide (wid ∈ ids)) as ->.
    { apply bool_decide_ext. set_solver. }
    rewrite <- IH.
    destruct (any_match (exclude_patterns digit) x); [done|].
    destruct (weapons_map !! x) as [[|c n]|]; [done| |done].
    by rewrite lookup_insert_ne.
Qed.

(** X25: the filtered weapons.  The export holds for a weapon id the name
    that the weapons map has for it, when the id is listed, is not
    excluded and the name is not empty, and nothing otherwise.  So every
    entry is an entry of the weapons map, and the result depends on the
    listed ids as a set only, not on the order in which the loop meets
    them. *)
Theorem filtered_weapons (digit : N -> bool) (ids_from_info : list (list N))
    (weapons_map : gmap (list N) (list N)) :
  (forall wid,
      export_filtered_weapons digit ids_from_info weapons_map !! wid
      = kept_name digit ids_from_info weapons_map wid)
  /\ export_filtered_weapons digit ids_from_info weapons_map ⊆ weapons_map
  /\ (forall ids',
        (forall wid, wid ∈ ids_from_info <-> wid ∈ ids') ->
        export_filtered_weapons digit ids_from_info weapons_map
        = export_filtered_weapons digit ids' weapons_map).
Proof.
  split; [apply export_filtered_weapons_lookup|]. split.
  - apply map_subseteq_spec. intros wid name.
    rewrite export_filtered_weapons_lookup. unfold kept_name.
    destruct (_ && _); [|done].
    by destruct (weapons_map !! wid) as [[|c n]|].
  - intros ids' Hsame. apply map_eq. intros wid.
    rewrite !export_filtered_weapons_lookup. unfold kept_name.
    by rewrite (bool_decide_ext _ _ (Hsame wid)).
Qed.
